(** * smart-request-balancer: the SmartQueue scheduler of [src/index.ts]

    The class is embedded as a state machine.  One value of [State] holds
    the fields of a [SmartQueue] instance together with the part of the
    JavaScript run time the class relies on: the objects it allocates
    (partitions are shared by reference between the [Map], the timers and
    the suspended [async] calls), the clock read by [Date.now()], the
    continuations waiting in the microtask queue, the pending timers and
    the executions whose operation has not settled yet.  Every method is a
    function on states that follows the source statement by statement; an
    [async] method is cut at its [await]s, each piece being one function.

    What the caller and the run time decide is an [event]: a call of
    [request] or [clear], the next microtask (with what the operation does
    before it returns, when the microtask invokes one), a retry signal, the
    settlement of an operation, a timer that is due, the clock moving on.
    A timer callback runs only when no microtask is left and never before
    its delay has elapsed; otherwise events come in any order.

    Numbers are exact rationals: [Date.now()], cooldowns and windows are
    [Q], so [limit * 1000 / rate] is the mathematical quotient.  This
    agrees with the source whenever [rate] is not zero, which is what the
    rules of a configuration are expected to satisfy.  The identifiers
    drawn by [getRandomId] and the references of new objects come from a
    counter, so they never repeat.

    [params.rules] is a plain object: [rules[name]] is the own property of
    that name when there is one, and otherwise the property the object
    inherits from [Object.prototype] ([toString], [constructor], ...),
    whose value is truthy and is no rule object.  The [priority] of such a
    value is [undefined], so the scan never selects its partition; the
    window [setCooldown] computes from it is [NaN], which is no rational:
    there [setCooldown] ends on [NotANumber] and the resumed [shift] has no
    next state. *)

From Stdlib Require Import QArith Lqa.
From stdpp Require Import base option list gmap strings.

Open Scope Q_scope.

(** ** Numbers *)

Definition Qltb (a b : Q) : bool := negb (Qle_bool b a).

(** [Math.max] *)
Definition Math_max (a b : Q) : Q := if Qle_bool a b then b else a.

(** A number is truthy unless it is zero. *)
Definition truthy (d : Q) : bool := negb (Qeq_bool d 0).

(** [x < bound] where [None] stands for [Infinity]. *)
Definition below (x : Q) (bound : option Q) : bool :=
  match bound with
  | None => true
  | Some m => Qltb x m
  end.

(** ** Data model *)

Record Rule := mkRule { rate : Q; limit : Q; priority : Q }.

(** The operation, the completion callback, resolved values and errors are
    opaque to the scheduler: they are tokens chosen by the caller. *)
Record QueueItemData := mkItem {
  item_id : nat;
  item_request : nat;
  item_callback : nat
}.

(** What a property of the [rules] object can hold besides [undefined]: a
    reference to a rule object, or the value of the property [name] of
    [Object.prototype], which is a function (the prototype itself for
    [__proto__]) and has none of the fields of a rule. *)
Inductive value :=
  | Ref (i : nat)
  | Proto (name : string).

(** The rule object a value refers to, when it is a reference to one. *)
#[global] Instance value_lookup : Lookup value Rule (gmap nat Rule) | 100 :=
  λ v m, match v with Ref i => m !! i | Proto _ => None end.

(** A partition.  [rule] is the value [getRule] gave when the partition
    was made, [None] being [undefined]. *)
Record QueueItem := mkQueue {
  q_id : nat;
  cooldown : Q;
  key : string;
  data : list QueueItemData;
  rule : option value;
  ruleName : string
}.

(** [rules] is a plain object: the map holds its own properties, each a
    value or [undefined] ([Some None]); the properties it inherits from
    [Object.prototype] are found by [rules_get]. *)
Record QueueConfig := mkConfig {
  rules : gmap string (option value);
  default_rule : string;
  default_key : string;
  overall : Rule;
  retryTime : Q;
  ignoreOverallOverheat : bool
}.

(** ** Run time *)

(** Suspended [async] calls that are ready to resume.  [ShiftK q] is
    [shift] resuming after [await this.findMostImportant(queue)] produced
    the partition [q]; [ExecK q item] is [execute] resuming after
    [await this.shift(queue)] produced [{queue, item}].  A [null] result
    makes both functions return at once, so nothing is queued for it. *)
Inductive job :=
  | ShiftK (q : nat)
  | ExecK (q : nat) (item : QueueItemData).

(** Callbacks given to [setTimeout]. *)
Inductive timer :=
  | CooldownT (q : nat) (cooldown : Q)
  | HeatT (lastOverheat : Q)
  | FindT
  | RetryT (q : nat) (item : QueueItemData).

(** An [execute] call waiting on [await requestPromise], with its two
    local variables. *)
Record Running := mkRunning {
  r_queue : nat;
  r_item : QueueItemData;
  retryState : bool;
  retryTimer : Q
}.

Inductive outcome :=
  | Resolved (v : nat)
  | Rejected (e : nat).

(** What an observer sees: an item pushed on a partition, an item popped
    from a partition at a time and with the window applied, a completion
    callback invoked. *)
Inductive obs :=
  | OEnqueue (q : nat) (item : QueueItemData)
  | ODispatch (t : Q) (q : nat) (item : QueueItemData) (w : Q)
  | OCall (q : nat) (item : QueueItemData) (r : outcome).

Record State := mkState {
  params : QueueConfig;
  queue : list (string * nat);
  overheat : Q;
  pending : bool;
  heatPart : Q;
  objs : gmap nat QueueItem;
  rule_objs : gmap nat Rule;
  now : Q;
  jobs : list job;
  timers : list (Q * timer);
  running : gmap nat Running;
  fresh : nat;
  history : list obs
}.

Definition set_rules (f : gmap string (option value) → gmap string (option value))
    (s : State) : State :=
  mkState (mkConfig (f (rules (params s))) (default_rule (params s)) (default_key (params s))
             (overall (params s)) (retryTime (params s)) (ignoreOverallOverheat (params s)))
    (queue s) (overheat s) (pending s) (heatPart s) (objs s) (rule_objs s) (now s)
    (jobs s) (timers s) (running s) (fresh s) (history s).

Definition set_queue (f : list (string * nat) → list (string * nat)) (s : State) : State :=
  mkState (params s) (f (queue s)) (overheat s) (pending s) (heatPart s) (objs s)
    (rule_objs s) (now s) (jobs s) (timers s) (running s) (fresh s) (history s).

Definition set_overheat (o : Q) (s : State) : State :=
  mkState (params s) (queue s) o (pending s) (heatPart s) (objs s)
    (rule_objs s) (now s) (jobs s) (timers s) (running s) (fresh s) (history s).

Definition set_pending (b : bool) (s : State) : State :=
  mkState (params s) (queue s) (overheat s) b (heatPart s) (objs s)
    (rule_objs s) (now s) (jobs s) (timers s) (running s) (fresh s) (history s).

Definition set_objs (f : gmap nat QueueItem → gmap nat QueueItem) (s : State) : State :=
  mkState (params s) (queue s) (overheat s) (pending s) (heatPart s) (f (objs s))
    (rule_objs s) (now s) (jobs s) (timers s) (running s) (fresh s) (history s).

Definition set_now (t : Q) (s : State) : State :=
  mkState (params s) (queue s) (overheat s) (pending s) (heatPart s) (objs s)
    (rule_objs s) t (jobs s) (timers s) (running s) (fresh s) (history s).

Definition set_jobs (f : list job → list job) (s : State) : State :=
  mkState (params s) (queue s) (overheat s) (pending s) (heatPart s) (objs s)
    (rule_objs s) (now s) (f (jobs s)) (timers s) (running s) (fresh s) (history s).

Definition set_timers (f : list (Q * timer) → list (Q * timer)) (s : State) : State :=
  mkState (params s) (queue s) (overheat s) (pending s) (heatPart s) (objs s)
    (rule_objs s) (now s) (jobs s) (f (timers s)) (running s) (fresh s) (history s).

Definition set_running (f : gmap nat Running → gmap nat Running) (s : State) : State :=
  mkState (params s) (queue s) (overheat s) (pending s) (heatPart s) (objs s)
    (rule_objs s) (now s) (jobs s) (timers s) (f (running s)) (fresh s) (history s).

Definition set_fresh (n : nat) (s : State) : State :=
  mkState (params s) (queue s) (overheat s) (pending s) (heatPart s) (objs s)
    (rule_objs s) (now s) (jobs s) (timers s) (running s) n (history s).

Definition observe (o : obs) (s : State) : State :=
  mkState (params s) (queue s) (overheat s) (pending s) (heatPart s) (objs s)
    (rule_objs s) (now s) (jobs s) (timers s) (running s) (fresh s) (o :: history s).

(** [setTimeout(cb, delay)]: the callback may run once the clock has
    reached [now + delay]. *)
Definition setTimeout (cb : timer) (delay : Q) (s : State) : State :=
  set_timers (λ ts, ts ++ [(now s + delay, cb)]) s.

Definition enqueue_job (j : job) (s : State) : State :=
  set_jobs (λ js, js ++ [j]) s.

(** ** The [Map] of partitions, in insertion order *)

Fixpoint Map_get (k : string) (m : list (string * nat)) : option nat :=
  match m with
  | [] => None
  | (k', v) :: m' => if String.eqb k k' then Some v else Map_get k m'
  end.

Fixpoint Map_set (k : string) (v : nat) (m : list (string * nat)) : list (string * nat) :=
  match m with
  | [] => [(k, v)]
  | (k', v') :: m' => if String.eqb k k' then (k, v) :: m' else (k', v') :: Map_set k v m'
  end.

Definition Map_delete (k : string) (m : list (string * nat)) : list (string * nat) :=
  filter (λ kv, negb (String.eqb k kv.1) = true) m.

(** ** The methods of [SmartQueue] *)

(** The names of the properties of [Object.prototype], which a plain
    object inherits. *)
Definition Object_prototype : list string :=
  ["constructor"; "hasOwnProperty"; "isPrototypeOf"; "propertyIsEnumerable";
   "toLocaleString"; "toString"; "valueOf"; "__proto__";
   "__defineGetter__"; "__defineSetter__"; "__lookupGetter__"; "__lookupSetter__"]%string.

(** [this.params.rules[name]]: the own property of that name when there is
    one, else the property inherited from [Object.prototype], else
    [undefined]. *)
Definition rules_get (name : string) (s : State) : option value :=
  match rules (params s) !! name with
  | Some v => v
  | None => if bool_decide (name ∈ Object_prototype) then Some (Proto name) else None
  end.

(** Every value is truthy, [undefined] is not. *)
Definition getRule (name : string) (s : State) : option value * State :=
  match rules_get name s with
  | Some r => (Some r, s)
  | None =>
      let d := rules_get (default_rule (params s)) s in
      (d, set_rules (<[name := d]>) s)
  end.

Definition clear (s : State) : State := set_queue (λ _, []) s.

Definition isOverheated (s : State) : bool := Qltb (now s) (overheat s).

Definition queue_length (s : State) (kv : string * nat) : nat :=
  match objs s !! kv.2 with
  | Some q => length (data q)
  | None => O
  end.

Definition totalLength (s : State) : nat :=
  fold_left (λ len kv, (len + queue_length s kv)%nat) (queue s) O.

Definition isCool (q : QueueItem) (comparedTo : Q) : bool :=
  Qle_bool (cooldown q) comparedTo.

Definition remove (k : string) (s : State) : State := set_queue (Map_delete k) s.

Definition push_item (item : QueueItemData) (q : QueueItem) : QueueItem :=
  mkQueue (q_id q) (cooldown q) (key q) (data q ++ [item]) (rule q) (ruleName q).

Definition with_cooldown (c : Q) (q : QueueItem) : QueueItem :=
  mkQueue (q_id q) c (key q) (data q) (rule q) (ruleName q).

Definition with_data (d : list QueueItemData) (q : QueueItem) : QueueItem :=
  mkQueue (q_id q) (cooldown q) (key q) d (rule q) (ruleName q).

(** [createQueue] returns the partition the item was pushed on.  Fresh
    identifiers and object references come from the counter [fresh]. *)
Definition createQueue (queueName : string) (request callback : nat) (rule : string)
    (s : State) : nat * State :=
  match Map_get queueName (queue s) ≫= (λ l, (λ q, (l, q)) <$> objs s !! l) with
  | Some (l, q) =>
      let item := mkItem (fresh s) request callback in
      (l, observe (OEnqueue l item)
            (set_queue (Map_set queueName l)
               (set_objs (<[l := push_item item q]>) (set_fresh (S (fresh s)) s))))
  | None =>
      let l := fresh s in
      let '(r, s1) := getRule rule s in
      let item := mkItem (S l) request callback in
      let q := mkQueue l (now s) queueName [item] r rule in
      (l, observe (OEnqueue l item)
            (set_queue (Map_set queueName l)
               (set_objs (<[l := q]>) (set_fresh (S (S l)) s1))))
  end.

(** One pass of [this.queue.forEach] in [findMostImportant]; the
    accumulator holds [maximumPriority], [selectedQueue] and
    [minimalCooldown].  Reading [queue.rule.priority] of a partition whose
    rule is [undefined] throws, which is the result [None]; the [priority]
    of a value that is no rule object is [undefined], and the comparison
    with it is false. *)
Definition scan_step (s : State) (t : Q)
    (acc : option (option Q * option nat * option Q)) (kv : string * nat)
    : option (option Q * option nat * option Q) :=
  '(maximumPriority, selectedQueue, minimalCooldown) ← acc;
  q ← objs s !! kv.2;
  v ← rule q;
  let '(maximumPriority, selectedQueue) :=
    match rule_objs s !! v with
    | Some r =>
        if below (priority r) maximumPriority && negb (Nat.eqb (length (data q)) 0)
           && isCool q t
        then (Some (priority r), Some kv.2)
        else (maximumPriority, selectedQueue)
    | None => (maximumPriority, selectedQueue)
    end in
  let minimalCooldown :=
    if below (cooldown q) minimalCooldown && Qltb t (cooldown q)
    then Some (cooldown q)
    else minimalCooldown in
  Some (maximumPriority, selectedQueue, minimalCooldown).

Definition scan (s : State) : option (option Q * option nat * option Q) :=
  fold_left (scan_step s (now s)) (queue s) (Some (None, None, None)).

(** [findMostImportant], up to the point where its promise is resolved
    or it suspends on [delay]. *)
Definition findMostImportant (bestQueue : option nat) (s : State) : State :=
  match bestQueue with
  | Some l => enqueue_job (ShiftK l) s
  | None =>
      match scan s with
      | None => s
      | Some (_, selectedQueue, minimalCooldown) =>
          let waits :=
            match minimalCooldown with
            | Some m => Qltb 0 (m - now s)
            | None => false
            end in
          if negb (bool_decide (is_Some selectedQueue)) && waits then
            setTimeout FindT (default 0 minimalCooldown - now s) s
          else if isOverheated s && negb (ignoreOverallOverheat (params s)) then
            setTimeout FindT (overheat s - now s) s
          else if negb (bool_decide (is_Some selectedQueue)) && Nat.eqb (totalLength s) 0 then
            set_pending false s
          else
            match selectedQueue with
            | Some l => enqueue_job (ShiftK l) s
            | None => s
            end
      end
  end.

(** [execute], up to its first [await]. *)
Definition execute (q : option nat) (s : State) : State :=
  findMostImportant q (set_pending true s).

Definition add (request callback : nat) (k rule : string) (s : State) : State :=
  let '(l, s1) := createQueue k request callback rule s in
  if pending s1 then s1 else execute (Some l) s1.

(** The public [request]; [callback] stands for the pair [resolve],
    [reject] of the promise it returns. *)
Definition request (fn callback : nat) (k rule : option string) (s : State) : State :=
  add fn callback (default (default_key (params s)) k)
    (default (default_rule (params s)) rule) s.

(** How a piece of code ends: with a result, with an exception, or on
    a number that is not rational ([NaN]), where the model has nothing to
    go on with. *)
Inductive completion (A : Type) :=
  | Normal (a : A)
  | Thrown
  | NotANumber.

Arguments Normal {A} a.
Arguments Thrown {A}.
Arguments NotANumber {A}.

(** Reading [ruleData.limit] throws when [ruleData] is [undefined].  When
    [ruleData] is a value that is no rule object, [limit] and [rate] are
    [undefined] and the window is [NaN]. *)
Definition setCooldown (l : nat) (s : State) : completion (Q * State) :=
  match objs s !! l with
  | None => Thrown
  | Some q =>
      match rules_get (ruleName q) s with
      | None => Thrown
      | Some v =>
          match rule_objs s !! v with
          | None => NotANumber
          | Some ruleData =>
              let defactoCooldown := limit ruleData * 1000 / rate ruleData in
              let cooldown := now s + defactoCooldown in
              Normal (defactoCooldown,
                      setTimeout (CooldownT l cooldown) defactoCooldown
                        (set_objs (<[l := with_cooldown cooldown q]>) s))
          end
      end
  end.

(** [shift] resuming with [currentQueue = l]; no state when the window is
    no number. *)
Definition shift_resume (l : nat) (s : State) : option State :=
  match objs s !! l with
  | None => Some s
  | Some q =>
      if Nat.eqb (length (data q)) 0 then Some s
      else
        match setCooldown l s with
        | Thrown => Some s
        | NotANumber => None
        | Normal (w, s1) =>
            match objs s1 !! l with
            | Some q1 =>
                match data q1 with
                | item :: rest =>
                    Some (enqueue_job (ExecK l item)
                            (observe (ODispatch (now s) l item w)
                               (set_objs (<[l := with_data rest q1]>) s1)))
                | [] => Some s1
                end
            | None => Some s1
            end
        end
  end.

Definition heat (s : State) : State :=
  if ignoreOverallOverheat (params s) then s
  else
    let s1 := set_overheat (now s + heatPart s) s in
    setTimeout (HeatT (overheat s1)) (heatPart s) s1.

(** [retryFn], acting on the pair [(retryState, retryTimer)]. *)
Definition retryFn (s : State) (delay : option Q) (cell : bool * Q) : bool * Q :=
  (true,
   match delay with
   | Some d => if truthy d then d else retryTime (params s)
   | None => retryTime (params s)
   end).

(** What the operation does before it returns its promise: calls to the
    retry signal, and possibly an exception. *)
Record sync_run := mkSync {
  sync_retries : list (option Q);
  sync_throw : option nat
}.

(** [execute] resuming with [nextItem = {queue: l, item}]. *)
Definition execute_resume (l : nat) (item : QueueItemData) (b : sync_run) (s : State) : State :=
  let cell := fold_left (λ c d, retryFn s d c) (sync_retries b) (false, 0) in
  match sync_throw b with
  | Some e => observe (OCall l item (Rejected e)) s
  | None =>
      let s1 := set_running (<[fresh s := mkRunning l item cell.1 cell.2]>)
                  (set_fresh (S (fresh s)) s) in
      execute None (heat s1)
  end.

Definition addRetry (l : nat) (item : QueueItemData) (delay : Q) (s : State) : State :=
  setTimeout (RetryT l item) (delay * 1000) s.

(** [execute] resuming after [await requestPromise]. *)
Definition settle (r : Running) (o : outcome) (s : State) : State :=
  match o with
  | Resolved v =>
      if retryState r then addRetry (r_queue r) (r_item r) (retryTimer r) s
      else observe (OCall (r_queue r) (r_item r) (Resolved v)) s
  | Rejected e => observe (OCall (r_queue r) (r_item r) (Rejected e)) s
  end.

Definition fire (t : timer) (s : State) : State :=
  match t with
  | CooldownT l cooldown0 =>
      match objs s !! l with
      | Some q =>
          let q1 := with_cooldown (now s + Math_max (cooldown q - cooldown0) 0) q in
          let s1 := set_objs (<[l := q1]>) s in
          if Nat.eqb (length (data q1)) 0 then remove (key q1) s1 else s1
      | None => s
      end
  | HeatT lastOverheat =>
      let leftOverHeat := Math_max (overheat s - lastOverheat) 0 in
      set_overheat (now s + leftOverHeat) s
  | FindT => findMostImportant None s
  | RetryT l item =>
      match objs s !! l with
      | Some q => add (item_request item) (item_callback item) (key q) (ruleName q) s
      | None => s
      end
  end.

(** ** The event loop *)

Inductive event :=
  | ERequest (fn callback : nat) (k rule : option string)
  | EClear
  | ERunJob (b : sync_run)
  | ERetry (e : nat) (delay : option Q)
  | ESettle (e : nat) (o : outcome)
  | ETimer (i : nat)
  | ETick (t : Q).

(** A step is [None] when the event cannot happen in the state: a timer
    runs only when it is due and no microtask is left, the clock does not
    go back, only a running operation can signal or settle; and when a
    resumed [shift] meets a window that is no number. *)
Definition step (ev : event) (s : State) : option State :=
  match ev with
  | ERequest fn callback k rule => Some (request fn callback k rule s)
  | EClear => Some (clear s)
  | ERunJob b =>
      match jobs s with
      | [] => None
      | ShiftK l :: js => shift_resume l (set_jobs (λ _, js) s)
      | ExecK l item :: js => Some (execute_resume l item b (set_jobs (λ _, js) s))
      end
  | ERetry e delay =>
      r ← running s !! e;
      let cell := retryFn s delay (retryState r, retryTimer r) in
      Some (set_running (<[e := mkRunning (r_queue r) (r_item r) cell.1 cell.2]>) s)
  | ESettle e o =>
      r ← running s !! e;
      Some (settle r o (set_running (delete e) s))
  | ETimer i =>
      match jobs s, timers s !! i with
      | [], Some (due, t) =>
          if Qle_bool due (now s)
          then Some (fire t (set_timers (delete i) s))
          else None
      | _, _ => None
      end
  | ETick t => if Qle_bool (now s) t then Some (set_now t s) else None
  end.

Fixpoint run (evs : list event) (s : State) : option State :=
  match evs with
  | [] => Some s
  | ev :: evs' => step ev s ≫= run evs'
  end.

(** ** Construction *)

Definition defaultParams : QueueConfig :=
  mkConfig {[ "common"%string := Some (Ref O) ]} "common" "common" (mkRule 30 1 1) 300 true.

Definition defaultRules : gmap nat Rule := {[ O := mkRule 30 1 3 ]}.

(** The fields of [this.params], [queue], [overheat], [pending] and
    [heatPart] as the constructor leaves them at time [t], for the merged
    parameters [p] and the rule objects [ro] they refer to. *)
Definition constructor (p : QueueConfig) (ro : gmap nat Rule) (t : Q) : State :=
  mkState p [] t false (limit (overall p) * 1000 / rate (overall p)) ∅ ro t [] [] ∅ O [].

(** The optional argument of the constructor: any field may be missing. *)
Record PartialConfig := mkPartial {
  p_rules : option (gmap string (option value));
  p_default : option (string * string);
  p_overall : option Rule;
  p_retryTime : option Q;
  p_ignoreOverallOverheat : option bool
}.

(** [Object.assign({}, defaults, params)]: a field given in [params]
    replaces the default one as a whole. *)
Definition assign (d : QueueConfig) (p : PartialConfig) : QueueConfig :=
  mkConfig (default (rules d) (p_rules p))
    (default (default_rule d) (fst <$> p_default p))
    (default (default_key d) (snd <$> p_default p))
    (default (overall d) (p_overall p))
    (default (retryTime d) (p_retryTime p))
    (default (ignoreOverallOverheat d) (p_ignoreOverallOverheat p)).

(** [new SmartQueue(params)] at time [t]. *)
Definition new_SmartQueue (p : PartialConfig) (ro : gmap nat Rule) (t : Q) : State :=
  constructor (assign defaultParams p) ro t.

(** ** The scan of [findMostImportant] *)

(** Partition [l] is non-empty and eligible at time [t], its rule having
    priority [p]. *)
Definition eligible (s : State) (t : Q) (l : nat) (p : Q) : Prop :=
  ∃ q r, objs s !! l = Some q ∧ rule q ≫= (rule_objs s !!.) = Some r ∧
         priority r = p ∧ data q ≠ [] ∧ cooldown q <= t.

(** [l], found at position [i] of the store [m], is the first partition of
    smallest priority among the eligible ones. *)
Definition first_most_important (s : State) (t : Q) (m : list (string * nat))
    (i : nat) (l : nat) (p : Q) : Prop :=
  (∃ k, m !! i = Some (k, l)) ∧ eligible s t l p ∧
  ∀ j kv p', m !! j = Some kv → eligible s t kv.2 p' →
             p <= p' ∧ (p' <= p → (i <= j)%nat).

Definition scan_spec (s : State) (t : Q) (m : list (string * nat))
    (res : option Q * option nat * option Q) : Prop :=
  (∀ kv, kv ∈ m → ∃ q v, objs s !! kv.2 = Some q ∧ rule q = Some v) ∧
  (res.2 = None → ∀ kv q, kv ∈ m → objs s !! kv.2 = Some q → cooldown q <= t) ∧
  (∀ c, res.2 = Some c → t < c) ∧
  match res.1.2 with
  | None => res.1.1 = None ∧ ∀ kv p, kv ∈ m → ¬ eligible s t kv.2 p
  | Some l => ∃ i p, res.1.1 = Some p ∧ first_most_important s t m i l p
  end.

(** The ways [findMostImportant()] can leave the state: unchanged (the
    scan threw, or [null] is returned while items are pending), suspended
    on [delay], drained, or resolved with a partition. *)
Inductive selection (s : State) : State → Prop :=
  | sel_none : selection s s
  | sel_wait d : selection s (setTimeout FindT d s)
  | sel_drain :
      (∀ kv q, kv ∈ queue s → objs s !! kv.2 = Some q → cooldown q <= now s ∧ data q = []) →
      selection s (set_pending false s)
  | sel_pick l i p :
      first_most_important s (now s) (queue s) i l p →
      selection s (enqueue_job (ShiftK l) s).

(** ** The partition store is well formed *)

Record store_wf (s : State) : Prop := {
  wf_keys : NoDup (queue s).*1;
  wf_objs : ∀ k l, (k, l) ∈ queue s → ∃ q, objs s !! l = Some q ∧ key q = k;
  wf_fresh : ∀ l q, objs s !! l = Some q → (l < fresh s)%nat
}.

(** The two ways [createQueue] goes: the item joins the partition found
    under the key, or a new partition is made. *)
Inductive created (k : string) (request callback : nat) (rn : string) (s : State)
    : nat → State → Prop :=
  | created_old l q :
      Map_get k (queue s) = Some l → objs s !! l = Some q →
      let item := mkItem (fresh s) request callback in
      created k request callback rn s l
        (observe (OEnqueue l item)
           (set_queue (Map_set k l)
              (set_objs (<[l := push_item item q]>) (set_fresh (S (fresh s)) s))))
  | created_new :
      Map_get k (queue s) ≫= (λ l, (λ q, (l, q)) <$> objs s !! l) = None →
      let l := fresh s in
      let item := mkItem (S l) request callback in
      let q := mkQueue l (now s) k [item] (getRule rn s).1 rn in
      created k request callback rn s l
        (observe (OEnqueue l item)
           (set_queue (Map_set k l)
              (set_objs (<[l := q]>) (set_fresh (S (S l)) (getRule rn s).2)))).

(** ** The dispatch loop *)

Definition is_FindT (dt : Q * timer) : bool :=
  match dt.2 with
  | FindT => true
  | _ => false
  end.

(** The number of live iterations of the loop: continuations ready to
    resume, and selections suspended on [delay]. *)
Definition chain_count (s : State) : nat :=
  (length (jobs s) + length (filter is_FindT (timers s)))%nat.

Definition rule_ok (r : Rule) : Prop := 0 < rate r ∧ 0 < limit r.

(** Every dispatch found in a history comes no sooner after an earlier
    dispatch from the same partition than the window of that earlier
    dispatch. *)
Fixpoint spaced (h : list obs) : Prop :=
  match h with
  | [] => True
  | ODispatch t2 l _ _ :: h1 =>
      (∀ t1 it w1, ODispatch t1 l it w1 ∈ h1 → t1 + w1 <= t2) ∧ spaced h1
  | _ :: h1 => spaced h1
  end.

Record loop_inv (s : State) : Prop := {
  li_store : store_wf s;
  li_rules : ∀ i r, rule_objs s !! i = Some r → rule_ok r;
  li_chain : (chain_count s <= 1)%nat;
  li_idle : pending s = false →
            chain_count s = 0%nat ∧
            ∀ k l q, (k, l) ∈ queue s → objs s !! l = Some q →
                     cooldown q <= now s ∧ data q = [];
  li_cool : ∀ l, ShiftK l ∈ jobs s → ∃ q, objs s !! l = Some q ∧ cooldown q <= now s;
  li_timers : ∀ due l c, (due, CooldownT l c) ∈ timers s → c <= due;
  li_last : ∀ t l it w, ODispatch t l it w ∈ history s →
                        ∃ q, objs s !! l = Some q ∧ t + w <= cooldown q;
  li_spaced : spaced (history s)
}.

(** What a resumed [shift] does: nothing, or a dispatch. *)
Inductive shifted (l : nat) (s : State) : State → Prop :=
  | shifted_none : shifted l s s
  | shifted_pop q r item rest :
      objs s !! l = Some q → data q = item :: rest →
      rules_get (ruleName q) s ≫= (rule_objs s !!.) = Some r →
      let w := limit r * 1000 / rate r in
      let q' := with_data rest (with_cooldown (now s + w) q) in
      shifted l s
        (enqueue_job (ExecK l item)
           (observe (ODispatch (now s) l item w)
              (set_objs (<[l := q']>)
                 (setTimeout (CooldownT l (now s + w)) w s)))).

(** The events a step can add: none, a push, a completion, or the pop of
    a resumed [shift], which is then fully described. *)
Inductive step_effect (ev : event) (s s' : State) : Prop :=
  | effect_none : history s' = history s → step_effect ev s s'
  | effect_push l it : history s' = OEnqueue l it :: history s → step_effect ev s s'
  | effect_call l it r : history s' = OCall l it r :: history s → step_effect ev s s'
  | effect_pop b l js q r item rest :
      ev = ERunJob b → jobs s = ShiftK l :: js →
      objs s !! l = Some q → data q = item :: rest →
      rules_get (ruleName q) s ≫= (rule_objs s !!.) = Some r →
      history s' = ODispatch (now s) l item (limit r * 1000 / rate r) :: history s →
      objs s' !! l = Some (with_data rest (with_cooldown (now s + limit r * 1000 / rate r) q)) →
      step_effect ev s s'.

(** ** Histories of one partition *)

(** The items pushed on partition [l], oldest first. *)
Fixpoint enqueued (l : nat) (h : list obs) : list QueueItemData :=
  match h with
  | [] => []
  | OEnqueue l' it :: h' => if decide (l' = l) then enqueued l h' ++ [it] else enqueued l h'
  | _ :: h' => enqueued l h'
  end.

(** The items popped from partition [l], oldest first. *)
Fixpoint popped (l : nat) (h : list obs) : list QueueItemData :=
  match h with
  | [] => []
  | ODispatch _ l' it _ :: h' => if decide (l' = l) then popped l h' ++ [it] else popped l h'
  | _ :: h' => popped l h'
  end.

(** The identifiers given to pushed items. *)
Fixpoint pushed_ids (h : list obs) : list nat :=
  match h with
  | [] => []
  | OEnqueue _ it :: h' => item_id it :: pushed_ids h'
  | _ :: h' => pushed_ids h'
  end.

Definition data_of (s : State) (l : nat) : list QueueItemData :=
  match objs s !! l with
  | Some q => data q
  | None => []
  end.

Record hist_inv (s : State) : Prop := {
  hi_fresh : ∀ l q, objs s !! l = Some q → (l < fresh s)%nat;
  hi_fifo : ∀ l, enqueued l (history s) = popped l (history s) ++ data_of s l;
  hi_ids : ∀ i, i ∈ pushed_ids (history s) → (i < fresh s)%nat;
  hi_nodup : NoDup (pushed_ids (history s));
  hi_calls : ∀ l it r, OCall l it r ∈ history s → it ∈ popped l (history s);
  hi_jobs : ∀ l it, ExecK l it ∈ jobs s → it ∈ popped l (history s);
  hi_running : ∀ e r, running s !! e = Some r → r_item r ∈ popped (r_queue r) (history s)
}.

(** ** Partitions that left the store *)

(** Partition [l] exists but the store no longer refers to it. *)
Definition detached (l : nat) (s : State) : Prop :=
  (l < fresh s)%nat ∧ ∀ k, (k, l) ∉ queue s.

(** Going from [s] to [s'] left the detached partition [l] alone. *)
Definition untouched (l : nat) (s s' : State) : Prop :=
  detached l s' ∧ data_of s' l = data_of s l ∧
  popped l (history s') = popped l (history s) ∧
  (ShiftK l ∈ jobs s' → ShiftK l ∈ jobs s).

(** The state of partition [l], detached by [clear] in state [s], in a
    later state [s2]: it is as it was, or the shift that held it has
    popped its head. *)
Definition since_clear (l : nat) (s s2 : State) : Prop :=
  detached l s2 ∧
  ((popped l (history s2) = popped l (history s) ∧ data_of s2 l = data_of s l ∧
    (ShiftK l ∈ jobs s2 → ShiftK l ∈ jobs s))
   ∨ (ShiftK l ∈ jobs s ∧ (ShiftK l ∉ jobs s2) ∧
      ∃ it, data_of s l = it :: data_of s2 l ∧
            popped l (history s2) = popped l (history s) ++ [it])).

(** ** The rule registry only grows *)

(** From [s] to [s'] no rule object changed and every name that resolved
    still resolves to the same rule object. *)
Definition rules_kept (s s' : State) : Prop :=
  rule_objs s' = rule_objs s ∧
  default_rule (params s') = default_rule (params s) ∧
  ∀ n r, rules_get n s = Some r → rules_get n s' = Some r.

(** Two submissions to the default partition, both dispatched: the second
    one after the cooldown of the first has elapsed. *)
Definition two_dispatches : list event :=
  [ERequest 1 1 None None; ERequest 2 2 None None; ERunJob (mkSync [] None);
   ERunJob (mkSync [] None); ETick (100 # 3); ETimer 1; ERunJob (mkSync [] None)].

(** The test "should clear queues": two submissions, then [clear()]. *)
Definition two_requests : list event :=
  [ERequest 1 1 (Some "1"%string) (Some "q1"%string);
   ERequest 2 2 (Some "2"%string) (Some "q1"%string)].

(** The configuration of the test "should clear queues": one rule [q1]. *)
Definition q1Params : QueueConfig :=
  mkConfig {[ "q1"%string := Some (Ref O) ]} "common" "common" (mkRule 30 1 1) 300 true.
Definition q1Rules : gmap nat Rule := {[ O := mkRule 10 1 1 ]}.

(** The configuration of the test "should hit overall heat limit". *)
Definition heatParams : QueueConfig :=
  mkConfig {[ "common"%string := Some (Ref O) ]} "common" "common" (mkRule 10 1 1) 100 false.

Definition returns : sync_run := mkSync [] None.
Definition throws (e : nat) : sync_run := mkSync [] (Some e).


(** The loop has stopped for good: [pending] is set but no iteration is
    live. *)
Definition stalled (s : State) : Prop :=
  pending s = true ∧ chain_count s = 0%nat.

(** After the throw a second submission stays queued for ever. *)
Definition after_throw : list event :=
  [ERequest 2 2 None None; ETick 1000; ETimer 0].

(** The run of X3: an item is dispatched from key [k], the store is
    cleared, two items are submitted under the same key, and the cooldown
    timer of the cleared partition runs before the loop wakes up. *)
Definition stale_timer_run : list event :=
  [ERequest 1 1 (Some "k"%string) (Some "q1"%string); ERunJob returns; ERunJob returns;
   EClear; ETick 1;
   ERequest 2 2 (Some "k"%string) (Some "q1"%string);
   ERequest 3 3 (Some "k"%string) (Some "q1"%string);
   ETick 100; ETimer 0; ETimer 0].

(** ** The configuration and the overall overheat *)

(** The parts of the configuration no method assigns. *)
Definition same_config (s s' : State) : Prop :=
  default_rule (params s') = default_rule (params s) ∧
  default_key (params s') = default_key (params s) ∧
  overall (params s') = overall (params s) ∧
  retryTime (params s') = retryTime (params s) ∧
  ignoreOverallOverheat (params s') = ignoreOverallOverheat (params s) ∧
  heatPart s' = heatPart s.

(** The overall overheat is ignored and has never been set since the
    scheduler was made at time [t0]. *)
Definition never_heated (t0 : Q) (s : State) : Prop :=
  ignoreOverallOverheat (params s) = true ∧ overheat s = t0 ∧ t0 <= now s ∧
  ∀ due last, (due, HeatT last) ∉ timers s.

(** ** Partition objects *)

(** Partition [q'] is partition [q] later on: the fields given at creation
    are the same and the cooldown has not gone back. *)
Definition later_partition (q q' : QueueItem) : Prop :=
  q_id q' = q_id q ∧ key q' = key q ∧ rule q' = rule q ∧ ruleName q' = ruleName q ∧
  cooldown q <= cooldown q'.

(** What a step does to the partition objects and to the configuration:
    nothing, an assignment to fields of one partition, or a call of
    [createQueue]. *)
Inductive objs_effect (s s' : State) : Prop :=
  | oe_same : objs s' = objs s → params s' = params s → objs_effect s s'
  | oe_update l q q' :
      objs s !! l = Some q → objs s' = <[l := q']> (objs s) → params s' = params s →
      q_id q' = q_id q → key q' = key q → rule q' = rule q → ruleName q' = ruleName q →
      (loop_inv s → cooldown q <= cooldown q') → objs_effect s s'
  | oe_created k request callback rn s0 l s1 :
      objs s0 = objs s → params s0 = params s → fresh s0 = fresh s → queue s0 = queue s →
      rule_objs s0 = rule_objs s →
      created k request callback rn s0 l s1 →
      objs s' = objs s1 → params s' = params s1 → objs_effect s s'.

(** Every partition is bound to the rule its rule name stands for. *)
Definition bound (s : State) : Prop :=
  ∀ l q, objs s !! l = Some q →
    rule q = rules_get (ruleName q) s ∧
    (rule q = None → rules_get (default_rule (params s)) s = None).

(** ** The soonest cooldown *)

(** [c] is the soonest cooldown-until timestamp after [t] among the
    partitions of the store [m]. *)
Definition earliest_cooling (s : State) (t : Q) (m : list (string * nat)) (c : Q) : Prop :=
  (∃ kv q, kv ∈ m ∧ objs s !! kv.2 = Some q ∧ cooldown q = c ∧ t < c) ∧
  ∀ kv q, kv ∈ m → objs s !! kv.2 = Some q → t < cooldown q → c <= cooldown q.

(** What the scan leaves in [minimalCooldown]. *)
Definition scan_min_spec (s : State) (t : Q) (m : list (string * nat))
    (minimalCooldown : option Q) : Prop :=
  match minimalCooldown with
  | Some c => earliest_cooling s t m c
  | None => ∀ kv q, kv ∈ m → objs s !! kv.2 = Some q → cooldown q <= t
  end.

(** ** A loop that stays alive *)








(** ** A pinned partition *)



(** ** Dispatches and the overall overheat *)

(** Every dispatch found in a history comes no sooner than [H] after
    every earlier dispatch, whatever the partitions. *)
Fixpoint gspaced (H : Q) (h : list obs) : Prop :=
  match h with
  | [] => True
  | ODispatch t2 _ _ _ :: h1 =>
      (∀ t1 l it w, ODispatch t1 l it w ∈ h1 → t1 + H <= t2) ∧ gspaced H h1
  | _ :: h1 => gspaced H h1
  end.

(** Every dispatch made so far is at least [H] old, or will be once the
    overheat is over. *)
Definition heated (H : Q) (s : State) : Prop :=
  ∀ t l it w, ODispatch t l it w ∈ history s → t + H <= overheat s ∨ t + H <= now s.

Definition cooled (H : Q) (s : State) : Prop :=
  ∀ t l it w, ODispatch t l it w ∈ history s → t + H <= now s.

(** The invariant of the overall overheat when it is not ignored, [H]
    being [heatPart]. *)
Record heat_inv (H : Q) (s : State) : Prop := {
  hv_ignore : ignoreOverallOverheat (params s) = false;
  hv_part : heatPart s = H;
  hv_spaced : gspaced H (history s);
  hv_past : ∀ t l it w, ODispatch t l it w ∈ history s → t <= now s;
  hv_timers : ∀ due last, (due, HeatT last) ∈ timers s → last <= due;
  hv_wait : (∃ due, (due, FindT) ∈ timers s) → heated H s;
  hv_shift : (∃ l, ShiftK l ∈ jobs s) → cooled H s;
  hv_idle : pending s = false → cooled H s
}.

(** The step recorded no dispatch. *)
Definition quiet (s s' : State) : Prop :=
  history s' = history s ∨
  ∃ o, history s' = o :: history s ∧ ∀ t l it w, o ≠ ODispatch t l it w.

(** The run of the test "should hit overall heat limit": the second item
    could go at 33 ms but goes at 100 ms. *)
Definition heat_run : list event :=
  [ERequest 1 1 None None; ERequest 2 2 None None; ERunJob returns; ERunJob returns;
   ETick (100 # 3); ETimer 0; ETimer 1; ETick 100; ETimer 0; ETimer 0; ERunJob returns].

(** ** Completions *)

(** The items whose completion callback has been invoked, latest first. *)
Fixpoint called (h : list obs) : list QueueItemData :=
  match h with
  | [] => []
  | OCall _ it _ :: h' => it :: called h'
  | _ :: h' => called h'
  end.

(** An item is in one place at a time: about to execute, running, or
    completed, and completed once. *)
Record once_inv (s : State) : Prop := {
  on_called : NoDup (called (history s));
  on_fresh : ∀ e r, running s !! e = Some r → (e < fresh s)%nat;
  on_running : ∀ e e' r r', running s !! e = Some r → running s !! e' = Some r' →
                            r_item r = r_item r' → e = e';
  on_exec_running : ∀ l it e r, ExecK l it ∈ jobs s → running s !! e = Some r → r_item r ≠ it;
  on_called_exec : ∀ l it, ExecK l it ∈ jobs s → it ∉ called (history s);
  on_called_running : ∀ e r, running s !! e = Some r → r_item r ∉ called (history s)
}.

(** ** Completion callbacks *)

(** The number of times [x] occurs in [l]. *)
Definition count (x : nat) (l : list nat) : nat := length (filter (x =.) l).

(** The completion callbacks a scheduler holds: those it has invoked,
    those of the items about to execute, running, waiting for a retry, and
    queued in a partition. *)
Definition sinks_called (h : list obs) : list nat :=
  h ≫= λ o, match o with OCall _ it _ => [item_callback it] | _ => [] end.
Definition sinks_jobs (js : list job) : list nat :=
  js ≫= λ j, match j with ExecK _ it => [item_callback it] | ShiftK _ => [] end.
Definition sinks_timers (ts : list (Q * timer)) : list nat :=
  ts ≫= λ dt, match dt.2 with RetryT _ it => [item_callback it] | _ => [] end.
Definition sinks_map {A} (f : A → list nat) (m : gmap nat A) : list nat :=
  map_to_list m ≫= λ x, f x.2.
Definition sinks_running (r : Running) : list nat := [item_callback (r_item r)].
Definition sinks_queued (q : QueueItem) : list nat := item_callback <$> data q.

Definition weight (x : nat) (s : State) : nat :=
  (count x (sinks_called (history s)) + count x (sinks_jobs (jobs s)) +
   count x (sinks_map sinks_running (running s)) + count x (sinks_timers (timers s)) +
   count x (sinks_map sinks_queued (objs s)))%nat.

(** The completion callbacks given to [request] in a run. *)
Definition submitted (evs : list event) : list nat :=
  evs ≫= λ ev, match ev with ERequest _ cb _ _ => [cb] | _ => [] end.

(** A retried submission: the operation signals [retry(1)] and resolves,
    is submitted again a second later, and resolves. *)
Definition retry_run : list event :=
  [ERequest 1 1 None None; ERunJob returns; ERunJob (mkSync [Some 1] None);
   ESettle 2 (Resolved 7); ETick 1000; ETimer 0; ETimer 0; ETimer 0;
   ERunJob returns; ERunJob returns; ESettle 5 (Resolved 8)].

(** ** Schedulers sharing a [rules] object *)

(** [this.params.rules] is a reference: [Object.assign] copies the
    reference held by [defaultParams], which is one object of the module,
    or the one held by the argument.  A state of the program is the [rules]
    objects, [O] being [defaultParams.rules], and the schedulers, each
    with the reference it holds; a method runs on the fields of its
    scheduler with [rules] read through the reference, and what it assigns
    to [rules] is written through it. *)
Record Instance := mkInstance {
  rules_ref : nat;
  this : State
}.

Definition enter (h : gmap nat (gmap string (option value))) (i : Instance) : State :=
  set_rules (λ _, default ∅ (h !! rules_ref i)) (this i).

Definition leave (h : gmap nat (gmap string (option value))) (i : Instance) (s : State)
    : gmap nat (gmap string (option value)) * Instance :=
  (<[rules_ref i := rules (params s)]> h, mkInstance (rules_ref i) s).

Definition step_in (ev : event) (i : Instance) (h : gmap nat (gmap string (option value)))
    : option (gmap nat (gmap string (option value)) * Instance) :=
  s ← step ev (enter h i); Some (leave h i s).

(** [new SmartQueue(params)], [rules] being the reference [params.rules]
    holds, if any. *)
Definition new_in (rules : option nat) (p : PartialConfig) (ro : gmap nat Rule) (t : Q)
    : Instance :=
  mkInstance (default O rules) (new_SmartQueue p ro t).

(** The heap of a new module: [defaultParams.rules] alone. *)
Definition module_rules : gmap nat (gmap string (option value)) :=
  {[ O := rules defaultParams ]}.

(** ** Empty partitions *)

(** Every empty partition of the store has a cooldown timer pending, whose
    callback will remove it. *)
Definition swept (s : State) : Prop :=
  ∀ k l q, (k, l) ∈ queue s → objs s !! l = Some q → data q = [] →
           ∃ due c, (due, CooldownT l c) ∈ timers s.

(** ** Retries and [clear] *)

(** The operation signals [retry(1)] and resolves; a second later the
    timers of the cooldown and of the selection have run. *)
Definition retry_pending : list event :=
  [ERequest 1 1 None None; ERunJob returns; ERunJob (mkSync [Some 1] None);
   ESettle 2 (Resolved 7); ETick 1000; ETimer 0; ETimer 0].

(** ** How long the overheat lasts *)

(** The overheat set by an operation started [H] before [T] at the
    latest is not over before [T]. *)
Record lasting (H T : Q) (s : State) : Prop := {
  la_ignore : ignoreOverallOverheat (params s) = false;
  la_part : heatPart s = H;
  la_overheat : T <= overheat s;
  la_now : T <= now s + H;
  la_timers : ∀ due last, (due, HeatT last) ∈ timers s → last <= due
}.

(** ** The run time left alone *)





(** The measure of what a scheduler left alone still has to do. *)







(** The partitions of the store that are cooling at [d], and the overheat
    if it lasts beyond [d]. *)
Definition is_cooling (s : State) (d : Q) (kv : string * nat) : bool :=
  match objs s !! kv.2 with
  | Some q => Qltb d (cooldown q)
  | None => false
  end.

Definition cool_count (s : State) (d : Q) : nat :=
  (length (filter (is_cooling s d) (queue s)) + if Qltb d (overheat s) then 1 else 0)%nat.

(** What the suspended selections may still have to wait for: for each
    of them, the partitions cooling and the overheat lasting beyond its
    deadline. *)
Definition waits (s : State) (ts : list (Q * timer)) : nat :=
  sum_list ((λ dt : Q * timer, if is_FindT dt then S (cool_count s dt.1) else O) <$> ts).



(** * Properties *)

(** ** Comparisons *)

Lemma Qltb_true (a b : Q) : Qltb a b = true ↔ a < b.
Proof.
  unfold Qltb. rewrite negb_true_iff. split.
  - intros H. apply Qnot_le_lt. intros Hle. apply Qle_bool_iff in Hle. congruence.
  - intros H. destruct (Qle_bool b a) eqn:E; [|done].
    apply Qle_bool_iff in E. lra.
Qed.

Lemma Qltb_false (a b : Q) : Qltb a b = false ↔ b <= a.
Proof.
  unfold Qltb. rewrite negb_false_iff. apply Qle_bool_iff.
Qed.

Lemma Qle_bool_false (a b : Q) : Qle_bool a b = false ↔ b < a.
Proof.
  split.
  - intros H. apply Qnot_le_lt. intros Hle. apply Qle_bool_iff in Hle. congruence.
  - intros H. destruct (Qle_bool a b) eqn:E; [|done].
    apply Qle_bool_iff in E. lra.
Qed.

Lemma Math_max_ge (a b : Q) : a <= Math_max a b ∧ b <= Math_max a b.
Proof.
  unfold Math_max. destruct (Qle_bool a b) eqn:E.
  - apply Qle_bool_iff in E. lra.
  - apply Qle_bool_false in E. lra.
Qed.


(** ** The ordered map *)

Lemma Map_get_Some k m l : Map_get k m = Some l → (k, l) ∈ m.
Proof.
  induction m as [|[k' v] m IH]; simpl; [done|].
  destruct (String.eqb k k') eqn:E.
  - apply String.eqb_eq in E. intros [= ->]. subst. left.
  - intros H. right. auto.
Qed.

Lemma Map_get_None k m : Map_get k m = None → k ∉ m.*1.
Proof.
  induction m as [|[k' v] m IH]; simpl.
  - intros _. apply not_elem_of_nil.
  - destruct (String.eqb k k') eqn:E; [done|].
    apply String.eqb_neq in E. intros H. apply not_elem_of_cons. split; auto.
Qed.

Lemma Map_set_present k l m : Map_get k m = Some l → Map_set k l m = m.
Proof.
  induction m as [|[k' v] m IH]; simpl; [done|].
  destruct (String.eqb k k') eqn:E.
  - apply String.eqb_eq in E. intros [= ->]. by subst.
  - intros H. by rewrite IH.
Qed.

Lemma Map_set_absent k l m : Map_get k m = None → Map_set k l m = m ++ [(k, l)].
Proof.
  induction m as [|[k' v] m IH]; simpl; [done|].
  destruct (String.eqb k k') eqn:E; [done|].
  intros H. by rewrite IH.
Qed.

Lemma Map_delete_elem k kv m : kv ∈ Map_delete k m ↔ kv ∈ m ∧ kv.1 ≠ k.
Proof.
  unfold Map_delete. rewrite list_elem_of_filter. rewrite negb_true_iff.
  split; intros [H1 H2]; split; auto.
  - apply String.eqb_neq in H1. congruence.
  - apply String.eqb_neq. congruence.
Qed.

Lemma Map_delete_NoDup k m : NoDup m.*1 → NoDup (Map_delete k m).*1.
Proof.
  unfold Map_delete. induction m as [|[k' v] m IH]; simpl; [done|].
  rewrite !NoDup_cons. intros [Hn Hd].
  rewrite filter_cons. simpl. destruct (decide _); simpl; [|auto].
  rewrite NoDup_cons. split; [|auto].
  intros Hin. apply Hn. apply list_elem_of_fmap in Hin as [kv [-> Hkv]].
  apply list_elem_of_filter in Hkv as [_ Hkv].
  apply list_elem_of_fmap. eauto.
Qed.

(** ** The scan of [findMostImportant] *)

Lemma length_zero_nil {A} (l : list A) : Nat.eqb (length l) 0 = true ↔ l = [].
Proof. destruct l; simpl; split; intros; done. Qed.

Lemma scan_step_keep s t m mp sel mc kv q v :
  scan_spec s t m (mp, sel, mc) →
  objs s !! kv.2 = Some q → rule q = Some v →
  (∀ p', eligible s t kv.2 p' → ∃ p, mp = Some p ∧ p <= p') →
  scan_spec s t (m ++ [kv])
    (mp, sel, if below (cooldown q) mc && Qltb t (cooldown q) then Some (cooldown q) else mc).
Proof.
  intros (Hobj & Hmc & Hlt & Hsel) Eq Ev Hnew. unfold scan_spec; simpl in *.
  split; [|split; [|split]].
  - intros kv' [H| ->%list_elem_of_singleton]%elem_of_app; eauto.
  - destruct (below (cooldown q) mc && Qltb t (cooldown q)) eqn:Em; [done|].
    intros ->. simpl in Em. apply Qltb_false in Em.
    intros kv' q' [H| ->%list_elem_of_singleton]%elem_of_app Hq'; [eauto|].
    congruence.
  - intros c. destruct (below (cooldown q) mc && Qltb t (cooldown q)) eqn:Em; [|by auto].
    apply andb_prop in Em as [_ Em%Qltb_true]. by intros [= <-].
  - destruct sel as [l0|].
    + destruct Hsel as (i & p & -> & (k0 & Hi) & Hel0 & Hmin).
      exists i, p. split; [done|]. split; [|split; [done|]].
      { exists k0. by apply lookup_app_l_Some. }
      intros j kv' p' Hj Hel'.
      destruct (decide (j < length m)%nat) as [Hlt'|Hge].
      * rewrite lookup_app_l in Hj by done. eauto.
      * assert (j = length m) as ->.
        { apply lookup_lt_Some in Hj. rewrite length_app in Hj. simpl in Hj. lia. }
        rewrite lookup_app_r, Nat.sub_diag in Hj by lia. simpl in Hj.
        injection Hj as <-. destruct (Hnew p' Hel') as (p0 & [= <-] & Hle).
        split; [done|]. intros _. apply lookup_lt_Some in Hi. lia.
    + destruct Hsel as [-> Hnone]. split; [done|].
      intros kv' p' [H| ->%list_elem_of_singleton]%elem_of_app; [eauto|].
      intros Hel'. by destruct (Hnew p' Hel') as (p0 & [=] & _).
Qed.

Lemma scan_step_spec s t m acc kv res :
  scan_spec s t m acc →
  scan_step s t (Some acc) kv = Some res →
  scan_spec s t (m ++ [kv]) res.
Proof.
  destruct acc as [[mp sel] mc]. intros Hspec.
  unfold scan_step. simpl.
  destruct (objs s !! kv.2) as [q|] eqn:Eq; simpl; [|done].
  destruct (rule q) as [v|] eqn:Ev; simpl; [|done].
  destruct (rule_objs s !! v) as [r|] eqn:Er.
  2: { (* the value is no rule object: the selection is kept *)
    intros [= <-]. apply (scan_step_keep s t m mp sel mc kv q v); try done.
    intros p' (q' & r' & Hq' & Hr' & _). exfalso.
    assert (q' = q) as -> by congruence. rewrite Ev in Hr'. simpl in Hr'. congruence. }
  assert (Hr : rule q ≫= (rule_objs s !!.) = Some r) by (by rewrite Ev).
  destruct (below (priority r) mp && negb (Nat.eqb (length (data q)) 0) && isCool q t) eqn:Epick;
    intros [= <-].
  - (* the partition replaces the selection *)
    destruct Hspec as (Hobj & Hmc & Hlt & Hsel). unfold scan_spec; simpl in *.
    apply andb_prop in Epick as [Epick Hcool]. apply andb_prop in Epick as [Hbelow Hne].
    apply Qle_bool_iff in Hcool.
    assert (Hdata : data q ≠ []).
    { intros Hn. apply length_zero_nil in Hn. rewrite Hn in Hne. done. }
    assert (Hel : eligible s t kv.2 (priority r)) by (exists q, r; done).
    split; [|split; [|split]].
    + intros kv' [H| ->%list_elem_of_singleton]%elem_of_app; eauto.
    + destruct (below (cooldown q) mc && Qltb t (cooldown q)) eqn:Em; [done|].
      intros ->. simpl in Em. apply Qltb_false in Em.
      intros kv' q' [H| ->%list_elem_of_singleton]%elem_of_app Hq'; [eauto|].
      congruence.
    + intros c. destruct (below (cooldown q) mc && Qltb t (cooldown q)) eqn:Em; [|by auto].
      apply andb_prop in Em as [_ Em%Qltb_true]. by intros [= <-].
    + exists (length m), (priority r). split; [done|]. split; [|split; [done|]].
      { exists kv.1. rewrite lookup_app_r, Nat.sub_diag by lia. by destruct kv. }
      intros j kv' p' Hj Hel'.
      destruct (decide (j < length m)%nat) as [Hlt'|Hge].
      * rewrite lookup_app_l in Hj by done.
        destruct sel as [l0|].
        -- destruct Hsel as (i & p & -> & (k0 & Hi) & Hel0 & Hmin).
           simpl in Hbelow. apply Qltb_true in Hbelow.
           destruct (Hmin j kv' p' Hj Hel') as [Hp _]. split; [lra|]. intros; lra.
        -- destruct Hsel as [_ Hnone]. exfalso.
           apply (Hnone kv' p'); [|done]. eapply list_elem_of_lookup_2; eauto.
      * assert (j = length m) as ->.
        { apply lookup_lt_Some in Hj. rewrite length_app in Hj. simpl in Hj. lia. }
        rewrite lookup_app_r, Nat.sub_diag in Hj by lia. simpl in Hj.
        injection Hj as <-. destruct Hel' as (q' & r' & Hq' & Hr' & <- & _).
        assert (q' = q) as -> by congruence. assert (r' = r) as -> by congruence.
        split; [lra|lia].
  - (* the selection is kept *)
    apply (scan_step_keep s t m mp sel mc kv q v); try done.
    intros p' (q' & r' & Hq' & Hr' & <- & Hd & Hc).
    assert (q' = q) as -> by congruence. assert (r' = r) as -> by congruence.
    destruct mp as [p|]; simpl in Epick.
    + exists p. split; [done|].
      destruct (Qltb (priority r) p) eqn:Ep; [|by apply Qltb_false in Ep].
      exfalso. simpl in Epick. apply andb_false_iff in Epick as [Epick|Epick].
      * apply negb_false_iff, length_zero_nil in Epick. done.
      * unfold isCool in Epick. apply Qle_bool_false in Epick. lra.
    + exfalso. apply andb_false_iff in Epick as [Epick|Epick].
      * apply negb_false_iff, length_zero_nil in Epick. done.
      * unfold isCool in Epick. apply Qle_bool_false in Epick. lra.
Qed.

Lemma scan_fold_spec s t m res :
  fold_left (scan_step s t) m (Some (None, None, None)) = Some res →
  scan_spec s t m res.
Proof.
  revert res. induction m as [|kv m IH] using rev_ind; intros res.
  - simpl. intros [= <-]. unfold scan_spec. simpl.
    repeat split; try done.
    + intros kv []%elem_of_nil.
    + intros _ kv q []%elem_of_nil.
    + intros kv p []%elem_of_nil.
  - rewrite fold_left_app. simpl.
    destruct (fold_left (scan_step s t) m (Some (None, None, None))) as [acc|] eqn:E.
    + intros H. eapply scan_step_spec; eauto.
    + done.
Qed.

Lemma scan_spec_now s res : scan s = Some res → scan_spec s (now s) (queue s) res.
Proof. apply scan_fold_spec. Qed.

(** The scan throws only on a partition whose rule is [undefined]. *)
Lemma scan_defined s :
  (∀ kv, kv ∈ queue s → ∃ q r, objs s !! kv.2 = Some q ∧ rule q ≫= (rule_objs s !!.) = Some r) →
  is_Some (scan s).
Proof.
  unfold scan. generalize (now s) as t. intros t.
  induction (queue s) as [|kv m IH] using rev_ind; intros Hall.
  - by eexists.
  - rewrite fold_left_app. simpl.
    destruct IH as [[[mp sel] mc] ->].
    { intros kv' Hin. apply Hall. apply elem_of_app. by left. }
    destruct (Hall kv) as (q & r & Hq & Hr).
    { apply elem_of_app. right. by apply list_elem_of_singleton. }
    unfold scan_step. simpl. rewrite Hq. simpl.
    destruct (rule q) as [v|]; simpl in *; [|done]. rewrite Hr.
    destruct (_ && _); by eexists.
Qed.

Lemma totalLength_fold s m acc :
  fold_left (λ len kv, (len + queue_length s kv)%nat) m acc = 0%nat →
  acc = 0%nat ∧ ∀ kv, kv ∈ m → queue_length s kv = 0%nat.
Proof.
  revert acc. induction m as [|kv m IH]; simpl; intros acc H.
  - split; [done|]. intros kv []%elem_of_nil.
  - apply IH in H as [H1 H2]. split; [lia|].
    intros kv' [->|Hin]%elem_of_cons; [lia|auto].
Qed.

Lemma totalLength_zero s kv q :
  totalLength s = 0%nat → kv ∈ queue s → objs s !! kv.2 = Some q → data q = [].
Proof.
  intros H Hin Hq. apply totalLength_fold in H as [_ H].
  specialize (H kv Hin). unfold queue_length in H. rewrite Hq in H.
  by apply length_zero_iff_nil.
Qed.

Lemma findMostImportant_selection s : selection s (findMostImportant None s).
Proof.
  unfold findMostImportant.
  destruct (scan s) as [[[mp sel] mc]|] eqn:Escan; [|constructor].
  apply scan_spec_now in Escan as (Hobj & Hmc & Hlt & Hsel). simpl in *.
  destruct (negb (bool_decide (is_Some sel)) && _) eqn:E1; [constructor|].
  destruct (isOverheated s && _) eqn:E2; [constructor|].
  destruct (negb (bool_decide (is_Some sel)) && Nat.eqb (totalLength s) 0) eqn:E3.
  - apply andb_prop in E3 as [E3 Hlen]. apply Nat.eqb_eq in Hlen.
    rewrite E3 in E1. simpl in E1.
    destruct mc as [c|].
    { apply Qltb_false in E1. specialize (Hlt c eq_refl). lra. }
    apply sel_drain. intros kv q Hin Hq. split; [eauto|].
    eapply totalLength_zero; eauto.
  - destruct sel as [l|]; [|constructor].
    destruct Hsel as (i & p & _ & Hfirst). by eapply sel_pick.
Qed.

(** ** The partition store stays well formed *)

Lemma getRule_frame name s :
  queue (getRule name s).2 = queue s ∧ objs (getRule name s).2 = objs s ∧
  fresh (getRule name s).2 = fresh s ∧ pending (getRule name s).2 = pending s ∧
  now (getRule name s).2 = now s ∧ jobs (getRule name s).2 = jobs s ∧
  timers (getRule name s).2 = timers s ∧ history (getRule name s).2 = history s ∧
  rule_objs (getRule name s).2 = rule_objs s ∧ running (getRule name s).2 = running s ∧
  overheat (getRule name s).2 = overheat s.
Proof. unfold getRule. destruct (rules_get name s); simpl; repeat split. Qed.

Lemma createQueue_created k request callback rn s :
  created k request callback rn s (createQueue k request callback rn s).1
    (createQueue k request callback rn s).2.
Proof.
  unfold createQueue.
  destruct (Map_get k (queue s) ≫= _) as [[l q]|] eqn:E.
  - destruct (Map_get k (queue s)) as [l'|] eqn:Eg; simpl in E; [|done].
    destruct (objs s !! l') as [q'|] eqn:Eo; simpl in E; [|done].
    injection E as <- <-. simpl. by apply created_old.
  - destruct (getRule rn s) as [r s1] eqn:Er. simpl.
    pose proof (created_new k request callback rn s E) as H.
    rewrite Er in H. exact H.
Qed.

Lemma store_wf_created k request callback rn s l s' :
  store_wf s → created k request callback rn s l s' → store_wf s'.
Proof.
  intros [Hk Ho Hf] Hc. destruct Hc as [l q Hget Hq|Hnone].
  - split; simpl; rewrite ?(Map_set_present _ _ _ Hget).
    + done.
    + intros k' l' Hin. destruct (Ho k' l' Hin) as (q' & Hq' & Hkey).
      destruct (decide (l' = l)) as [->|Hne].
      * rewrite lookup_insert_eq. eexists. split; [done|]. simpl. congruence.
      * rewrite lookup_insert_ne by done. eauto.
    + intros l' q'. destruct (decide (l' = l)) as [->|Hne].
      * intros _. apply Hf in Hq. lia.
      * rewrite lookup_insert_ne by done. intros H%Hf. lia.
  - destruct (getRule_frame rn s) as (Eq & Eo & Ef & _).
    assert (Hfree : objs s !! fresh s = None).
    { destruct (objs s !! fresh s) eqn:E; [|done]. apply Hf in E. lia. }
    assert (Hget : Map_get k (queue s) = None).
    { destruct (Map_get k (queue s)) as [l0|] eqn:Eg; [|done]. exfalso.
      apply Map_get_Some in Eg. destruct (Ho _ _ Eg) as (q0 & Hq0 & _).
      simpl in Hnone. rewrite Hq0 in Hnone. done. }
    split; simpl; rewrite ?Eq, ?Eo, ?Ef.
    + rewrite (Map_set_absent _ _ _ Hget). rewrite fmap_app. simpl.
      apply NoDup_app. split; [done|]. split; [|apply NoDup_singleton].
      intros x Hx ->%list_elem_of_singleton. by apply Map_get_None in Hget.
    + rewrite (Map_set_absent _ _ _ Hget).
      intros k' l' [Hin|Hin%list_elem_of_singleton]%elem_of_app.
      * destruct (Ho k' l' Hin) as (q' & Hq' & Hkey).
        rewrite lookup_insert_ne; [eauto|]. intros <-. unfold l in Hq'. congruence.
      * injection Hin as -> ->. rewrite lookup_insert_eq. eauto.
    + intros l' q'. destruct (decide (l' = fresh s)) as [->|Hne].
      * intros _. lia.
      * rewrite lookup_insert_ne by done. intros H%Hf. lia.
Qed.

(** ** The invariant of the dispatch loop *)

(** A value that stands for a rule object is a reference. *)
Lemma value_rule (ro : gmap nat Rule) (v : value) r :
  ro !! v = Some r → ∃ i, v = Ref i ∧ ro !! i = Some r.
Proof. destruct v as [i|n]; [by exists i|done]. Qed.

Lemma bound_rule_ok (ro : gmap nat Rule) (x : option value) r :
  (∀ i r, ro !! i = Some r → rule_ok r) → x ≫= (ro !!.) = Some r → rule_ok r.
Proof.
  intros Hro. destruct x as [v|]; [|done]. simpl.
  intros (i & _ & Hi)%value_rule. by eapply Hro.
Qed.

Lemma window_nonneg r : rule_ok r → 0 <= limit r * 1000 / rate r.
Proof.
  intros [Hr Hl]. unfold Qdiv. apply Qmult_le_0_compat; [lra|].
  apply Qinv_le_0_compat. lra.
Qed.

Lemma filter_FindT_delete (ts : list (Q * timer)) i dt :
  ts !! i = Some dt →
  length (filter is_FindT ts) =
  ((if is_FindT dt then 1 else 0) + length (filter is_FindT (delete i ts)))%nat.
Proof.
  revert i. induction ts as [|x ts IH]; intros [|i]; simpl; try done.
  - intros [= ->]. rewrite filter_cons.
    destruct (decide (is_FindT dt)) as [H|H]; destruct (is_FindT dt); simpl in *; done.
  - intros H. rewrite !filter_cons. destruct (decide _); simpl; rewrite (IH i H); lia.
Qed.

Lemma elem_of_delete_timer (ts : list (Q * timer)) i x : x ∈ delete i ts → x ∈ ts.
Proof.
  revert i. induction ts as [|y ts IH]; intros [|i]; simpl; try done.
  - intros H. by right.
  - intros [->|H]%elem_of_cons; [left|right; eauto].
Qed.

Lemma filter_FindT_snoc (ts : list (Q * timer)) dt :
  length (filter is_FindT (ts ++ [dt])) =
  (length (filter is_FindT ts) + (if is_FindT dt then 1 else 0))%nat.
Proof.
  rewrite filter_app, length_app. f_equal.
  rewrite filter_cons, filter_nil.
  destruct (decide (is_FindT dt)) as [H|H]; destruct (is_FindT dt); simpl in *; done.
Qed.

Lemma store_wf_eq s s' :
  queue s' = queue s → objs s' = objs s → fresh s' = fresh s →
  store_wf s → store_wf s'.
Proof.
  intros Eq Eo Ef [Hk Ho Hf]. split; rewrite ?Eq, ?Eo, ?Ef; done.
Qed.

Lemma objs_insert_mono (m : gmap nat QueueItem) l q' l' (P : Q → Prop) :
  (∀ q, m !! l = Some q → P (cooldown q) → P (cooldown q')) →
  (∃ q0, m !! l' = Some q0 ∧ P (cooldown q0)) →
  ∃ q0, <[l := q']> m !! l' = Some q0 ∧ P (cooldown q0).
Proof.
  intros Hmono (q0 & Hq0 & HP). destruct (decide (l' = l)) as [->|Hne].
  - rewrite lookup_insert_eq. eauto.
  - rewrite lookup_insert_ne by done. eauto.
Qed.

(** [add] keeps the invariant of the loop. *)
Lemma loop_inv_add request callback k rn s :
  loop_inv s → loop_inv (add request callback k rn s).
Proof.
  intros [Hs Hr Hc Hi Hcool Ht Hl Hsp]. unfold add.
  pose proof (createQueue_created k request callback rn s) as Hcr.
  destruct (createQueue k request callback rn s) as [l s1]. simpl in Hcr.
  pose proof (store_wf_created _ _ _ _ _ _ _ Hs Hcr) as Hs1.
  destruct Hcr as [l q Hget Hq | Hnone].
  - simpl. destruct (pending s) eqn:Ep.
    + split; simpl; try done.
      * by rewrite Ep.
      * intros l' Hin. apply (objs_insert_mono _ _ _ _ (λ c, c <= now s)); eauto.
        intros q0 Hq0. assert (q0 = q) as -> by congruence. done.
      * intros t l' it' w [?|Hin]%elem_of_cons; [done|].
        apply (objs_insert_mono _ _ _ _ (λ c, t + w <= c)); eauto.
        intros q0 Hq0. assert (q0 = q) as -> by congruence. done.
    + destruct (Hi eq_refl) as [Hc0 Hidle]. unfold chain_count in Hc0.
      assert (Hj : jobs s = []) by (apply length_zero_iff_nil; lia).
      unfold execute. simpl. split; simpl; try done.
      * eapply store_wf_eq; [..|exact Hs1]; done.
      * unfold chain_count. simpl. rewrite Hj. simpl. lia.
      * rewrite Hj. intros l' [= ->]%list_elem_of_singleton.
        rewrite lookup_insert_eq. eexists. split; [done|]. simpl.
        apply (Hidle k l q); [by apply Map_get_Some|done].
      * intros t l' it' w [?|Hin]%elem_of_cons; [done|].
        apply (objs_insert_mono _ _ _ _ (λ c, t + w <= c)); eauto.
        intros q0 Hq0. assert (q0 = q) as -> by congruence. done.
  - destruct (getRule_frame rn s) as (Eq & Eo & Ef & Ep & En & Ej & Et & Eh & Er & _).
    assert (Hfree : objs s !! fresh s = None).
    { destruct (objs s !! fresh s) eqn:E; [|done]. apply Hs in E. lia. }
    assert (Hold : ∀ (P : Q → Prop) l', (∃ q0, objs s !! l' = Some q0 ∧ P (cooldown q0)) →
       ∃ q0, <[l := q]> (objs s) !! l' = Some q0 ∧ P (cooldown q0)).
    { intros P l' H. apply objs_insert_mono; [|done]. unfold l. intros q0 Hq0. congruence. }
    simpl. rewrite Ep. destruct (pending s) eqn:Epend.
    + split; simpl; rewrite ?Ep, ?En, ?Ej, ?Et, ?Eh, ?Er, ?Eo; try done.
      * unfold chain_count. simpl. by rewrite Ej, Et.
      * intros l' Hin. apply (Hold (λ c, c <= now s)). eauto.
      * intros t l' it' w [?|Hin]%elem_of_cons; [done|].
        apply (Hold (λ c, t + w <= c)). eauto.
    + destruct (Hi eq_refl) as [Hc0 Hidle]. unfold chain_count in Hc0.
      assert (Hj : jobs s = []) by (apply length_zero_iff_nil; lia).
      unfold execute. simpl. split; simpl; rewrite ?Ep, ?En, ?Ej, ?Et, ?Eh, ?Er, ?Eo; try done.
      * eapply store_wf_eq; [..|exact Hs1]; done.
      * unfold chain_count. simpl. rewrite Ej, Et, Hj. simpl. lia.
      * rewrite Hj. intros l' [= ->]%list_elem_of_singleton.
        rewrite lookup_insert_eq. eexists. split; [done|]. simpl. lra.
      * intros t l' it' w [?|Hin]%elem_of_cons; [done|].
        apply (Hold (λ c, t + w <= c)). eauto.
Qed.

Ltac store_same := (eapply store_wf_eq; [| | |eassumption]; reflexivity).

Lemma loop_inv_eq s s' :
  queue s' = queue s → objs s' = objs s → fresh s' = fresh s →
  rule_objs s' = rule_objs s → jobs s' = jobs s → timers s' = timers s →
  pending s' = pending s → now s' = now s → history s' = history s →
  loop_inv s → loop_inv s'.
Proof.
  intros Eq Eo Ef Er Ej Et Ep En Eh [Hs Hr Hc Hi Hcool Ht Hl Hsp].
  split; unfold chain_count in *; rewrite ?Eq, ?Eo, ?Ef, ?Er, ?Ej, ?Et, ?Ep, ?En, ?Eh; try done.
  by eapply store_wf_eq.
Qed.

Lemma loop_inv_find s :
  loop_inv s → chain_count s = 0%nat → pending s = true →
  loop_inv (findMostImportant None s).
Proof.
  intros Hinv Hc0 Hp.
  destruct (findMostImportant_selection s) as [|d|Hdrain|l i p Hfirst]; [done|..].
  - destruct Hinv as [Hs Hr Hc Hi Hcool Ht Hl Hsp]. unfold chain_count in *.
    split; simpl; unfold chain_count; simpl; try done; try store_same.
    + rewrite filter_FindT_snoc. simpl. lia.
    + by rewrite Hp.
    + intros due l c [Hin|[=]%list_elem_of_singleton]%elem_of_app. eauto.
  - destruct Hinv as [Hs Hr Hc Hi Hcool Ht Hl Hsp].
    split; simpl; unfold chain_count; simpl; try done; try store_same.
    intros _. split; [done|]. intros k l q Hin. by apply (Hdrain (k, l)).
  - destruct Hinv as [Hs Hr Hc Hi Hcool Ht Hl Hsp]. unfold chain_count in *.
    assert (Hj : jobs s = []) by (apply length_zero_iff_nil; lia).
    split; simpl; unfold chain_count; simpl; try done; try store_same.
    + rewrite Hj. simpl. lia.
    + by rewrite Hp.
    + rewrite Hj. intros l' [= ->]%list_elem_of_singleton.
      destruct Hfirst as (_ & (q & r & Hq & _ & _ & _ & Hcl) & _). eauto.
Qed.

Lemma loop_inv_execute s :
  loop_inv s → chain_count s = 0%nat → loop_inv (execute None s).
Proof.
  intros Hinv Hc0. unfold execute. apply loop_inv_find; [|done..].
  destruct Hinv as [Hs Hr Hc Hi Hcool Ht Hl Hsp]. unfold chain_count in *.
  split; simpl; unfold chain_count; simpl; try done; try store_same.
Qed.

Lemma shift_resume_shifted l s s' : shift_resume l s = Some s' → shifted l s s'.
Proof.
  unfold shift_resume.
  destruct (objs s !! l) as [q|] eqn:Eq; [|intros [= <-]; constructor].
  destruct (Nat.eqb (length (data q)) 0) eqn:El; [intros [= <-]; constructor|].
  unfold setCooldown. rewrite Eq.
  destruct (rules_get (ruleName q) s) as [v|] eqn:Ev; [|intros [= <-]; constructor].
  destruct (rule_objs s !! v) as [r|] eqn:Er'; [|done].
  assert (Er : rules_get (ruleName q) s ≫= (rule_objs s !!.) = Some r) by (by rewrite Ev).
  simpl. rewrite lookup_insert_eq. simpl.
  destruct (data q) as [|item rest] eqn:Ed; [done|]. intros [= <-].
  pose proof (shifted_pop l s q r item rest Eq Ed Er) as H. simpl in H.
  unfold enqueue_job, observe, set_objs, setTimeout, set_timers, set_jobs in *. simpl in *.
  rewrite insert_insert_eq. exact H.
Qed.

(** A resumed [shift] that holds a non-empty partition whose rule name
    stands for a rule object pops its head. *)
Lemma shift_resume_pop l s q v r it rest :
  objs s !! l = Some q → data q = it :: rest →
  rules_get (ruleName q) s = Some v → rule_objs s !! v = Some r →
  shift_resume l s =
  Some (enqueue_job (ExecK l it)
          (observe (ODispatch (now s) l it (limit r * 1000 / rate r))
             (set_objs (<[l := with_data rest
                                  (with_cooldown (now s + limit r * 1000 / rate r) q)]>)
                (setTimeout (CooldownT l (now s + limit r * 1000 / rate r))
                   (limit r * 1000 / rate r) s)))).
Proof.
  intros Hq Hd Hv Hr. unfold shift_resume, setCooldown. rewrite Hq, Hd, Hv, Hr. simpl.
  rewrite lookup_insert_eq. simpl. rewrite Hd.
  unfold enqueue_job, observe, set_objs, setTimeout, set_timers, set_jobs. simpl.
  by rewrite insert_insert_eq.
Qed.

Lemma loop_inv_pop_job s j js :
  loop_inv s → jobs s = j :: js →
  loop_inv (set_jobs (λ _, js) s) ∧ chain_count (set_jobs (λ _, js) s) = 0%nat ∧
  pending s = true ∧ js = [].
Proof.
  intros [Hs Hr Hc Hi Hcool Ht Hl Hsp] Hj. unfold chain_count in *.
  rewrite Hj in Hc. simpl in Hc.
  assert (js = []) as -> by (apply length_zero_iff_nil; lia).
  assert (Hp : pending s = true).
  { destruct (pending s); [done|]. destruct (Hi eq_refl) as [H _]. rewrite Hj in H. done. }
  split; [|split; [simpl; lia|done]].
  split; simpl; unfold chain_count; simpl; try done; try store_same.
  - lia.
  - by rewrite Hp.
  - intros l []%elem_of_nil.
Qed.

Lemma loop_inv_shifted l s s' :
  loop_inv s → chain_count s = 0%nat → pending s = true →
  (∃ q, objs s !! l = Some q ∧ cooldown q <= now s) →
  shifted l s s' → loop_inv s'.
Proof.
  intros Hinv Hc0 Hp (q0 & Hq0 & Hcold) Hsh.
  destruct Hsh as [|q r item rest Hq Hd Hr]; [done|].
  assert (q0 = q) as -> by congruence.
  destruct Hinv as [Hs Hrules Hc Hi Hcool Ht Hl Hsp]. unfold chain_count in *.
  assert (Hj : jobs s = []) by (apply length_zero_iff_nil; lia).
  assert (Hw : 0 <= w).
  { apply window_nonneg. by eapply bound_rule_ok. }
  split; simpl; unfold chain_count; simpl; try done.
  - destruct Hs as [Hk Ho Hf]. split; simpl; [done|..].
    + intros k' l' Hin. destruct (Ho k' l' Hin) as (q1 & Hq1 & Hkey).
      destruct (decide (l' = l)) as [->|Hne].
      * rewrite lookup_insert_eq. eexists. split; [done|]. simpl. congruence.
      * rewrite lookup_insert_ne by done. eauto.
    + intros l' q1. destruct (decide (l' = l)) as [->|Hne].
      * intros _. eauto.
      * rewrite lookup_insert_ne by done. eauto.
  - rewrite Hj, filter_FindT_snoc. simpl. lia.
  - by rewrite Hp.
  - rewrite Hj. intros l' [=]%list_elem_of_singleton.
  - intros due l' c [Hin|[= <- <- <-]%list_elem_of_singleton]%elem_of_app; [eauto|lra].
  - intros t l' it' w' [[= -> -> -> ->]|Hin]%elem_of_cons.
    + rewrite lookup_insert_eq. eexists. split; [done|]. simpl. lra.
    + apply (objs_insert_mono _ _ _ _ (λ c, t + w' <= c)); eauto.
      intros q1 Hq1. assert (q1 = q) as -> by congruence. simpl. lra.
  - split; [|done]. intros t1 it1 w1 Hin.
    destruct (Hl _ _ _ _ Hin) as (q1 & Hq1 & Hle).
    assert (q1 = q) as -> by congruence. lra.
Qed.

Lemma loop_inv_shift l js s s' :
  loop_inv s → jobs s = ShiftK l :: js →
  shift_resume l (set_jobs (λ _, js) s) = Some s' →
  loop_inv s'.
Proof.
  intros Hinv Hj Hs'.
  destruct (loop_inv_pop_job s _ _ Hinv Hj) as (Hinv0 & Hc0 & Hp & ->).
  eapply loop_inv_shifted; [exact Hinv0|done|done| |by apply shift_resume_shifted].
  simpl. apply Hinv. rewrite Hj. left.
Qed.

Lemma loop_inv_observe_call l it r s : loop_inv s → loop_inv (observe (OCall l it r) s).
Proof.
  intros [Hs Hr Hc Hi Hcool Ht Hl Hsp]. unfold chain_count in *.
  split; simpl; unfold chain_count; simpl; try done; try store_same.
  intros t l' it' w [?|Hin]%elem_of_cons; [done|eauto].
Qed.

Lemma loop_inv_heat s : loop_inv s → loop_inv (heat s) ∧ chain_count (heat s) = chain_count s.
Proof.
  intros Hinv. unfold heat. destruct (ignoreOverallOverheat (params s)); [done|].
  destruct Hinv as [Hs Hr Hc Hi Hcool Ht Hl Hsp]. unfold chain_count in *.
  assert (Hcount : length (filter is_FindT (timers s ++ [(now s + heatPart s, HeatT (now s + heatPart s))]))
                   = length (filter is_FindT (timers s))).
  { rewrite filter_FindT_snoc. simpl. lia. }
  split; [|simpl; by rewrite Hcount].
  split; simpl; unfold chain_count; simpl; rewrite ?Hcount; try done; try store_same.
  intros due l c [Hin|[=]%list_elem_of_singleton]%elem_of_app. eauto.
Qed.

Lemma loop_inv_execute_resume l it b js s :
  loop_inv s → jobs s = ExecK l it :: js →
  loop_inv (execute_resume l it b (set_jobs (λ _, js) s)).
Proof.
  intros Hinv Hj.
  destruct (loop_inv_pop_job s _ _ Hinv Hj) as (Hinv0 & Hc0 & Hp & ->).
  unfold execute_resume. destruct (sync_throw b).
  - by apply loop_inv_observe_call.
  - set (s1 := set_running _ _).
    assert (Hinv1 : loop_inv s1 ∧ chain_count s1 = 0%nat).
    { split; [|done]. destruct Hinv0 as [Hs Hr Hc Hi Hcool Ht Hl Hsp]. unfold chain_count in *.
      split; simpl; unfold chain_count; simpl; try done.
      destruct Hs as [Hk Ho Hf]. split; simpl; try done.
      intros l' q' H%Hf. simpl in H. lia. }
    destruct Hinv1 as [Hinv1 Hc1].
    destruct (loop_inv_heat s1 Hinv1) as [Hinv2 Hc2].
    apply loop_inv_execute; [done|]. by rewrite Hc2.
Qed.

Lemma loop_inv_settle r o s : loop_inv s → loop_inv (settle r o s).
Proof.
  intros Hinv. unfold settle.
  destruct o; [destruct (retryState r)|]; try by apply loop_inv_observe_call.
  unfold addRetry.
  destruct Hinv as [Hs Hr Hc Hi Hcool Ht Hl Hsp]. unfold chain_count in *.
  assert (Hcount : ∀ d, length (filter is_FindT (timers s ++ [(d, RetryT (r_queue r) (r_item r))]))
                   = length (filter is_FindT (timers s))).
  { intros d. rewrite filter_FindT_snoc. simpl. lia. }
  split; simpl; unfold chain_count; simpl; rewrite ?Hcount; try done; try store_same.
  intros due l c [Hin|[=]%list_elem_of_singleton]%elem_of_app. eauto.
Qed.

Lemma loop_inv_delete_timer i dt s :
  loop_inv s → timers s !! i = Some dt →
  loop_inv (set_timers (delete i) s) ∧
  chain_count s = ((if is_FindT dt then 1 else 0) + chain_count (set_timers (delete i) s))%nat.
Proof.
  intros [Hs Hr Hc Hi Hcool Ht Hl Hsp] Hdt. unfold chain_count in *.
  pose proof (filter_FindT_delete _ _ _ Hdt) as Hcount.
  split; [|simpl; lia].
  split; simpl; unfold chain_count; simpl; try done; try store_same.
  - lia.
  - intros Hp. destruct (Hi Hp) as [H1 H2]. split; [lia|done].
  - intros due l c Hin%elem_of_delete_timer. eauto.
Qed.

Lemma Math_max_shift (a c t : Q) : c <= t → a <= t + Math_max (a - c) 0.
Proof. intros H. pose proof (Math_max_ge (a - c) 0) as [H1 H2]. lra. Qed.

Lemma loop_inv_fire i due t s :
  loop_inv s → jobs s = [] → timers s !! i = Some (due, t) → due <= now s →
  loop_inv (fire t (set_timers (delete i) s)).
Proof.
  intros Hinv Hj Hdt Hdue.
  destruct (loop_inv_delete_timer i _ s Hinv Hdt) as [Hinv0 Hcount].
  assert (Hin : (due, t) ∈ timers s) by (eapply list_elem_of_lookup_2; eauto).
  destruct t as [l c| |  |l it]; unfold fire.
  - (* setCooldown's callback *)
    simpl. destruct (objs s !! l) as [q|] eqn:Eq; [|done].
    assert (Hc : c <= now s).
    { destruct Hinv as [_ _ _ _ _ Ht _ _]. specialize (Ht _ _ _ Hin). lra. }
    pose proof (Math_max_shift (cooldown q) c (now s) Hc) as Hup.
    destruct Hinv0 as [[Hk Ho Hf] Hr Hcc Hi Hcool Ht Hl Hsp]. unfold chain_count in *. simpl in *.
    assert (Hobjs : ∀ k' l', (k', l') ∈ queue s →
       ∃ q0, <[l:=with_cooldown (now s + Math_max (cooldown q - c) 0) q]> (objs s) !! l' = Some q0
             ∧ key q0 = k').
    { intros k' l' Hin'. destruct (Ho k' l' Hin') as (q1 & Hq1 & Hkey).
      destruct (decide (l' = l)) as [->|Hne].
      * rewrite lookup_insert_eq. eexists. split; [done|]. simpl. congruence.
      * rewrite lookup_insert_ne by done. eauto. }
    assert (Hfr : ∀ l' q', <[l:=with_cooldown (now s + Math_max (cooldown q - c) 0) q]> (objs s) !! l' = Some q'
       → (l' < fresh s)%nat).
    { intros l' q1. destruct (decide (l' = l)) as [->|Hne].
      * intros _. eauto.
      * rewrite lookup_insert_ne by done. eauto. }
    assert (Hlast : ∀ t l' it w, ODispatch t l' it w ∈ history s →
       ∃ q0, <[l:=with_cooldown (now s + Math_max (cooldown q - c) 0) q]> (objs s) !! l' = Some q0
             ∧ t + w <= cooldown q0).
    { intros t l' it w Hd. apply (objs_insert_mono _ _ _ _ (λ c, t + w <= c)); eauto.
      intros q1 Hq1. assert (q1 = q) as -> by congruence. simpl. lra. }
    destruct (Nat.eqb (length (data q)) 0) eqn:El.
    + split; simpl; unfold chain_count; simpl; try done.
      * split; simpl; [by apply Map_delete_NoDup| |done].
        intros k' l' [Hin' _]%Map_delete_elem. eauto.
      * intros Hp. destruct (Hi Hp) as [H1 H2]. split; [done|].
        intros k' l' q' [Hin' Hne]%Map_delete_elem. simpl in Hne.
        destruct (decide (l' = l)) as [->|Hnl].
        -- exfalso. destruct (Ho k' l Hin') as (q1 & Hq1 & Hkey).
           congruence.
        -- rewrite lookup_insert_ne by done. eauto.
      * rewrite Hj. intros l' []%elem_of_nil.
    + split; simpl; unfold chain_count; simpl; try done.
      * intros Hp. destruct (Hi Hp) as [H1 H2]. split; [done|].
        intros k' l' q' Hin'.
        destruct (decide (l' = l)) as [->|Hnl].
        -- exfalso. destruct (H2 k' l q Hin' Eq) as [_ Hd]. by rewrite Hd in El.
        -- rewrite lookup_insert_ne by done. eauto.
      * rewrite Hj. intros l' []%elem_of_nil.
  - (* heat's callback *)
    simpl. eapply loop_inv_eq; [..|exact Hinv0]; done.
  - (* findMostImportant resuming after delay *)
    simpl in Hcount.
    assert (Hc1 : chain_count s = 1%nat).
    { destruct Hinv as [_ _ Hc _ _ _ _ _]. lia. }
    apply loop_inv_find; [exact Hinv0|lia|]. simpl.
    destruct (pending s) eqn:Ep; [done|]. destruct Hinv as [_ _ _ Hi _ _ _ _].
    destruct (Hi Ep) as [H _]. lia.
  - (* addRetry resuming after delay *)
    simpl. destruct (objs s !! l) as [q|]; [|done]. by apply loop_inv_add.
Qed.

Lemma loop_inv_step ev s s' : loop_inv s → step ev s = Some s' → loop_inv s'.
Proof.
  intros Hinv. destruct ev as [fn cb k rn| |b|e delay|e o|i|t]; simpl.
  - intros [= <-]. by apply loop_inv_add.
  - intros [= <-]. destruct Hinv as [[Hk Ho Hf] Hr Hc Hi Hcool Ht Hl Hsp]. unfold chain_count in *.
    split; simpl; unfold chain_count; simpl; try done.
    + split; simpl; [apply NoDup_nil_2| |done]. intros k l []%elem_of_nil.
    + intros Hp. destruct (Hi Hp) as [H _]. split; [done|]. intros k l q []%elem_of_nil.
  - destruct (jobs s) as [|[l|l it] js] eqn:Ej; [done|..].
    + by apply loop_inv_shift.
    + intros [= <-]. by apply loop_inv_execute_resume.
  - destruct (running s !! e) as [r|]; simpl; [|done]. intros [= <-].
    eapply loop_inv_eq; [..|exact Hinv]; done.
  - destruct (running s !! e) as [r|]; simpl; [|done]. intros [= <-].
    apply loop_inv_settle. eapply loop_inv_eq; [..|exact Hinv]; done.
  - destruct (jobs s) eqn:Ej; [|done].
    destruct (timers s !! i) as [[due t]|] eqn:Et; [|done].
    destruct (Qle_bool due (now s)) eqn:Ed; [|done]. intros [= <-].
    apply Qle_bool_iff in Ed. by eapply loop_inv_fire.
  - destruct (Qle_bool (now s) t) eqn:Ed; [|done]. intros [= <-].
    apply Qle_bool_iff in Ed.
    destruct Hinv as [Hs Hr Hc Hi Hcool Ht Hl Hsp]. unfold chain_count in *.
    split; simpl; unfold chain_count; simpl; try done; try store_same.
    + intros Hp. destruct (Hi Hp) as [H1 H2]. split; [done|].
      intros k l q Hin Hq. destruct (H2 k l q Hin Hq). split; [lra|done].
    + intros l Hin. destruct (Hcool l Hin) as (q & Hq & Hle). exists q. split; [done|lra].
Qed.

Lemma loop_inv_run evs s s' : loop_inv s → run evs s = Some s' → loop_inv s'.
Proof.
  revert s. induction evs as [|ev evs IH]; simpl; intros s Hinv.
  - by intros [= <-].
  - destruct (step ev s) as [s1|] eqn:E; simpl; [|done].
    apply IH. by eapply loop_inv_step.
Qed.

Lemma loop_inv_constructor p ro t :
  (∀ i r, ro !! i = Some r → rule_ok r) → loop_inv (constructor p ro t).
Proof.
  intros Hro. split; simpl; try done.
  - split; simpl; [apply NoDup_nil_2|intros k l []%elem_of_nil|done].
  - unfold chain_count. simpl. lia.
  - intros l []%elem_of_nil.
  - intros due l c []%elem_of_nil.
  - intros t0 l it w []%elem_of_nil.
Qed.

(** ** What a step adds to the history *)

Lemma findMostImportant_history o s : history (findMostImportant o s) = history s.
Proof.
  destruct o as [l|]; [done|].
  by destruct (findMostImportant_selection s).
Qed.

Lemma heat_history s : history (heat s) = history s.
Proof. unfold heat. by destruct (ignoreOverallOverheat (params s)). Qed.

Lemma add_history request callback k rn s :
  ∃ l it, history (add request callback k rn s) = OEnqueue l it :: history s.
Proof.
  unfold add.
  pose proof (createQueue_created k request callback rn s) as Hcr.
  destruct (createQueue k request callback rn s) as [l s1]. simpl in Hcr.
  assert (∃ it, history s1 = OEnqueue l it :: history s) as [it Hh].
  { destruct Hcr as [l q Hget Hq|Hnone]; simpl; [eauto|].
    destruct (getRule_frame rn s) as (_ & _ & _ & _ & _ & _ & _ & -> & _). eauto. }
  exists l, it. destruct (pending s1); [done|].
  unfold execute. by rewrite findMostImportant_history.
Qed.

Lemma step_step_effect ev s s' : step ev s = Some s' → step_effect ev s s'.
Proof.
  destruct ev as [fn cb k rn| |b|e delay|e o|i|t]; simpl.
  - intros [= <-]. destruct (add_history fn cb (default (default_key (params s)) k)
      (default (default_rule (params s)) rn) s) as (l & it & H).
    by eapply effect_push.
  - intros [= <-]. by apply effect_none.
  - destruct (jobs s) as [|[l|l it] js] eqn:Ej; [done|..].
    + intros Hsh.
      destruct (shift_resume_shifted l (set_jobs (λ _, js) s) _ Hsh)
        as [|q r item rest Hq Hd Hr].
      * by apply effect_none.
      * eapply (effect_pop _ _ _ b l js q r item rest); try done.
        simpl. by rewrite lookup_insert_eq.
    + intros [= <-]. unfold execute_resume. destruct (sync_throw b).
      * by eapply effect_call.
      * apply effect_none. unfold execute. rewrite findMostImportant_history. simpl.
        by rewrite heat_history.
  - destruct (running s !! e) as [r|]; simpl; [|done]. intros [= <-]. by apply effect_none.
  - destruct (running s !! e) as [r|]; simpl; [|done]. intros [= <-].
    unfold settle. destruct o; [destruct (retryState r)|].
    + by apply effect_none.
    + by eapply effect_call.
    + by eapply effect_call.
  - destruct (jobs s) eqn:Ej; [|done].
    destruct (timers s !! i) as [[due t]|] eqn:Et; [|done].
    destruct (Qle_bool due (now s)) eqn:Ed; [|done]. intros [= <-].
    destruct t as [l c| |  |l it]; unfold fire.
    + simpl. destruct (objs s !! l) as [q|]; [|by apply effect_none].
      destruct (Nat.eqb _ _); by apply effect_none.
    + by apply effect_none.
    + apply effect_none. by rewrite findMostImportant_history.
    + simpl. destruct (objs s !! l) as [q|]; [|by apply effect_none].
      destruct (add_history (item_request it) (item_callback it) (key q) (ruleName q)
                  (set_timers (delete i) s)) as (l' & it' & H).
      by eapply effect_push.
  - destruct (Qle_bool (now s) t); [|done]. intros [= <-]. by apply effect_none.
Qed.

Lemma history_grows_by_dispatch ev s s' t l it w :
  step ev s = Some s' → history s' = ODispatch t l it w :: history s →
  ∃ b js q r rest,
    ev = ERunJob b ∧ jobs s = ShiftK l :: js ∧
    objs s !! l = Some q ∧ data q = it :: rest ∧
    rules_get (ruleName q) s ≫= (rule_objs s !!.) = Some r ∧
    t = now s ∧ w = limit r * 1000 / rate r ∧
    objs s' !! l = Some (with_data rest (with_cooldown (now s + w) q)).
Proof.
  intros Hstep Hh. destruct (step_step_effect _ _ _ Hstep) as [H|l0 it0 H|l0 it0 r0 H|
    b l0 js q r item rest -> Hj Hq Hd Hr H Ho]; rewrite H in Hh.
  - apply (f_equal length) in Hh. simpl in Hh. lia.
  - done.
  - done.
  - injection Hh as <- <- <- <-. exists b, js, q, r, rest. done.
Qed.

(** ** Histories and the FIFO of a partition *)

Lemma hist_inv_eq s s' :
  history s' = history s → objs s' = objs s → (fresh s <= fresh s')%nat →
  running s' = running s → (∀ l it, ExecK l it ∈ jobs s' → ExecK l it ∈ jobs s) →
  hist_inv s → hist_inv s'.
Proof.
  intros Eh Eo Ef Er Ej [Hf Hfifo Hids Hnd Hcalls Hjobs Hrun].
  split; unfold data_of in *; rewrite ?Eh, ?Eo, ?Er; try done.
  - intros l q H%Hf. lia.
  - intros i H%Hids. lia.
  - intros l it H%Ej. eauto.
Qed.

Lemma findMostImportant_frame o s :
  objs (findMostImportant o s) = objs s ∧ fresh (findMostImportant o s) = fresh s ∧
  running (findMostImportant o s) = running s ∧ queue (findMostImportant o s) = queue s ∧
  params (findMostImportant o s) = params s ∧ rule_objs (findMostImportant o s) = rule_objs s ∧
  now (findMostImportant o s) = now s ∧ overheat (findMostImportant o s) = overheat s ∧
  ∀ l it, ExecK l it ∈ jobs (findMostImportant o s) → ExecK l it ∈ jobs s.
Proof.
  destruct o as [l|].
  - simpl. split_and!; try done. intros l' it [H|[=]%list_elem_of_singleton]%elem_of_app. done.
  - destruct (findMostImportant_selection s); simpl; split_and!; try done.
    intros l' it [Hin|[=]%list_elem_of_singleton]%elem_of_app. done.
Qed.

Lemma hist_inv_find o s : hist_inv s → hist_inv (findMostImportant o s).
Proof.
  intros H. destruct (findMostImportant_frame o s) as (Eo & Ef & Er & _ & _ & _ & _ & _ & Ej).
  eapply hist_inv_eq; [apply findMostImportant_history|done|lia|done|done|done].
Qed.

Lemma hist_inv_add request callback k rn s :
  hist_inv s → hist_inv (add request callback k rn s).
Proof.
  intros Hinv. unfold add.
  pose proof (createQueue_created k request callback rn s) as Hcr.
  destruct (createQueue k request callback rn s) as [l s1]. simpl in Hcr.
  assert (Hinv1 : hist_inv s1).
  { destruct Hinv as [Hf Hfifo Hids Hnd Hcalls Hjobs Hrun].
    destruct Hcr as [l q Hget Hq|Hnone].
    - split; simpl.
      + intros l' q'. destruct (decide (l' = l)) as [->|Hne].
        * intros _. apply Hf in Hq. lia.
        * rewrite lookup_insert_ne by done. intros H%Hf. lia.
      + intros l'. unfold data_of. simpl. destruct (decide (l = l')) as [<-|Hne].
        * rewrite lookup_insert_eq. simpl. rewrite Hfifo. unfold data_of. rewrite Hq.
          by rewrite app_assoc.
        * rewrite lookup_insert_ne by done. apply Hfifo.
      + intros i [->|H%Hids]%elem_of_cons; simpl; lia.
      + apply NoDup_cons. split; [|done]. intros H%Hids. simpl in H. lia.
      + intros l' it' r [[=]|H]%elem_of_cons. eauto.
      + done.
      + done.
    - destruct (getRule_frame rn s) as (Eq & Eo & Ef & Ep & En & Ej & Et & Eh & Er & Erun & _).
      assert (Hfree : objs s !! fresh s = None).
      { destruct (objs s !! fresh s) eqn:E; [|done]. apply Hf in E. lia. }
      split; simpl; rewrite ?Eq, ?Eo, ?Ef, ?Ep, ?En, ?Ej, ?Et, ?Eh, ?Er, ?Erun.
      + intros l' q'. destruct (decide (l' = fresh s)) as [->|Hne].
        * intros _. lia.
        * rewrite lookup_insert_ne by done. intros H%Hf. lia.
      + intros l'. unfold data_of. simpl. rewrite Eo. destruct (decide (l = l')) as [<-|Hne].
        * rewrite lookup_insert_eq. simpl. rewrite Hfifo. unfold data_of, l. rewrite Hfree.
          by rewrite app_nil_r.
        * rewrite lookup_insert_ne by done. apply Hfifo.
      + intros i [->|H%Hids]%elem_of_cons; simpl; unfold l; lia.
      + apply NoDup_cons. split; [|done]. intros H%Hids. simpl in H. unfold l in H. lia.
      + intros l' it' r [[=]|H]%elem_of_cons. eauto.
      + done.
      + done. }
  destruct (pending s1); [done|]. unfold execute. apply hist_inv_find.
  eapply hist_inv_eq; [..|exact Hinv1]; done.
Qed.

Lemma popped_mono l it o h : it ∈ popped l h → it ∈ popped l (o :: h).
Proof.
  destruct o; simpl; try done. destruct (decide _); [|done].
  intros H. apply elem_of_app. by left.
Qed.

Lemma hist_inv_heat s : hist_inv s → hist_inv (heat s).
Proof.
  intros H. unfold heat. destruct (ignoreOverallOverheat (params s)); [done|].
  eapply hist_inv_eq; [..|exact H]; done.
Qed.

Lemma hist_inv_shifted l s s' : hist_inv s → shifted l s s' → hist_inv s'.
Proof.
  intros Hinv Hsh. destruct Hsh as [|q r item rest Hq Hd Hr]; [done|].
  destruct Hinv as [Hf Hfifo Hids Hnd Hcalls Hjobs Hrun].
  split; simpl.
  - intros l' q1. destruct (decide (l' = l)) as [->|Hne].
    + intros _. eauto.
    + rewrite lookup_insert_ne by done. eauto.
  - intros l'. unfold data_of. simpl. destruct (decide (l = l')) as [<-|Hne].
    + rewrite lookup_insert_eq. simpl. rewrite Hfifo. unfold data_of. rewrite Hq, Hd.
      by rewrite <- app_assoc.
    + rewrite lookup_insert_ne by done. apply Hfifo.
  - done.
  - done.
  - intros l' it' r0 [[=]|H]%elem_of_cons.
    apply (popped_mono l' it' (ODispatch (now s) l item w)). eauto.
  - intros l' it' [H|[= -> ->]%list_elem_of_singleton]%elem_of_app.
    + apply (popped_mono l' it' (ODispatch (now s) l item w)). eauto.
    + rewrite decide_True by done. apply elem_of_app. right. by apply list_elem_of_singleton.
  - intros e r0 H. apply (popped_mono _ _ (ODispatch (now s) l item w)). eauto.
Qed.

Lemma hist_inv_pop_job j js s :
  hist_inv s → jobs s = j :: js → hist_inv (set_jobs (λ _, js) s).
Proof.
  intros H Hj. eapply hist_inv_eq; [..|exact H]; try done.
  simpl. intros l it Hin. rewrite Hj. by right.
Qed.

Lemma hist_inv_call l it r s :
  hist_inv s → it ∈ popped l (history s) → hist_inv (observe (OCall l it r) s).
Proof.
  intros [Hf Hfifo Hids Hnd Hcalls Hjobs Hrun] Hin. split; simpl; try done.
  intros l' it' r' [[= -> -> ->]|H]%elem_of_cons; eauto.
Qed.

Lemma hist_inv_execute_resume l it b js s :
  hist_inv s → jobs s = ExecK l it :: js →
  hist_inv (execute_resume l it b (set_jobs (λ _, js) s)).
Proof.
  intros Hinv Hj.
  assert (Hpop : it ∈ popped l (history s)).
  { apply Hinv. rewrite Hj. left. }
  pose proof (hist_inv_pop_job _ _ _ Hinv Hj) as Hinv0.
  unfold execute_resume. destruct (sync_throw b).
  - by apply hist_inv_call.
  - unfold execute. apply hist_inv_find.
    eapply (hist_inv_eq (heat _)); [done..|]. apply hist_inv_heat.
    destruct Hinv0 as [Hf Hfifo Hids Hnd Hcalls Hjobs Hrun]. simpl in *.
    split; simpl; try done.
    + intros l' q' H%Hf. lia.
    + intros i H%Hids. lia.
    + intros e r. destruct (decide (e = fresh s)) as [->|Hne].
      * rewrite lookup_insert_eq. by intros [= <-].
      * rewrite lookup_insert_ne by done. eauto.
Qed.

Lemma hist_inv_settle e r o s :
  hist_inv s → running s !! e = Some r →
  hist_inv (settle r o (set_running (delete e) s)).
Proof.
  intros Hinv He.
  assert (Hpop : r_item r ∈ popped (r_queue r) (history s)) by (eapply hi_running; eauto).
  assert (Hinv0 : hist_inv (set_running (delete e) s)).
  { destruct Hinv as [Hf Hfifo Hids Hnd Hcalls Hjobs Hrun]. split; simpl; try done.
    intros e' r'. intros [_ H]%lookup_delete_Some. eauto. }
  unfold settle. destruct o; [destruct (retryState r)|]; try by apply hist_inv_call.
  unfold addRetry. eapply hist_inv_eq; [..|exact Hinv0]; done.
Qed.

Lemma hist_inv_fire t s : hist_inv s → hist_inv (fire t s).
Proof.
  intros Hinv. destruct t as [l c| |  |l it]; unfold fire.
  - destruct (objs s !! l) as [q|] eqn:Eq; [|done].
    assert (H1 : hist_inv (set_objs
       <[l:=with_cooldown (now s + Math_max (cooldown q - c) 0) q]> s)).
    { destruct Hinv as [Hf Hfifo Hids Hnd Hcalls Hjobs Hrun]. split; simpl; try done.
      - intros l' q1. destruct (decide (l' = l)) as [->|Hne].
        + intros _. eauto.
        + rewrite lookup_insert_ne by done. eauto.
      - intros l'. rewrite Hfifo. f_equal. unfold data_of. simpl.
        destruct (decide (l = l')) as [<-|Hne].
        + by rewrite lookup_insert_eq, Eq.
        + by rewrite lookup_insert_ne. }
    destruct (Nat.eqb _ _); [|done].
    eapply hist_inv_eq; [..|exact H1]; done.
  - eapply hist_inv_eq; [..|exact Hinv]; done.
  - by apply hist_inv_find.
  - destruct (objs s !! l) as [q|]; [|done]. by apply hist_inv_add.
Qed.

Lemma hist_inv_step ev s s' : hist_inv s → step ev s = Some s' → hist_inv s'.
Proof.
  intros Hinv. destruct ev as [fn cb k rn| |b|e delay|e o|i|t]; simpl.
  - intros [= <-]. by apply hist_inv_add.
  - intros [= <-]. eapply hist_inv_eq; [..|exact Hinv]; done.
  - destruct (jobs s) as [|[l|l it] js] eqn:Ej; [done|..].
    + intros Hsh. eapply hist_inv_shifted; [|by apply shift_resume_shifted].
      by eapply hist_inv_pop_job.
    + intros [= <-]. by apply hist_inv_execute_resume.
  - destruct (running s !! e) as [r|] eqn:Er; simpl; [|done]. intros [= <-].
    destruct Hinv as [Hf Hfifo Hids Hnd Hcalls Hjobs Hrun]. split; simpl; try done.
    intros e' r'. destruct (decide (e' = e)) as [->|Hne].
    + rewrite lookup_insert_eq. intros [= <-]. simpl. eauto.
    + rewrite lookup_insert_ne by done. eauto.
  - destruct (running s !! e) as [r|] eqn:Er; simpl; [|done]. intros [= <-].
    by apply hist_inv_settle.
  - destruct (jobs s) eqn:Ej; [|done].
    destruct (timers s !! i) as [[due t]|] eqn:Et; [|done].
    destruct (Qle_bool due (now s)) eqn:Ed; [|done]. intros [= <-].
    apply hist_inv_fire. eapply hist_inv_eq; [..|exact Hinv]; done.
  - destruct (Qle_bool (now s) t); [|done]. intros [= <-].
    eapply hist_inv_eq; [..|exact Hinv]; done.
Qed.

Lemma hist_inv_run evs s s' : hist_inv s → run evs s = Some s' → hist_inv s'.
Proof.
  revert s. induction evs as [|ev evs IH]; simpl; intros s Hinv.
  - by intros [= <-].
  - destruct (step ev s) as [s1|] eqn:E; simpl; [|done].
    apply IH. by eapply hist_inv_step.
Qed.

Lemma hist_inv_constructor p ro t : hist_inv (constructor p ro t).
Proof.
  split; simpl; try done.
  - intros i []%elem_of_nil.
  - apply NoDup_nil_2.
  - intros l it r []%elem_of_nil.
  - intros l it []%elem_of_nil.
Qed.

Lemma enqueued_pushed l it h : it ∈ enqueued l h → item_id it ∈ pushed_ids h.
Proof.
  induction h as [|o h IH]; simpl; [by intros ?%elem_of_nil|].
  destruct o as [l' it'| |]; simpl; try done.
  destruct (decide (l' = l)).
  - intros [H| ->%list_elem_of_singleton]%elem_of_app; [right; auto|left].
  - intros H. right. auto.
Qed.

Lemma enqueued_NoDup l h : NoDup (pushed_ids h) → NoDup (enqueued l h).
Proof.
  induction h as [|o h IH]; simpl; [intros _; apply NoDup_nil_2|].
  destruct o as [l' it'| |]; simpl; try done.
  intros [Hn Hd]%NoDup_cons. destruct (decide (l' = l)); [|auto].
  apply NoDup_app. split; [auto|]. split; [|apply NoDup_singleton].
  intros x Hx ->%list_elem_of_singleton. by apply enqueued_pushed in Hx.
Qed.


(** ** Partitions that left the store *)

Lemma untouched_eq l s s1 s' :
  popped l (history s') = popped l (history s1) → objs s' = objs s1 →
  (fresh s1 <= fresh s')%nat →
  (∀ k, (k, l) ∈ queue s' → (k, l) ∈ queue s1) →
  (ShiftK l ∈ jobs s' → ShiftK l ∈ jobs s1) →
  untouched l s s1 → untouched l s s'.
Proof.
  intros Eh Eo Ef Eq Ej ([Hf Hq] & Hd & Hp & Hj).
  split_and!; unfold data_of in *; rewrite ?Eh, ?Eo; try done.
  - split; [lia|]. intros k Hin. by apply (Hq k), Eq.
  - intros H. auto.
Qed.

Lemma untouched_refl l s : detached l s → untouched l s s.
Proof. intros H. by split_and!. Qed.

Lemma untouched_trans l s s1 s2 : untouched l s s1 → untouched l s1 s2 → untouched l s s2.
Proof.
  intros (H1 & Hd1 & Hp1 & Hj1) (H2 & Hd2 & Hp2 & Hj2).
  split_and!; [done|congruence|congruence|auto].
Qed.

Lemma untouched_created l k request callback rn s l' s1 :
  store_wf s → detached l s → created k request callback rn s l' s1 →
  untouched l s s1 ∧ l' ≠ l.
Proof.
  intros [Hk Ho Hf] [Hl Hq] Hcr. destruct Hcr as [l' q Hget Hq'|Hnone].
  - assert (Hne : l' ≠ l).
    { intros ->. apply Map_get_Some in Hget. by apply (Hq k). }
    split; [|done].
    split_and!; simpl; try done.
    + split; simpl; [lia|]. rewrite (Map_set_present _ _ _ Hget). done.
    + unfold data_of. simpl. by rewrite lookup_insert_ne.
  - destruct (getRule_frame rn s) as (Eq & Eo & Ef & Ep & En & Ej & Et & Eh & Er & Erun & _).
    assert (Hget : Map_get k (queue s) = None).
    { destruct (Map_get k (queue s)) as [lx|] eqn:Eg; [|done]. exfalso.
      apply Map_get_Some in Eg. destruct (Ho _ _ Eg) as (qx & Hqx & _).
      simpl in Hnone. rewrite Hqx in Hnone. done. }
    assert (Hne : l0 ≠ l) by (unfold l0; lia).
    split; [|done]. split_and!; simpl; rewrite ?Eq, ?Eo, ?Ef, ?Ej, ?Eh; try done.
    + split; simpl; rewrite ?Eq, ?Ef; [unfold l0; lia|].
      rewrite (Map_set_absent _ _ _ Hget).
      intros k' [Hin|[= _ ?]%list_elem_of_singleton]%elem_of_app; [by apply (Hq k')|done].
    + unfold data_of. simpl. by rewrite lookup_insert_ne, Eo.
Qed.

Lemma untouched_find l o s :
  detached l s → (∀ l', o = Some l' → l' ≠ l) →
  untouched l s (findMostImportant o s).
Proof.
  intros Hd Ho. destruct o as [l'|].
  - simpl. eapply untouched_eq; [..|by apply untouched_refl]; try done.
    simpl. intros [H|[= E]%list_elem_of_singleton]%elem_of_app; [done|].
    symmetry in E. by destruct (Ho l' eq_refl).
  - destruct (findMostImportant_selection s) as [|d|Hdrain|l' i p Hfirst];
      try (eapply untouched_eq; [..|by apply untouched_refl]; done).
    eapply untouched_eq; [..|by apply untouched_refl]; try done.
    simpl. intros [H|[= <-]%list_elem_of_singleton]%elem_of_app; [done|].
    destruct Hfirst as ((k & Hi) & _). exfalso. destruct Hd as [_ Hq].
    apply (Hq k). eapply list_elem_of_lookup_2; eauto.
Qed.

Lemma untouched_add l request callback k rn s :
  store_wf s → detached l s → untouched l s (add request callback k rn s).
Proof.
  intros Hs Hd. unfold add.
  pose proof (createQueue_created k request callback rn s) as Hcr.
  destruct (createQueue k request callback rn s) as [l' s1]. simpl in Hcr.
  destruct (untouched_created _ _ _ _ _ _ _ _ Hs Hd Hcr) as [H1 Hne].
  destruct (pending s1); [done|]. unfold execute.
  assert (H2 : untouched l s (set_pending true s1)).
  { eapply untouched_eq; [..|exact H1]; done. }
  eapply untouched_trans; [exact H2|].
  apply untouched_find.
  - destruct H2 as (H2 & _). done.
  - by intros ? [= <-].
Qed.

Lemma untouched_heat l s : detached l s → untouched l s (heat s).
Proof.
  intros Hd. unfold heat. destruct (ignoreOverallOverheat (params s)).
  - by apply untouched_refl.
  - eapply untouched_eq; [..|by apply untouched_refl]; done.
Qed.

(** A step either leaves the detached partition [l] alone or is the
    resumed [shift] that holds it and pops its head. *)
Lemma step_detached l ev s s' :
  store_wf s → detached l s → step ev s = Some s' →
  untouched l s s' ∨
  ∃ b js it, ev = ERunJob b ∧ jobs s = ShiftK l :: js ∧
             detached l s' ∧ data_of s l = it :: data_of s' l ∧
             popped l (history s') = popped l (history s) ++ [it] ∧
             (ShiftK l ∈ jobs s' → ShiftK l ∈ js).
Proof.
  intros Hs Hd. destruct ev as [fn cb k rn| |b|e delay|e o|i|t]; simpl.
  - intros [= <-]. left. by apply untouched_add.
  - intros [= <-]. left. eapply untouched_eq; [..|by apply untouched_refl]; try done.
    simpl. by intros k ?%elem_of_nil.
  - destruct (jobs s) as [|[l'|l' it] js] eqn:Ej; [done|..].
    + intros Hsh. destruct (shift_resume_shifted l' (set_jobs (λ _, js) s) _ Hsh) as [|q r item rest Hq Hdt Hr].
      * left. eapply untouched_eq; [..|by apply untouched_refl]; try done.
        simpl. intros H. rewrite Ej. by right.
      * simpl in *. destruct (decide (l' = l)) as [->|Hne].
        -- right. exists b, js, item. split_and!; try done.
           ++ unfold data_of. simpl. by rewrite Hq, lookup_insert_eq.
           ++ simpl. intros [H|[=]%list_elem_of_singleton]%elem_of_app. done.
        -- left. split_and!; try done.
           ++ unfold data_of. simpl. by rewrite lookup_insert_ne.
           ++ simpl. by rewrite decide_False.
           ++ simpl. intros [H|[=]%list_elem_of_singleton]%elem_of_app.
              rewrite Ej. by right.
    + intros [= <-]. left. unfold execute_resume.
      assert (H0 : untouched l s (set_jobs (λ _, js) s)).
      { eapply untouched_eq; [..|by apply untouched_refl]; try done.
        simpl. intros H. rewrite Ej. by right. }
      destruct (sync_throw b).
      * eapply untouched_eq; [..|exact H0]; done.
      * unfold execute. set (s1 := set_running _ _).
        assert (H1 : untouched l s s1) by (eapply untouched_eq; [..|exact H0]; simpl; try done; lia).
        assert (H2 : untouched l s (heat s1)).
        { eapply untouched_trans; [exact H1|]. apply untouched_heat. by destruct H1. }
        assert (H3 : untouched l s (set_pending true (heat s1))).
        { eapply untouched_eq; [..|exact H2]; done. }
        eapply untouched_trans; [exact H3|]. apply untouched_find; [by destruct H3|done].
  - destruct (running s !! e) as [r|]; simpl; [|done]. intros [= <-]. left.
    eapply untouched_eq; [..|by apply untouched_refl]; done.
  - destruct (running s !! e) as [r|]; simpl; [|done]. intros [= <-]. left.
    unfold settle, addRetry. destruct o; [destruct (retryState r)|];
      eapply untouched_eq; [..|by apply untouched_refl]; done.
  - destruct (jobs s) eqn:Ej; [|done].
    destruct (timers s !! i) as [[due t]|] eqn:Et; [|done].
    destruct (Qle_bool due (now s)) eqn:Ed; [|done]. intros [= <-]. left.
    assert (H0 : untouched l s (set_timers (delete i) s)).
    { eapply untouched_eq; [..|by apply untouched_refl]; done. }
    assert (Hs0 : store_wf (set_timers (delete i) s)) by store_same.
    destruct t as [l' c| |  |l' it]; unfold fire.
    + simpl. destruct (objs s !! l') as [q|] eqn:Eq; [|done].
      assert (H1 : untouched l s (set_objs
        <[l':=with_cooldown (now s + Math_max (cooldown q - c) 0) q]> (set_timers (delete i) s))).
      { destruct H0 as (H0 & Hdt & Hp & Hj). split_and!; try done.
        rewrite <- Hdt. unfold data_of. simpl. destruct (decide (l' = l)) as [->|Hne].
        - by rewrite lookup_insert_eq, Eq.
        - by rewrite lookup_insert_ne. }
      destruct (Nat.eqb _ _); [|done].
      eapply untouched_eq; [..|exact H1]; try done.
      simpl. by intros k [H _]%Map_delete_elem.
    + eapply untouched_eq; [..|exact H0]; done.
    + eapply untouched_trans; [exact H0|]. apply untouched_find; [by destruct H0|done].
    + simpl. destruct (objs s !! l') as [q|]; [|done].
      eapply untouched_trans; [exact H0|]. apply untouched_add; [done|by destruct H0].
  - destruct (Qle_bool (now s) t); [|done]. intros [= <-]. left.
    eapply untouched_eq; [..|by apply untouched_refl]; done.
Qed.

Lemma popped_dispatch t l it w h : ODispatch t l it w ∈ h → it ∈ popped l h.
Proof.
  induction h as [|o h IH]; [by intros ?%elem_of_nil|].
  intros [<-|H]%elem_of_cons.
  - simpl. rewrite decide_True by done. apply elem_of_app. right. by apply list_elem_of_singleton.
  - apply popped_mono. auto.
Qed.

Lemma enqueued_partition l l' it h :
  NoDup (pushed_ids h) → it ∈ enqueued l h → it ∈ enqueued l' h → l = l'.
Proof.
  induction h as [|o h IH]; simpl; [by intros _ ?%elem_of_nil|].
  destruct o as [l0 it0| |]; simpl; try done.
  intros [Hn Hd]%NoDup_cons.
  assert (Hfresh : ∀ l1, it0 ∉ enqueued l1 h).
  { intros l1 H. by apply enqueued_pushed in H. }
  destruct (decide (l0 = l)) as [E1|E1], (decide (l0 = l')) as [E2|E2].
  - congruence.
  - intros [H| ->%list_elem_of_singleton]%elem_of_app H'; [eauto|]. by destruct (Hfresh l').
  - intros H [H'| ->%list_elem_of_singleton]%elem_of_app; [eauto|]. by destruct (Hfresh l).
  - auto.
Qed.

Lemma since_clear_step l s s2 ev s2' :
  loop_inv s2 → since_clear l s s2 → step ev s2 = Some s2' → since_clear l s s2'.
Proof.
  intros Hinv [Hd Hcases] Hstep.
  destruct (step_detached l ev s2 s2' (li_store _ Hinv) Hd Hstep)
    as [(Hd' & Hdt & Hp & Hj)|(b & js & it & -> & Hjobs & Hd' & Hdt & Hp & Hj)].
  - split; [done|]. destruct Hcases as [(H1 & H2 & H3)|(H1 & H2 & it & H3 & H4)].
    + left. split_and!; [congruence|congruence|auto].
    + right. split_and!; [done|auto|]. exists it. split; congruence.
  - destruct (loop_inv_pop_job _ _ _ Hinv Hjobs) as (_ & _ & _ & ->).
    split; [done|]. destruct Hcases as [(H1 & H2 & H3)|(H1 & H2 & _)].
    + right. split_and!.
      * apply H3. rewrite Hjobs. left.
      * intros H. apply Hj in H. by apply elem_of_nil in H.
      * exists it. split; congruence.
    + exfalso. apply H2. rewrite Hjobs. left.
Qed.

Lemma since_clear_run l s evs s1 s2 :
  loop_inv s1 → since_clear l s s1 → run evs s1 = Some s2 → since_clear l s s2.
Proof.
  revert s1. induction evs as [|ev evs IH]; simpl; intros s1 Hinv Hsc.
  - by intros [= <-].
  - destruct (step ev s1) as [s1'|] eqn:E; simpl; [|done].
    apply IH; [by eapply loop_inv_step|by eapply since_clear_step].
Qed.

(** ** The rule registry only grows *)

Lemma rules_kept_eq s s' : params s' = params s → rule_objs s' = rule_objs s → rules_kept s s'.
Proof. intros Ep Er. unfold rules_kept, rules_get. by rewrite Ep, Er. Qed.

Lemma rules_kept_trans s s1 s2 : rules_kept s s1 → rules_kept s1 s2 → rules_kept s s2.
Proof.
  intros (H1 & H2 & H3) (H1' & H2' & H3'). split_and!; [congruence|congruence|auto].
Qed.

Lemma rules_kept_getRule name s : rules_kept s (getRule name s).2.
Proof.
  unfold getRule. destruct (rules_get name s) as [r|] eqn:E; simpl.
  - by apply rules_kept_eq.
  - split_and!; try done. intros n r Hn. unfold rules_get in *. simpl.
    destruct (decide (n = name)) as [->|Hne]; [congruence|].
    by rewrite lookup_insert_ne.
Qed.

Lemma rules_kept_add request callback k rn s : rules_kept s (add request callback k rn s).
Proof.
  unfold add.
  pose proof (createQueue_created k request callback rn s) as Hcr.
  destruct (createQueue k request callback rn s) as [l s1]. simpl in Hcr.
  assert (H1 : rules_kept s s1).
  { destruct Hcr as [l q Hget Hq|Hnone].
    - by apply rules_kept_eq.
    - eapply rules_kept_trans; [apply rules_kept_getRule|]. by apply rules_kept_eq. }
  destruct (pending s1); [done|]. unfold execute.
  eapply rules_kept_trans; [exact H1|].
  destruct (findMostImportant_frame (Some l) (set_pending true s1)) as (_ & _ & _ & _ & Ep & Er & _).
  by apply rules_kept_eq.
Qed.

Lemma heat_frame s :
  params (heat s) = params s ∧ rule_objs (heat s) = rule_objs s ∧
  objs (heat s) = objs s ∧ queue (heat s) = queue s ∧ now (heat s) = now s.
Proof. unfold heat. by destruct (ignoreOverallOverheat (params s)). Qed.

Lemma rules_kept_step ev s s' : step ev s = Some s' → rules_kept s s'.
Proof.
  destruct ev as [fn cb k rn| |b|e delay|e o|i|t]; simpl.
  - intros [= <-]. apply rules_kept_add.
  - intros [= <-]. by apply rules_kept_eq.
  - destruct (jobs s) as [|[l|l it] js] eqn:Ej; [done|..].
    + intros Hsh. destruct (shift_resume_shifted l (set_jobs (λ _, js) s) _ Hsh); by apply rules_kept_eq.
    + intros [= <-]. unfold execute_resume. destruct (sync_throw b); [by apply rules_kept_eq|].
      unfold execute. set (s1 := set_running _ _).
      destruct (findMostImportant_frame None (set_pending true (heat s1)))
        as (_ & _ & _ & _ & Ep & Er & _).
      destruct (heat_frame s1) as (Ep' & Er' & _).
      apply rules_kept_eq; [rewrite Ep|rewrite Er]; simpl; rewrite ?Ep', ?Er'; done.
  - destruct (running s !! e) as [r|]; simpl; [|done]. intros [= <-]. by apply rules_kept_eq.
  - destruct (running s !! e) as [r|]; simpl; [|done]. intros [= <-].
    unfold settle, addRetry. destruct o; [destruct (retryState r)|]; by apply rules_kept_eq.
  - destruct (jobs s) eqn:Ej; [|done].
    destruct (timers s !! i) as [[due t]|] eqn:Et; [|done].
    destruct (Qle_bool due (now s)) eqn:Ed; [|done]. intros [= <-].
    destruct t as [l c| |  |l it]; unfold fire.
    + simpl. destruct (objs s !! l) as [q|]; [|by apply rules_kept_eq].
      destruct (Nat.eqb _ _); by apply rules_kept_eq.
    + by apply rules_kept_eq.
    + destruct (findMostImportant_frame None (set_timers (delete i) s))
        as (_ & _ & _ & _ & Ep & Er & _).
      by apply rules_kept_eq.
    + simpl. destruct (objs s !! l) as [q|]; [|by apply rules_kept_eq].
      eapply rules_kept_trans; [|apply rules_kept_add]. by apply rules_kept_eq.
  - destruct (Qle_bool (now s) t); [|done]. intros [= <-]. by apply rules_kept_eq.
Qed.

Lemma rules_kept_run evs s s' : run evs s = Some s' → rules_kept s s'.
Proof.
  revert s. induction evs as [|ev evs IH]; simpl; intros s.
  - intros [= <-]. by apply rules_kept_eq.
  - destruct (step ev s) as [s1|] eqn:E; simpl; [|done].
    intros H. eapply rules_kept_trans; [by eapply rules_kept_step|auto].
Qed.


(** ** The example configurations *)

Lemma defaultRules_ok : ∀ i r, defaultRules !! i = Some r → rule_ok r.
Proof.
  intros i r. unfold defaultRules. intros [<- <-]%lookup_singleton_Some. split; reflexivity.
Qed.

Lemma q1Rules_ok : ∀ i r, q1Rules !! i = Some r → rule_ok r.
Proof.
  intros i r. unfold q1Rules. intros [<- <-]%lookup_singleton_Some. split; reflexivity.
Qed.


(** ** A loop that stopped *)

Lemma stalled_eq s s' :
  pending s' = pending s → jobs s' = jobs s →
  length (filter is_FindT (timers s')) = length (filter is_FindT (timers s)) →
  stalled s → stalled s'.
Proof.
  intros Ep Ej Et [Hp Hc]. unfold stalled, chain_count in *. by rewrite Ep, Ej, Et.
Qed.

Lemma stalled_add request callback k rn s : stalled s → stalled (add request callback k rn s).
Proof.
  intros Hst. unfold add.
  pose proof (createQueue_created k request callback rn s) as Hcr.
  destruct (createQueue k request callback rn s) as [l s1]. simpl in Hcr.
  assert (H1 : stalled s1).
  { destruct Hcr as [l q Hget Hq|Hnone].
    - eapply stalled_eq; [..|exact Hst]; done.
    - destruct (getRule_frame rn s) as (_ & _ & _ & Ep & _ & Ej & Et & _).
      eapply stalled_eq; [..|exact Hst]; simpl; by rewrite ?Ep, ?Ej, ?Et. }
  destruct H1 as [Hp Hc]. rewrite Hp. done.
Qed.

Lemma stalled_step ev s s' :
  stalled s → step ev s = Some s' →
  stalled s' ∧ ∀ t l it w, ODispatch t l it w ∈ history s' → ODispatch t l it w ∈ history s.
Proof.
  intros Hst Hstep.
  assert (Hj : jobs s = []).
  { destruct Hst as [_ Hc]. unfold chain_count in Hc. apply length_zero_iff_nil. lia. }
  split.
  - destruct ev as [fn cb k rn| |b|e delay|e o|i|t]; simpl in Hstep.
    + injection Hstep as <-. by apply stalled_add.
    + injection Hstep as <-. eapply stalled_eq; [..|exact Hst]; done.
    + by rewrite Hj in Hstep.
    + destruct (running s !! e) as [r|]; simpl in Hstep; [|done]. injection Hstep as <-.
      eapply stalled_eq; [..|exact Hst]; done.
    + destruct (running s !! e) as [r|]; simpl in Hstep; [|done]. injection Hstep as <-.
      unfold settle, addRetry. destruct o; [destruct (retryState r)|].
      * eapply stalled_eq; [..|exact Hst]; try done.
        unfold setTimeout. simpl. rewrite filter_FindT_snoc. simpl. lia.
      * eapply stalled_eq; [..|exact Hst]; done.
      * eapply stalled_eq; [..|exact Hst]; done.
    + rewrite Hj in Hstep.
      destruct (timers s !! i) as [[due t]|] eqn:Et; [|done].
      destruct (Qle_bool due (now s)) eqn:Ed; [|done]. injection Hstep as <-.
      pose proof (filter_FindT_delete _ _ _ Et) as Hcount.
      assert (Hc : length (filter is_FindT (timers s)) = 0%nat).
      { destruct Hst as [_ Hc]. unfold chain_count in Hc. lia. }
      assert (H0 : stalled (set_timers (delete i) s)).
      { eapply stalled_eq; [..|exact Hst]; try done. simpl. lia. }
      destruct t as [l c| |  |l it]; unfold fire.
      * simpl. destruct (objs s !! l) as [q|]; [|done].
        destruct (Nat.eqb _ _); eapply stalled_eq; [..|exact H0]; done.
      * eapply stalled_eq; [..|exact H0]; done.
      * simpl in Hcount. lia.
      * simpl. destruct (objs s !! l) as [q|]; [|done]. by apply stalled_add.
    + destruct (Qle_bool (now s) t); [|done]. injection Hstep as <-.
      eapply stalled_eq; [..|exact Hst]; done.
  - intros t l it w Hin.
    destruct (step_step_effect _ _ _ Hstep) as [H|l0 it0 H|l0 it0 r0 H|
      b l0 js q r item rest -> Hjobs Hq Hd Hr H Ho].
    + by rewrite <- H.
    + rewrite H in Hin. by apply elem_of_cons in Hin as [?|?].
    + rewrite H in Hin. by apply elem_of_cons in Hin as [?|?].
    + by rewrite Hj in Hjobs.
Qed.

Lemma stalled_run evs s s' :
  stalled s → run evs s = Some s' →
  stalled s' ∧ ∀ t l it w, ODispatch t l it w ∈ history s' → ODispatch t l it w ∈ history s.
Proof.
  revert s. induction evs as [|ev evs IH]; simpl; intros s Hst.
  - intros [= <-]. done.
  - destruct (step ev s) as [s1|] eqn:E; simpl; [|done]. intros Hrun.
    destruct (stalled_step _ _ _ Hst E) as [Hst1 Hd1].
    destruct (IH _ Hst1 Hrun) as [Hst' Hd']. split; [done|]. eauto.
Qed.

(** ** What [totalLength] counts *)

Lemma totalLength_acc s m acc :
  fold_left (λ len kv, (len + queue_length s kv)%nat) m acc =
  (acc + fold_left (λ len kv, (len + queue_length s kv)%nat) m 0)%nat.
Proof.
  revert acc. induction m as [|kv m IH]; simpl; intros acc; [lia|].
  rewrite IH, (IH (queue_length s kv)). lia.
Qed.

Lemma totalLength_eq s s' :
  queue s' = queue s → objs s' = objs s → totalLength s' = totalLength s.
Proof. unfold totalLength, queue_length. by intros -> ->. Qed.

(** Changing the partition behind one entry of the store changes the total
    by the change of that entry. *)
Lemma total_update s s' m :
  (∀ kv, kv ∈ m → queue_length s' kv = queue_length s kv) →
  fold_left (λ len kv, (len + queue_length s' kv)%nat) m 0%nat =
  fold_left (λ len kv, (len + queue_length s kv)%nat) m 0%nat.
Proof.
  induction m as [|kv m IH]; simpl; intros H; [done|].
  rewrite (totalLength_acc s'), (totalLength_acc s), (H kv) by left.
  rewrite IH; [done|]. intros kv' Hin. apply H. by right.
Qed.

Lemma total_update_one s s' m k l :
  NoDup m.*1 → (k, l) ∈ m →
  (∀ kv, kv ∈ m → kv.1 ≠ k → queue_length s' kv = queue_length s kv) →
  (fold_left (λ len kv, (len + queue_length s' kv)%nat) m 0 + queue_length s (k, l))%nat =
  (fold_left (λ len kv, (len + queue_length s kv)%nat) m 0 + queue_length s' (k, l))%nat.
Proof.
  induction m as [|kv m IH]; simpl; intros Hnd Hin H; [by apply elem_of_nil in Hin|].
  apply NoDup_cons in Hnd as [Hnotin Hnd].
  rewrite (totalLength_acc s'), (totalLength_acc s).
  apply elem_of_cons in Hin as [<-|Hin].
  - rewrite (total_update s s' m); [lia|].
    intros kv Hkv. apply H; [by right|]. intros E. apply Hnotin. simpl.
    rewrite <- E. apply list_elem_of_fmap. by exists kv.
  - rewrite (H kv); [|left|].
    + assert (IH' := IH Hnd Hin (λ kv' Hkv' Hne, H kv' (list_elem_of_further _ _ _ Hkv') Hne)).
      lia.
    + intros E. apply Hnotin. rewrite E. apply list_elem_of_fmap. by exists (k, l).
Qed.

(** In a well-formed store a partition is found under one key only. *)
Lemma store_wf_loc s k k' l : store_wf s → (k, l) ∈ queue s → (k', l) ∈ queue s → k' = k.
Proof.
  intros Hwf H1 H2.
  destruct (wf_objs _ Hwf _ _ H1) as (q & Hq & <-).
  destruct (wf_objs _ Hwf _ _ H2) as (q' & Hq' & <-). congruence.
Qed.

Lemma Map_get_elem k l m : NoDup m.*1 → (k, l) ∈ m → Map_get k m = Some l.
Proof.
  induction m as [|[k' l'] m IH]; simpl; intros Hnd Hin; [by apply elem_of_nil in Hin|].
  apply NoDup_cons in Hnd as [Hnotin Hnd].
  apply elem_of_cons in Hin as [[= -> ->]|Hin].
  - by rewrite String.eqb_refl.
  - destruct (String.eqb k k') eqn:E; [|by apply IH].
    apply String.eqb_eq in E as ->. destruct Hnotin.
    apply list_elem_of_fmap. by exists (k', l).
Qed.

Lemma total_insert s s' k l q q' :
  store_wf s → (k, l) ∈ queue s → objs s !! l = Some q →
  queue s' = queue s → objs s' = <[l := q']> (objs s) →
  (totalLength s' + length (data q) = totalLength s + length (data q'))%nat.
Proof.
  intros Hwf Hin Hq Eq Eo. unfold totalLength. rewrite Eq.
  pose proof (total_update_one s s' (queue s) k l (wf_keys _ Hwf) Hin) as H.
  assert (E1 : queue_length s (k, l) = length (data q)).
  { unfold queue_length. simpl. by rewrite Hq. }
  assert (E2 : queue_length s' (k, l) = length (data q')).
  { unfold queue_length. simpl. by rewrite Eo, lookup_insert_eq. }
  rewrite E1, E2 in H. apply H.
  intros [k' l'] Hin' Hne. unfold queue_length. simpl in *. rewrite Eo.
  rewrite lookup_insert_ne; [done|]. intros <-.
  apply Hne. by eapply (store_wf_loc s).
Qed.

Lemma total_insert_out s s' l q' :
  (∀ k, (k, l) ∉ queue s) →
  queue s' = queue s → objs s' = <[l := q']> (objs s) →
  totalLength s' = totalLength s.
Proof.
  intros Hout Eq Eo. unfold totalLength. rewrite Eq. apply total_update.
  intros [k' l'] Hin. unfold queue_length. simpl. rewrite Eo.
  rewrite lookup_insert_ne; [done|]. intros <-. by apply (Hout k').
Qed.

Lemma created_total k request callback rn s l s' :
  store_wf s → created k request callback rn s l s' →
  totalLength s' = S (totalLength s).
Proof.
  intros Hwf Hcr.
  destruct Hcr as [l q Hget Hq|Hnone].
  - pose proof (Map_get_Some _ _ _ Hget) as Hin.
    set (s' := observe _ _).
    pose proof (total_insert s s' k l q (push_item item q) Hwf Hin Hq) as H.
    simpl in H. rewrite length_app in H. simpl in H.
    rewrite (Map_set_present _ _ _ Hget) in H. specialize (H eq_refl eq_refl). lia.
  - destruct Hwf as [Hnd Hobj Hfr].
    destruct (getRule_frame rn s) as (Eq & Eo & Ef & _).
    unfold totalLength. simpl. rewrite Eq.
    assert (Hget : Map_get k (queue s) = None).
    { destruct (Map_get k (queue s)) as [l0|] eqn:E; [|done]. simpl in Hnone.
      destruct (Hobj k l0 (Map_get_Some _ _ _ E)) as (q0 & Hq0 & _).
      rewrite Hq0 in Hnone. done. }
    rewrite (Map_set_absent _ _ _ Hget), fold_left_app. simpl.
    set (s' := observe _ _).
    change (fold_left (λ len kv, (len + queue_length s' kv)%nat) (queue s) 0 + queue_length s' (k, l) =
            S (fold_left (λ len kv, (len + queue_length s kv)%nat) (queue s) 0))%nat.
    rewrite (total_update s s').
    + unfold queue_length, s'. simpl. rewrite lookup_insert_eq. simpl. lia.
    + intros [k' l'] Hin. unfold queue_length, s'. simpl.
      rewrite lookup_insert_ne; [by rewrite Eo|]. intros <-.
      destruct (Hobj k' l Hin) as (q0 & Hq0 & _). apply Hfr in Hq0. unfold l in Hq0. lia.
Qed.

Lemma add_total request callback k rn s :
  store_wf s → totalLength (add request callback k rn s) = S (totalLength s).
Proof.
  intros Hwf. unfold add.
  pose proof (createQueue_created k request callback rn s) as Hcr.
  destruct (createQueue k request callback rn s) as [l s1]. simpl in Hcr.
  rewrite <- (created_total _ _ _ _ _ _ _ Hwf Hcr).
  destruct (pending s1); [done|]. unfold execute.
  destruct (findMostImportant_frame (Some l) (set_pending true s1)) as (Eo & _ & _ & Eq & _).
  by apply totalLength_eq.
Qed.

Lemma cons_neq {A} (x : A) l : l ≠ x :: l.
Proof. intros H. apply (f_equal length) in H. simpl in H. lia. Qed.

(** Only [add] pushes: a step that records a push is a call of [add], made
    by [request] or by the timer of a retry. *)
Lemma step_push ev s s' l it :
  step ev s = Some s' → history s' = OEnqueue l it :: history s →
  ∃ s0 request callback k rn,
    s' = add request callback k rn s0 ∧
    queue s0 = queue s ∧ objs s0 = objs s ∧ fresh s0 = fresh s ∧ history s0 = history s.
Proof.
  destruct ev as [fn cb k rn| |b|e d|e o|i|t]; simpl; intros Hstep Hh.
  - injection Hstep as <-. by eexists s, _, _, _, _.
  - injection Hstep as <-. simpl in Hh. by apply cons_neq in Hh.
  - destruct (jobs s) as [|[l0|l0 it0] js] eqn:Hj; [done| |].
    + destruct (shift_resume_shifted l0 (set_jobs (λ _, js) s) _ Hstep) as [|q r item rest Hq Hd Hr];
        simpl in Hh; [by apply cons_neq in Hh|done].
    + injection Hstep as <-. unfold execute_resume in Hh. destruct (sync_throw b); [done|].
      unfold execute in Hh. rewrite findMostImportant_history in Hh. simpl in Hh.
      rewrite heat_history in Hh. simpl in Hh. by apply cons_neq in Hh.
  - destruct (running s !! e) as [r|]; simpl in Hstep; [|done]. injection Hstep as <-.
    simpl in Hh. by apply cons_neq in Hh.
  - destruct (running s !! e) as [r|]; simpl in Hstep; [|done]. injection Hstep as <-.
    unfold settle in Hh. destruct o; [destruct (retryState r)|]; simpl in Hh;
      try done; by apply cons_neq in Hh.
  - destruct (jobs s) as [|] eqn:Hj; [|done].
    destruct (timers s !! i) as [[due t]|] eqn:Ht; [|done].
    destruct (Qle_bool due (now s)); [|done]. injection Hstep as <-.
    destruct t as [l0 c|last| |l0 it0]; unfold fire in *.
    + simpl in Hh. destruct (objs s !! l0) as [q|]; simpl in Hh; [|by apply cons_neq in Hh].
      destruct (length (data q) =? 0)%nat; simpl in Hh; by apply cons_neq in Hh.
    + simpl in Hh. by apply cons_neq in Hh.
    + rewrite findMostImportant_history in Hh. simpl in Hh. by apply cons_neq in Hh.
    + simpl objs in *. destruct (objs s !! l0) as [q|]; simpl in Hh; [|by apply cons_neq in Hh].
      by eexists (set_timers (delete i) s), _, _, _, _.
  - destruct (Qle_bool (now s) t); [|done]. injection Hstep as <-.
    simpl in Hh. by apply cons_neq in Hh.
Qed.

(** Only a resumed [shift] pops; it changes nothing but the partition it
    holds. *)
Lemma step_pop ev s s' t l it w :
  step ev s = Some s' → history s' = ODispatch t l it w :: history s →
  ∃ q q', objs s !! l = Some q ∧ data q = it :: data q' ∧
          queue s' = queue s ∧ objs s' = <[l := q']> (objs s).
Proof.
  intros Hstep Hh.
  destruct (history_grows_by_dispatch _ _ _ _ _ _ _ Hstep Hh)
    as (b & js & q & r & rest & -> & Hj & Hq & Hd & Hr & -> & -> & Ho).
  simpl in Hstep. rewrite Hj in Hstep.
  destruct (shift_resume_shifted l (set_jobs (λ _, js) s) _ Hstep)
    as [|q1 r1 item rest1 Hq1 Hd1 Hr1].
  - simpl in Hh. by apply cons_neq in Hh.
  - simpl in *. rewrite Hq in Hq1. injection Hq1 as <-. rewrite Hd in Hd1.
    injection Hd1 as <- <-. eexists q, _. split_and!; [done| |done|done]. done.
Qed.

(** ** The configuration and the overall overheat *)

Lemma same_config_refl s : same_config s s.
Proof. by repeat split. Qed.

Lemma same_config_trans s s1 s2 : same_config s s1 → same_config s1 s2 → same_config s s2.
Proof. intros (?&?&?&?&?&?) (?&?&?&?&?&?). repeat split; congruence. Qed.

Lemma same_config_params s s' : params s' = params s → heatPart s' = heatPart s → same_config s s'.
Proof. intros E1 E2. unfold same_config. by rewrite E1, E2. Qed.

Lemma same_config_getRule name s : same_config s (getRule name s).2.
Proof. unfold getRule. destruct (rules_get name s); by repeat split. Qed.

Lemma heatPart_findMostImportant o s : heatPart (findMostImportant o s) = heatPart s.
Proof.
  destruct o as [l|]; [done|].
  by destruct (findMostImportant_selection s).
Qed.

Lemma timers_findMostImportant s :
  timers (findMostImportant None s) = timers s ∨
  ∃ d, timers (findMostImportant None s) = timers s ++ [(now s + d, FindT)].
Proof.
  destruct (findMostImportant_selection s) as [|d| |]; eauto.
Qed.

Lemma add_frame request callback k rn s :
  same_config s (add request callback k rn s) ∧
  overheat (add request callback k rn s) = overheat s ∧
  now (add request callback k rn s) = now s ∧
  timers (add request callback k rn s) = timers s ∧
  running (add request callback k rn s) = running s ∧
  rule_objs (add request callback k rn s) = rule_objs s.
Proof.
  unfold add.
  pose proof (createQueue_created k request callback rn s) as Hcr.
  destruct (createQueue k request callback rn s) as [l s1]. simpl in Hcr.
  assert (same_config s s1 ∧ overheat s1 = overheat s ∧ now s1 = now s ∧
          timers s1 = timers s ∧ running s1 = running s ∧ rule_objs s1 = rule_objs s) as H.
  { destruct Hcr as [l q Hget Hq|Hnone].
    - split; [by repeat split|done].
    - destruct (getRule_frame rn s) as (_ & _ & _ & _ & En & _ & Et & _ & Er & Eru & Eh).
      split; [|done]. pose proof (same_config_getRule rn s) as (?&?&?&?&?&E6).
      repeat split; try done. }
  destruct (pending s1); [done|]. done.
Qed.

Lemma never_heated_eq t0 s s' :
  ignoreOverallOverheat (params s') = ignoreOverallOverheat (params s) →
  overheat s' = overheat s → now s <= now s' →
  (∀ x, x ∈ timers s' → x ∈ timers s ∨ ∃ due, x = (due, FindT) ∨
        (∃ l c, x = (due, CooldownT l c)) ∨ ∃ l it, x = (due, RetryT l it)) →
  never_heated t0 s → never_heated t0 s'.
Proof.
  intros E1 E2 Hn Ht (Hi & Ho & Hle & Hno). split_and!.
  - congruence.
  - congruence.
  - exact (Qle_trans _ _ _ Hle Hn).
  - intros due last Hin. destruct (Ht _ Hin) as [H|(d & [H|[(l & c & H)|(l & it & H)]])];
      [by apply Hno in H|done..].
Qed.

Lemma never_heated_find t0 s : never_heated t0 s → never_heated t0 (findMostImportant None s).
Proof.
  intros H. destruct (findMostImportant_frame None s) as (_&_&_&_&Ep&_&En&Eo&_).
  eapply never_heated_eq; [by rewrite Ep|done|rewrite En; apply Qle_refl| |done].
  intros x Hx. destruct (timers_findMostImportant s) as [E|[d E]]; rewrite E in Hx; [by left|].
  apply elem_of_app in Hx as [Hx|Hx%list_elem_of_singleton]; [by left|]. right. eauto.
Qed.

Lemma never_heated_add t0 request callback k rn s :
  never_heated t0 s → never_heated t0 (add request callback k rn s).
Proof.
  intros H. destruct (add_frame request callback k rn s) as ((_&_&_&_&Ei&_) & Eo & En & Et & _).
  eapply never_heated_eq; [done|done|rewrite En; apply Qle_refl| |done].
  intros x Hx. rewrite Et in Hx. by left.
Qed.

Lemma never_heated_step t0 ev s s' :
  never_heated t0 s → step ev s = Some s' → never_heated t0 s'.
Proof.
  intros Hnh.
  destruct ev as [fn cb k rn| |b|e d|e o|i|t]; simpl; intros Hstep.
  - injection Hstep as <-. by apply never_heated_add.
  - injection Hstep as <-. done.
  - destruct (jobs s) as [|[l0|l0 it0] js] eqn:Hj; [done| |].
    + destruct (shift_resume_shifted l0 (set_jobs (λ _, js) s) _ Hstep) as [|q r item rest Hq Hd Hr].
      * done.
      * eapply never_heated_eq; [..|exact Hnh]; try done; [apply Qle_refl|].
        simpl. intros x [Hx|Hx%list_elem_of_singleton]%elem_of_app; [by left|].
        right. eexists. right. left. eauto.
    + injection Hstep as <-. unfold execute_resume. destruct (sync_throw b); [done|].
      unfold execute. apply never_heated_find.
      destruct Hnh as (Hi & Ho & Hle & Hno).
      unfold heat. simpl. rewrite Hi. done.
  - destruct (running s !! e) as [r|]; simpl in Hstep; [|done]. injection Hstep as <-. done.
  - destruct (running s !! e) as [r|]; simpl in Hstep; [|done]. injection Hstep as <-.
    unfold settle. destruct o; [destruct (retryState r)|]; try done.
    eapply never_heated_eq; [..|exact Hnh]; try done; [apply Qle_refl|].
    simpl. intros x [Hx|Hx%list_elem_of_singleton]%elem_of_app; [by left|].
    right. eexists. right. right. eauto.
  - destruct (jobs s) as [|] eqn:Hj; [|done].
    destruct (timers s !! i) as [[due t]|] eqn:Ht; [|done].
    destruct (Qle_bool due (now s)); [|done]. injection Hstep as <-.
    assert (Hnh1 : never_heated t0 (set_timers (delete i) s)).
    { eapply never_heated_eq; [..|exact Hnh]; try done; [apply Qle_refl|].
      simpl. intros x Hx%elem_of_delete_timer. by left. }
    destruct t as [l0 c|last| |l0 it0]; unfold fire.
    + destruct (objs (set_timers (delete i) s) !! l0) as [q|]; [|done].
      simpl. destruct (length (data q) =? 0)%nat; done.
    + destruct Hnh as (_ & _ & _ & Hno). destruct (Hno due last).
      by eapply list_elem_of_lookup_2.
    + by apply never_heated_find.
    + destruct (objs (set_timers (delete i) s) !! l0) as [q|]; [|done].
      by apply never_heated_add.
  - destruct (Qle_bool (now s) t) eqn:E; [|done]. injection Hstep as <-.
    apply Qle_bool_iff in E. destruct Hnh as (Hi & Ho & Hle & Hno).
    split_and!; try done. simpl. exact (Qle_trans _ _ _ Hle E).
Qed.

Lemma never_heated_run t0 evs s s' :
  never_heated t0 s → run evs s = Some s' → never_heated t0 s'.
Proof.
  revert s. induction evs as [|ev evs IH]; simpl; intros s H Hrun; [by injection Hrun as <-|].
  destruct (step ev s) as [s1|] eqn:E; [|done]. simpl in Hrun.
  eapply IH; [|done]. by eapply never_heated_step.
Qed.

(** ** Partition objects *)

Lemma later_partition_refl q : later_partition q q.
Proof. repeat split. apply Qle_refl. Qed.

Lemma later_partition_trans q q1 q2 :
  later_partition q q1 → later_partition q1 q2 → later_partition q q2.
Proof.
  intros (?&?&?&?&?) (?&?&?&?&?). repeat split; try congruence. by eapply Qle_trans.
Qed.

Lemma execute_resume_frame l it b s :
  objs (execute_resume l it b s) = objs s ∧ params (execute_resume l it b s) = params s ∧
  queue (execute_resume l it b s) = queue s ∧ rule_objs (execute_resume l it b s) = rule_objs s ∧
  now (execute_resume l it b s) = now s ∧ heatPart (execute_resume l it b s) = heatPart s.
Proof.
  unfold execute_resume. destruct (sync_throw b); [done|]. unfold execute.
  match goal with |- context [findMostImportant None ?x] =>
    destruct (findMostImportant_frame None x) as (-> & _ & _ & -> & -> & -> & -> & _);
    rewrite (heatPart_findMostImportant None x) end.
  simpl.
  match goal with |- context [heat ?x] =>
    destruct (heat_frame x) as (-> & -> & -> & -> & ->) end.
  split_and!; try done. unfold heat. simpl. by destruct (ignoreOverallOverheat (params s)).
Qed.

Lemma add_objs_effect request callback k rn s0 s :
  objs s0 = objs s → params s0 = params s → fresh s0 = fresh s → queue s0 = queue s →
  rule_objs s0 = rule_objs s →
  objs_effect s (add request callback k rn s0).
Proof.
  intros Eo Ep Ef Eq Er. unfold add.
  pose proof (createQueue_created k request callback rn s0) as Hcr.
  destruct (createQueue k request callback rn s0) as [l s1]. simpl in Hcr.
  eapply oe_created; [done..| |]; destruct (pending s1); done.
Qed.

Lemma step_objs_effect ev s s' : step ev s = Some s' → objs_effect s s'.
Proof.
  intros Hstep.
  destruct ev as [fn cb k rn| |b|e d|e o|i|t]; simpl in Hstep.
  - injection Hstep as <-. by apply add_objs_effect.
  - injection Hstep as <-. by apply oe_same.
  - destruct (jobs s) as [|[l0|l0 it0] js] eqn:Hj; [done| |].
    + destruct (shift_resume_shifted l0 (set_jobs (λ _, js) s) _ Hstep) as [|q0 r item rest Hq0 Hd Hr].
      * by apply oe_same.
      * eapply oe_update; [exact Hq0|done..|].
        intros Hinv. simpl.
        destruct (li_cool _ Hinv l0) as (q1 & Hq1 & Hc); [rewrite Hj; left|].
        simpl in Hq0. rewrite Hq0 in Hq1. injection Hq1 as <-.
        assert (rule_ok r) as Hok.
        { eapply bound_rule_ok; [apply (li_rules _ Hinv)|exact Hr]. }
        pose proof (window_nonneg r Hok). subst w. simpl. lra.
    + injection Hstep as <-. destruct (execute_resume_frame l0 it0 b (set_jobs (λ _, js) s)) as (Eo & Ep & _).
      by apply oe_same.
  - destruct (running s !! e) as [r|]; simpl in Hstep; [|done]. injection Hstep as <-.
    by apply oe_same.
  - destruct (running s !! e) as [r|]; simpl in Hstep; [|done]. injection Hstep as <-.
    apply oe_same; unfold settle; destruct o; [destruct (retryState r)| |destruct (retryState r)|];
      done.
  - destruct (jobs s) as [|] eqn:Hj; [|done].
    destruct (timers s !! i) as [[due t]|] eqn:Ht; [|done].
    destruct (Qle_bool due (now s)) eqn:Hdue; [|done]. injection Hstep as <-.
    apply Qle_bool_iff in Hdue.
    destruct t as [l0 c|last| |l0 it0]; unfold fire.
    + simpl objs. destruct (objs s !! l0) as [q0|] eqn:Hq0; [|by apply oe_same].
      eapply (oe_update _ _ l0 q0 (with_cooldown (now s + Math_max (cooldown q0 - c) 0) q0)).
      * done.
      * simpl. by destruct (length (data q0) =? 0)%nat.
      * simpl. by destruct (length (data q0) =? 0)%nat.
      * done.
      * done.
      * done.
      * done.
      * intros Hinv. simpl.
        apply Math_max_shift. apply Qle_trans with due; [|done].
        apply (li_timers _ Hinv due l0 c). by eapply list_elem_of_lookup_2.
    + by apply oe_same.
    + destruct (findMostImportant_frame None (set_timers (delete i) s))
        as (Eo & _ & _ & _ & Ep & _).
      by apply oe_same.
    + simpl objs. destruct (objs s !! l0) as [q0|] eqn:Hq0; [|by apply oe_same].
      by apply add_objs_effect.
  - destruct (Qle_bool (now s) t) eqn:E; [|done]. injection Hstep as <-.
    by apply oe_same.
Qed.

Lemma later_step ev s s' l q :
  loop_inv s → step ev s = Some s' → objs s !! l = Some q →
  ∃ q', objs s' !! l = Some q' ∧ later_partition q q'.
Proof.
  intros Hinv Hstep Hq. pose proof (li_store _ Hinv) as Hwf.
  destruct (step_objs_effect _ _ _ Hstep)
    as [Eo _|l0 q0 q0' Hq0 Eo _ H1 H2 H3 H4 Hl|k rq cb rn s0 l1 s1 Eo0 _ Ef _ _ Hcr Eo _];
    rewrite Eo.
  - exists q. split; [done|apply later_partition_refl].
  - destruct (decide (l0 = l)) as [->|Hne].
    + rewrite lookup_insert_eq. exists q0'. split; [done|].
      rewrite Hq in Hq0. injection Hq0 as <-. repeat split; try done. by apply Hl.
    + rewrite lookup_insert_ne by done. exists q. split; [done|apply later_partition_refl].
  - rewrite <- Eo0 in Hq. destruct Hcr as [l1 q1 Hget Hq1|Hnone]; simpl.
    + destruct (decide (l1 = l)) as [->|Hne].
      * rewrite lookup_insert_eq. rewrite Hq in Hq1. injection Hq1 as <-.
        eexists. split; [done|]. repeat split. apply Qle_refl.
      * rewrite lookup_insert_ne by done. exists q. split; [done|apply later_partition_refl].
    + destruct (getRule_frame rn s0) as (_ & Eo' & _). rewrite Eo'.
      rewrite lookup_insert_ne.
      * exists q. split; [done|apply later_partition_refl].
      * rewrite Eo0 in Hq. apply (wf_fresh _ Hwf) in Hq. unfold l0. lia.
Qed.

Lemma later_run evs s s' l q :
  loop_inv s → run evs s = Some s' → objs s !! l = Some q →
  ∃ q', objs s' !! l = Some q' ∧ later_partition q q'.
Proof.
  revert s q. induction evs as [|ev evs IH]; simpl; intros s q Hinv Hrun Hq.
  - injection Hrun as <-. exists q. split; [done|apply later_partition_refl].
  - destruct (step ev s) as [s1|] eqn:E; [|done]. simpl in Hrun.
    destruct (later_step _ _ _ _ _ Hinv E Hq) as (q1 & Hq1 & Hl1).
    destruct (IH s1 q1 (loop_inv_step _ _ _ Hinv E) Hrun Hq1) as (q2 & Hq2 & Hl2).
    exists q2. split; [done|]. by eapply later_partition_trans.
Qed.

(** [getRule] changes what a name stands for only when the name stood for
    nothing, and then to what the default rule name stands for. *)
Lemma getRule_rules_get name s n :
  rules_get n (getRule name s).2 =
  if decide (n = name ∧ rules_get name s = None)
  then rules_get (default_rule (params s)) s else rules_get n s.
Proof.
  unfold getRule. destruct (rules_get name s) as [r|] eqn:E; simpl.
  - by rewrite decide_False by (by intros [_ ?]).
  - destruct (decide (n = name)) as [->|Hne].
    + rewrite decide_True by done. unfold rules_get. simpl. by rewrite lookup_insert_eq.
    + rewrite decide_False by (by intros [? _]). unfold rules_get. simpl.
      by rewrite lookup_insert_ne.
Qed.

Lemma getRule_default name s :
  rules_get (default_rule (params (getRule name s).2)) (getRule name s).2 =
  rules_get (default_rule (params s)) s.
Proof.
  destruct (same_config_getRule name s) as (-> & _).
  rewrite getRule_rules_get. by destruct (decide _) as [[-> _]|].
Qed.

Lemma getRule_result name s : (getRule name s).1 = rules_get name (getRule name s).2.
Proof.
  rewrite getRule_rules_get. unfold getRule.
  destruct (rules_get name s) as [r|] eqn:E; simpl.
  - by rewrite decide_False by (by intros [_ ?]).
  - by rewrite decide_True.
Qed.

Lemma bound_eq s s' : objs s' = objs s → params s' = params s → bound s → bound s'.
Proof.
  intros Eo Ep H l q Hq. rewrite Eo in Hq. unfold rules_get. rewrite Ep. by apply (H l q).
Qed.

Lemma bound_created k request callback rn s l s' :
  bound s → created k request callback rn s l s' → bound s'.
Proof.
  intros Hb Hcr. destruct Hcr as [l q Hget Hq|Hnone]; intros l' q' Hq'; simpl in Hq'.
  - destruct (decide (l = l')) as [->|Hne].
    + rewrite lookup_insert_eq in Hq'. injection Hq' as <-. by apply (Hb l' q).
    + rewrite lookup_insert_ne in Hq' by done. by apply (Hb l' q').
  - destruct (getRule_frame rn s) as (_ & Eo & _). rewrite Eo in Hq'.
    change (rule q' = rules_get (ruleName q') (getRule rn s).2 ∧
            (rule q' = None →
             rules_get (default_rule (params (getRule rn s).2)) (getRule rn s).2 = None)).
    rewrite getRule_default.
    destruct (decide (l = l')) as [<-|Hne].
    + rewrite lookup_insert_eq in Hq'. injection Hq' as <-. simpl.
      split; [apply getRule_result|]. unfold getRule.
      destruct (rules_get rn s); simpl; done.
    + rewrite lookup_insert_ne in Hq' by done. destruct (Hb _ _ Hq') as [H1 H2].
      split; [|done]. rewrite getRule_rules_get.
      destruct (decide _) as [[E1 E2]|]; [|done].
      rewrite H2; [by rewrite H1, E1|]. by rewrite H1, E1.
Qed.

Lemma bound_step ev s s' : bound s → step ev s = Some s' → bound s'.
Proof.
  intros Hb Hstep.
  destruct (step_objs_effect _ _ _ Hstep)
    as [Eo Ep|l0 q0 q0' Hq0 Eo Ep H1 H2 H3 H4 Hl|k rq cb rn s0 l1 s1 Eo0 Ep0 Ef _ _ Hcr Eo Ep].
  - by apply (bound_eq s).
  - intros l q Hq. rewrite Eo in Hq. unfold rules_get. rewrite Ep.
    destruct (decide (l0 = l)) as [->|Hne].
    + rewrite lookup_insert_eq in Hq. injection Hq as <-. rewrite H3, H4. by apply (Hb l q0).
    + rewrite lookup_insert_ne in Hq by done. by apply (Hb l q).
  - apply (bound_eq s1); [done..|]. eapply bound_created; [|done].
    by apply (bound_eq s).
Qed.

Lemma bound_run evs s s' : bound s → run evs s = Some s' → bound s'.
Proof.
  revert s. induction evs as [|ev evs IH]; simpl; intros s H Hrun; [by injection Hrun as <-|].
  destruct (step ev s) as [s1|] eqn:E; [|done]. simpl in Hrun.
  eapply IH; [|done]. by eapply bound_step.
Qed.

(** ** The soonest cooldown *)

Lemma scan_step_min s t m acc kv res :
  scan_min_spec s t m acc.2 →
  scan_step s t (Some acc) kv = Some res →
  scan_min_spec s t (m ++ [kv]) res.2.
Proof.
  destruct acc as [[mp sel] mc]. simpl. intros Hmc.
  unfold scan_step. simpl.
  destruct (objs s !! kv.2) as [q|] eqn:Eq; simpl; [|done].
  destruct (rule q) as [v|] eqn:Ev; simpl; [|done].
  intros Hres.
  assert (res.2 = if below (cooldown q) mc && Qltb t (cooldown q)
                  then Some (cooldown q) else mc) as ->.
  { destruct (rule_objs s !! v) as [r|]; [destruct (below (priority r) mp && _ && _)|];
      by injection Hres as <-. }
  assert (Hlast : kv ∈ m ++ [kv]).
  { apply elem_of_app. right. by apply list_elem_of_singleton. }
  destruct (below (cooldown q) mc && Qltb t (cooldown q)) eqn:Em; simpl.
  - (* the partition is the soonest so far *)
    apply andb_prop in Em as [Eb Et%Qltb_true]. split; [by exists kv, q|].
    intros kv' q' [H| ->%list_elem_of_singleton]%elem_of_app Hq' Hlt.
    + destruct mc as [c|]; simpl in *.
      * apply Qltb_true in Eb. destruct Hmc as [_ Hmin].
        specialize (Hmin _ _ H Hq' Hlt). lra.
      * specialize (Hmc _ _ H Hq'). lra.
    + assert (q' = q) as -> by congruence. apply Qle_refl.
  - (* the soonest so far is kept *)
    destruct mc as [c|]; simpl in *.
    + destruct Hmc as [(kv0 & q0 & Hin0 & Hq0 & Hc0 & Hlt0) Hmin]. split.
      * exists kv0, q0. split_and!; [apply elem_of_app; by left|done..].
      * intros kv' q' [H| ->%list_elem_of_singleton]%elem_of_app Hq' Hlt; [by eapply Hmin|].
        assert (q' = q) as -> by congruence.
        apply andb_false_iff in Em as [Em%Qltb_false|Em%Qltb_false]; lra.
    + intros kv' q' [H| ->%list_elem_of_singleton]%elem_of_app Hq'; [by eapply Hmc|].
      assert (q' = q) as -> by congruence. by apply Qltb_false in Em.
Qed.

Lemma scan_fold_min s t m res :
  fold_left (scan_step s t) m (Some (None, None, None)) = Some res →
  scan_min_spec s t m res.2.
Proof.
  revert res. induction m as [|kv m IH] using rev_ind; intros res.
  - simpl. intros [= <-]. simpl. intros kv q []%elem_of_nil.
  - rewrite fold_left_app. simpl.
    destruct (fold_left (scan_step s t) m (Some (None, None, None))) as [acc|] eqn:E; [|done].
    intros H. eapply scan_step_min; eauto.
Qed.

(** ** A loop that stays alive *)















Lemma created_frame k request callback rn s l s1 :
  created k request callback rn s l s1 →
  jobs s1 = jobs s ∧ timers s1 = timers s ∧ pending s1 = pending s.
Proof.
  intros [l0 q Hget Hq|Hnone]; [done|]. simpl.
  by destruct (getRule_frame rn s) as (_ & _ & _ & -> & _ & -> & -> & _).
Qed.

Lemma created_data k request callback rn s l s1 :
  store_wf s → created k request callback rn s l s1 →
  (∃ q it, objs s1 !! l = Some q ∧ item_request it = request ∧ item_callback it = callback ∧
           history s1 = OEnqueue l it :: history s ∧
           data q = data_of s l ++ [it]) ∧
  ∀ l0, l0 ≠ l → objs s1 !! l0 = objs s !! l0.
Proof.
  intros Hwf [l0 q Hget Hq|Hnone]; simpl.
  - split.
    + exists (push_item item q), item. rewrite lookup_insert_eq. unfold data_of. rewrite Hq. done.
    + intros l1 Hne. by rewrite lookup_insert_ne.
  - destruct (getRule_frame rn s) as (_ & Eo & _ & _ & _ & _ & _ & Eh & _). rewrite Eo, Eh. split.
    + eexists _, item. rewrite lookup_insert_eq. split_and!; try done. simpl.
      unfold data_of. destruct (objs s !! l0) as [q0|] eqn:Hq0; [|done].
      apply (wf_fresh _ Hwf) in Hq0. unfold l0 in Hq0. lia.
    + intros l1 Hne. by rewrite lookup_insert_ne.
Qed.










(** ** A pinned partition *)





(** ** Dispatches and the overall overheat *)

Lemma quiet_dispatch s s' t l it w :
  quiet s s' → ODispatch t l it w ∈ history s' → ODispatch t l it w ∈ history s.
Proof.
  intros [E|(o & E & Ho)]; rewrite E; [done|].
  intros [<-|H]%elem_of_cons; [by destruct (Ho t l it w)|done].
Qed.

Lemma quiet_gspaced H s s' : quiet s s' → gspaced H (history s) → gspaced H (history s').
Proof.
  intros [E|(o & E & Ho)]; rewrite E; [done|]. simpl.
  destruct o as [| t l it w|]; [done| |done]. by destruct (Ho t l it w).
Qed.

Lemma findMostImportant_cool s :
  findMostImportant None s = s ∨
  (∃ d, findMostImportant None s = setTimeout FindT d s) ∨
  (isOverheated s && negb (ignoreOverallOverheat (params s)) = false ∧
   (findMostImportant None s = set_pending false s ∨
    ∃ l, findMostImportant None s = enqueue_job (ShiftK l) s)).
Proof.
  unfold findMostImportant. destruct (scan s) as [[[mp sel] mc]|]; [|by left].
  destruct (negb (bool_decide (is_Some sel)) && _); [right; left; eauto|].
  destruct (isOverheated s && _) eqn:E; [right; left; eauto|].
  destruct (negb (bool_decide (is_Some sel)) && _); [right; right; eauto|].
  destruct sel as [l|]; [right; right; eauto|by left].
Qed.

Lemma heat_inv_mono H s s' :
  ignoreOverallOverheat (params s') = ignoreOverallOverheat (params s) →
  heatPart s' = heatPart s → overheat s' = overheat s → now s <= now s' →
  quiet s s' →
  (∀ x, x ∈ timers s' → x ∈ timers s ∨
        ∃ due, (∃ l c, x = (due, CooldownT l c)) ∨ ∃ l it, x = (due, RetryT l it)) →
  (∀ l, ShiftK l ∈ jobs s' → ∃ l', ShiftK l' ∈ jobs s) →
  (pending s' = false → pending s = false) →
  heat_inv H s → heat_inv H s'.
Proof.
  intros Ei Eh Eo Hn Hq Ht Hj Hp [H1 H2 H3 H4 H5 H6 H7 H8]. split.
  - congruence.
  - congruence.
  - by eapply quiet_gspaced.
  - intros t l it w Hin. apply (quiet_dispatch s s') in Hin; [|done].
    apply Qle_trans with (now s); eauto.
  - intros due last Hin. destruct (Ht _ Hin) as [?|(d & [(l & c & ?)|(l & it & ?)])];
      [eauto|done|done].
  - intros [due Hin] t l it w Hd. apply (quiet_dispatch s s') in Hd; [|done].
    assert (∃ due, (due, FindT) ∈ timers s) as Hex.
    { destruct (Ht _ Hin) as [?|(d & [(l0 & c & ?)|(l0 & it0 & ?)])]; [eauto|done|done]. }
    rewrite Eo. destruct (H6 Hex _ _ _ _ Hd); [by left|right]. by eapply Qle_trans.
  - intros [l Hin] t l0 it w Hd. apply (quiet_dispatch s s') in Hd; [|done].
    apply Qle_trans with (now s); [|done]. eapply H7; eauto.
  - intros Hp' t l0 it w Hd. apply (quiet_dispatch s s') in Hd; [|done].
    apply Qle_trans with (now s); [|done]. eapply H8; eauto.
Qed.

Lemma created_frame2 k request callback rn s l s1 :
  created k request callback rn s l s1 →
  same_config s s1 ∧ overheat s1 = overheat s ∧ now s1 = now s.
Proof.
  intros [l0 q Hget Hq|Hnone]; [split; [by repeat split|done]|]. simpl.
  destruct (getRule_frame rn s) as (_ & _ & _ & _ & -> & _ & _ & _ & _ & _ & ->).
  split; [|done]. pose proof (same_config_getRule rn s) as (?&?&?&?&?&?). by repeat split.
Qed.

Lemma heat_inv_add H request callback k rn s :
  store_wf s → heat_inv H s → heat_inv H (add request callback k rn s).
Proof.
  intros Hwf Hinv. unfold add.
  pose proof (createQueue_created k request callback rn s) as Hcr.
  destruct (createQueue k request callback rn s) as [l s1]. simpl in Hcr.
  destruct (created_frame _ _ _ _ _ _ _ Hcr) as (Ej & Et & Ep).
  destruct (created_frame2 _ _ _ _ _ _ _ Hcr) as ((_&_&_&_&Ei&Eh) & Eo & En).
  destruct (created_data _ _ _ _ _ _ _ Hwf Hcr) as [(q & it & _ & _ & _ & Hh & _) _].
  assert (Hinv1 : heat_inv H s1).
  { eapply heat_inv_mono; [done|done|done|rewrite En; apply Qle_refl| | | | |exact Hinv].
    - right. by exists (OEnqueue l it).
    - intros x Hx. rewrite Et in Hx. by left.
    - intros l0 Hin. rewrite Ej in Hin. eauto.
    - by rewrite Ep. }
  destruct (pending s1) eqn:Hp; [done|].
  unfold execute. simpl. destruct Hinv1 as [H1 H2 H3 H4 H5 H6 H7 H8]. split; try done.
  intros _. by apply H8.
Qed.

(** The selection, started when every dispatch so far is covered by the
    overheat. *)
Lemma heat_inv_find H s :
  ignoreOverallOverheat (params s) = false → heatPart s = H →
  gspaced H (history s) →
  (∀ t l it w, ODispatch t l it w ∈ history s → t <= now s) →
  (∀ due last, (due, HeatT last) ∈ timers s → last <= due) →
  heated H s → jobs s = [] → pending s = true →
  heat_inv H (findMostImportant None s).
Proof.
  intros H1 H2 H3 H4 H5 Hheated Hj Hp.
  assert (Hcool : isOverheated s && negb (ignoreOverallOverheat (params s)) = false →
                  cooled H s).
  { rewrite H1, andb_true_r. intros Hc%Qltb_false t l it w Hd.
    destruct (Hheated _ _ _ _ Hd); [|done]. by eapply Qle_trans. }
  destruct (findMostImportant_cool s) as [->|[[d ->]|[Hc [->|[l ->]]]]].
  - split; try done.
    + intros [l Hin]. rewrite Hj in Hin. by apply elem_of_nil in Hin.
    + by rewrite Hp.
  - split; try done; simpl.
    + intros due last [?|[=]%list_elem_of_singleton]%elem_of_app. eauto.
    + intros [l Hin]. rewrite Hj in Hin. by apply elem_of_nil in Hin.
    + by rewrite Hp.
  - split; try done; simpl.
    + intros [l Hin]. rewrite Hj in Hin. by apply elem_of_nil in Hin.
    + intros _. by apply Hcool.
  - split; try done; simpl.
    + intros _. by apply Hcool.
    + by rewrite Hp.
Qed.

Lemma no_FindT s due : chain_count s = 0%nat → (due, FindT) ∉ timers s.
Proof.
  unfold chain_count. intros Hc Hin.
  assert ((due, FindT) ∈ filter is_FindT (timers s)) as Hf by (by apply list_elem_of_filter).
  destruct (filter is_FindT (timers s)); [by apply elem_of_nil in Hf|simpl in Hc; lia].
Qed.

Lemma heat_inv_step H ev s s' :
  loop_inv s → heat_inv H s → step ev s = Some s' → heat_inv H s'.
Proof.
  intros Hinv Hh Hstep. pose proof (li_store _ Hinv) as Hwf.
  destruct ev as [fn cb k rn| |b|e d|e o|i|t]; simpl in Hstep.
  - injection Hstep as <-. by apply heat_inv_add.
  - injection Hstep as <-. eapply heat_inv_mono; [..|exact Hh]; try done;
      [apply Qle_refl|by left|by left|eauto].
  - destruct (jobs s) as [|j js] eqn:Hj; [done|].
    destruct (loop_inv_pop_job _ _ _ Hinv Hj) as (Hinv0 & Hc0 & Hp & ->).
    destruct j as [l0|l0 it0].
    + destruct (shift_resume_shifted l0 (set_jobs (λ _, []) s) _ Hstep) as [|q r item rest Hq Hd Hr].
      * eapply heat_inv_mono; [..|exact Hh]; try done; [apply Qle_refl|by left|by left|].
        simpl. by intros l ?%elem_of_nil.
      * destruct Hh as [H1 H2 H3 H4 H5 H6 H7 H8]. split; simpl; try done.
        -- split; [|done]. apply H7. exists l0. rewrite Hj. left.
        -- intros t l it w' [[= -> _ _ _]|Hin]%elem_of_cons; [apply Qle_refl|eauto].
        -- intros due last [?|[=]%list_elem_of_singleton]%elem_of_app. eauto.
        -- intros [due [Hin|[=]%list_elem_of_singleton]%elem_of_app].
           by destruct (no_FindT _ due Hc0).
        -- intros [l [=]%list_elem_of_singleton].
        -- by rewrite Hp.
    + injection Hstep as <-. unfold execute_resume. destruct (sync_throw b) as [err|].
      * eapply heat_inv_mono; [..|exact Hh]; try done; [apply Qle_refl| |by left|].
        -- right. by eexists.
        -- simpl. by intros l ?%elem_of_nil.
      * unfold execute. set (s1 := set_running _ _).
        destruct Hh as [H1 H2 H3 H4 H5 H6 H7 H8].
        assert (heat s1 = setTimeout (HeatT (now s + heatPart s)) (heatPart s)
                            (set_overheat (now s + heatPart s) s1)) as ->.
        { unfold heat. simpl. by rewrite H1. }
        apply heat_inv_find; simpl; try done.
        -- intros due last [?|[= <- <-]%list_elem_of_singleton]%elem_of_app; [eauto|].
           apply Qle_refl.
        -- intros t l it w Hin. left. simpl in *. rewrite H2.
           specialize (H4 _ _ _ _ Hin). lra.
  - destruct (running s !! e) as [r|]; simpl in Hstep; [|done]. injection Hstep as <-.
    eapply heat_inv_mono; [..|exact Hh]; try done; [apply Qle_refl|by left|by left|eauto].
  - destruct (running s !! e) as [r|]; simpl in Hstep; [|done]. injection Hstep as <-.
    unfold settle. destruct o; [destruct (retryState r)|].
    + eapply heat_inv_mono; [..|exact Hh]; try done; [apply Qle_refl|by left| |eauto].
      simpl. intros x [?| ->%list_elem_of_singleton]%elem_of_app; [by left|].
      right. eexists. right. eauto.
    + eapply heat_inv_mono; [..|exact Hh]; try done; [apply Qle_refl| |by left|eauto].
      right. by eexists.
    + eapply heat_inv_mono; [..|exact Hh]; try done; [apply Qle_refl| |by left|eauto].
      right. by eexists.
  - destruct (jobs s) as [|] eqn:Hj; [|done].
    destruct (timers s !! i) as [[due t]|] eqn:Ht; [|done].
    destruct (Qle_bool due (now s)) eqn:Hdue; [|done]. injection Hstep as <-.
    apply Qle_bool_iff in Hdue.
    destruct (loop_inv_delete_timer _ _ _ Hinv Ht) as [Hinv1 Hcnt].
    assert (Hh0 : heat_inv H (set_timers (delete i) s)).
    { eapply heat_inv_mono; [..|exact Hh]; try done; [apply Qle_refl|by left| |eauto].
      simpl. intros x Hx%elem_of_delete_timer. by left. }
    destruct t as [l0 c|last| |l0 it0]; unfold fire.
    + simpl objs. destruct (objs s !! l0) as [q|]; [|done].
      eapply heat_inv_mono; [..|exact Hh0];
        simpl; destruct (length (data q) =? 0)%nat; try done;
        try apply Qle_refl; try (by left); eauto.
    + destruct Hh0 as [H1 H2 H3 H4 H5 H6 H7 H8]. split; simpl; try done.
      intros Hex t l it w Hin. destruct (H6 Hex _ _ _ _ Hin) as [Hle|Hle]; [left|by right].
      simpl in *. apply Qle_trans with (overheat s); [done|].
      apply Math_max_shift. apply Qle_trans with due; [|done].
      apply (hv_timers _ _ Hh due last). by eapply list_elem_of_lookup_2.
    + destruct Hh0 as [H1 H2 H3 H4 H5 H6 H7 H8]. apply heat_inv_find; try done.
      * apply (hv_wait _ _ Hh). exists due. by eapply list_elem_of_lookup_2.
      * simpl. destruct (pending s) eqn:Hp; [done|].
        destruct (li_idle _ Hinv Hp) as [Hc _]. simpl in Hcnt. lia.
    + simpl objs. destruct (objs s !! l0) as [q|]; [|done].
      apply heat_inv_add; [|done]. by eapply (store_wf_eq s).
  - destruct (Qle_bool (now s) t) eqn:E; [|done]. injection Hstep as <-.
    apply Qle_bool_iff in E.
    eapply heat_inv_mono; [..|exact Hh]; try done; [by left|by left|eauto].
Qed.

Lemma heat_inv_run H evs s s' :
  loop_inv s → heat_inv H s → run evs s = Some s' → heat_inv H s'.
Proof.
  revert s. induction evs as [|ev evs IH]; simpl; intros s Hinv Hh Hrun.
  - by injection Hrun as <-.
  - destruct (step ev s) as [s1|] eqn:E; [|done]. simpl in Hrun.
    eapply (IH s1); [by eapply loop_inv_step| |done]. by eapply heat_inv_step.
Qed.

Lemma gspaced_split H h2 h1 t2 l2 i2 w2 t1 l1 i1 w1 :
  gspaced H (h2 ++ ODispatch t2 l2 i2 w2 :: h1) → ODispatch t1 l1 i1 w1 ∈ h1 → t1 + H <= t2.
Proof.
  induction h2 as [|o h2 IH]; simpl.
  - intros [Hall _] Hin. eauto.
  - destruct o; [done| |done]. intros [_ Hsp] Hin. by apply IH.
Qed.

(** ** Completions *)

Lemma called_elem it h : it ∈ called h ↔ ∃ l r, OCall l it r ∈ h.
Proof.
  induction h as [|o h IH]; simpl.
  - split; [by intros ?%elem_of_nil|by intros (? & ? & ?%elem_of_nil)].
  - destruct o as [l0 it0|t0 l0 it0 w0|l0 it0 r0].
    + rewrite IH. split; intros (l & r & H); exists l, r; [by right|].
      by apply elem_of_cons in H as [?|?].
    + rewrite IH. split; intros (l & r & H); exists l, r; [by right|].
      by apply elem_of_cons in H as [?|?].
    + rewrite elem_of_cons, IH. split.
      * intros [->|(l & r & H)]; [exists l0, r0; left|exists l, r; by right].
      * intros (l & r & [[= _ -> _]|H]%elem_of_cons); [by left|right; eauto].
Qed.

(** An item still queued has never been popped, from any partition. *)
Lemma queued_not_popped s l q it rest :
  hist_inv s → objs s !! l = Some q → data q = it :: rest →
  ∀ l', it ∉ popped l' (history s).
Proof.
  intros Hh Hq Hd l' Hin.
  assert (Hdata : data_of s l = it :: rest) by (unfold data_of; by rewrite Hq).
  assert (He : it ∈ enqueued l (history s)).
  { rewrite (hi_fifo _ Hh l), Hdata. apply elem_of_app. right. left. }
  assert (He' : it ∈ enqueued l' (history s)).
  { rewrite (hi_fifo _ Hh l'). apply elem_of_app. by left. }
  assert (l = l') as <- by (eapply enqueued_partition; [apply Hh|done..]).
  pose proof (enqueued_NoDup l _ (hi_nodup _ Hh)) as Hnd.
  rewrite (hi_fifo _ Hh l), Hdata in Hnd. apply NoDup_app in Hnd as (_ & Hdisj & _).
  apply (Hdisj it Hin). left.
Qed.

Lemma once_inv_mono s s' :
  called (history s') = called (history s) → running s' = running s →
  (fresh s <= fresh s')%nat →
  (∀ l it, ExecK l it ∈ jobs s' → ExecK l it ∈ jobs s) →
  once_inv s → once_inv s'.
Proof.
  intros Ec Er Ef Ej [H1 H2 H3 H4 H5 H6]. split; rewrite ?Ec, ?Er; eauto.
  intros e r Hr. specialize (H2 e r Hr). lia.
Qed.

Ltac once_same H := eapply once_inv_mono; [..|exact H]; simpl; try done; try lia.

Lemma add_fresh request callback k rn s :
  (fresh s <= fresh (add request callback k rn s))%nat ∧
  ∀ l it, ExecK l it ∈ jobs (add request callback k rn s) → ExecK l it ∈ jobs s.
Proof.
  unfold add.
  pose proof (createQueue_created k request callback rn s) as Hcr.
  destruct (createQueue k request callback rn s) as [l s1]. simpl in Hcr.
  destruct (created_frame _ _ _ _ _ _ _ Hcr) as (Ej & _).
  assert (fresh s <= fresh s1)%nat as Hf.
  { destruct Hcr as [l q Hget Hq|Hnone]; simpl; [lia|].
    destruct (getRule_frame rn s) as (_ & _ & Ef & _).
    repeat match goal with x := _ |- _ => subst x end. lia. }
  destruct (pending s1); [by rewrite Ej|].
  unfold execute. simpl. rewrite Ej. split; [done|].
  intros l0 it [?|[=]%list_elem_of_singleton]%elem_of_app. done.
Qed.

Lemma once_inv_add request callback k rn s :
  once_inv s → once_inv (add request callback k rn s).
Proof.
  intros H. destruct (add_frame request callback k rn s) as (_ & _ & _ & _ & Er & _).
  destruct (add_fresh request callback k rn s) as [Hf Hj].
  destruct (add_history request callback k rn s) as (l & it & Hh).
  eapply once_inv_mono; [|done..]. by rewrite Hh.
Qed.

Lemma once_inv_find o s : once_inv s → once_inv (findMostImportant o s).
Proof.
  intros H. destruct (findMostImportant_frame o s) as (_ & Ef & Er & _ & _ & _ & _ & _ & Ej).
  eapply once_inv_mono; [|done| |done|done]; [by rewrite findMostImportant_history|lia].
Qed.

Lemma once_inv_step ev s s' :
  loop_inv s → hist_inv s → once_inv s → step ev s = Some s' → once_inv s'.
Proof.
  intros Hinv Hh Hon Hstep.
  destruct ev as [fn cb k rn| |b|e d|e o|i|t]; simpl in Hstep.
  - injection Hstep as <-. by apply once_inv_add.
  - injection Hstep as <-. once_same Hon.
  - destruct (jobs s) as [|j js] eqn:Hj; [done|].
    destruct (loop_inv_pop_job _ _ _ Hinv Hj) as (_ & _ & _ & ->).
    destruct j as [l0|l0 it0].
    + destruct (shift_resume_shifted l0 (set_jobs (λ _, []) s) _ Hstep) as [|q r item rest Hq Hd Hr].
      * once_same Hon. by intros l it ?%elem_of_nil.
      * pose proof (queued_not_popped s l0 q item rest Hh Hq Hd) as Hnp.
        destruct Hon as [H1 H2 H3 H4 H5 H6]. split; simpl.
        -- done.
        -- done.
        -- done.
        -- intros l it e r0 [= -> ->]%list_elem_of_singleton He Heq.
           apply (Hnp (r_queue r0)). rewrite <- Heq. by eapply hi_running.
        -- intros l it [= -> ->]%list_elem_of_singleton (l1 & r1 & Hc)%called_elem.
           apply (Hnp l1). by eapply hi_calls.
        -- done.
    + injection Hstep as <-. assert (Hin : ExecK l0 it0 ∈ jobs s) by (rewrite Hj; left).
      unfold execute_resume. destruct (sync_throw b) as [err|].
      * destruct Hon as [H1 H2 H3 H4 H5 H6]. split; simpl.
        -- apply NoDup_cons. split; [by eapply H5|done].
        -- done.
        -- done.
        -- by intros l it e r ?%elem_of_nil.
        -- by intros l it ?%elem_of_nil.
        -- intros e r Hr [Heq|Hc]%elem_of_cons; [by eapply H4|by eapply H6].
      * unfold execute. apply once_inv_find.
        set (c := fold_left _ _ _).
        destruct Hon as [H1 H2 H3 H4 H5 H6].
        assert (Hfr : running s !! fresh s = None).
        { destruct (running s !! fresh s) as [r|] eqn:E; [|done].
          apply H2 in E. lia. }
        split; simpl; rewrite ?heat_history; simpl.
        -- done.
        -- unfold heat. destruct (ignoreOverallOverheat _); simpl;
             intros e r [[<- <-]|[_ Hr]]%lookup_insert_Some; try lia;
             apply H2 in Hr; lia.
        -- unfold heat. destruct (ignoreOverallOverheat _); simpl;
             intros e e' r r' [[<- <-]|[Hne Hr]]%lookup_insert_Some
                              [[<- <-]|[Hne' Hr']]%lookup_insert_Some Heq; simpl in *;
             try done; try (by destruct (H4 _ _ _ _ Hin Hr'));
             try (by destruct (H4 _ _ _ _ Hin Hr)); by eapply H3.
        -- unfold heat. destruct (ignoreOverallOverheat _); simpl; by intros l it e r ?%elem_of_nil.
        -- unfold heat. destruct (ignoreOverallOverheat _); simpl; by intros l it ?%elem_of_nil.
        -- unfold heat. destruct (ignoreOverallOverheat _); simpl;
             intros e r [[<- <-]|[_ Hr]]%lookup_insert_Some; simpl; eauto.
  - destruct (running s !! e) as [r|] eqn:He; simpl in Hstep; [|done]. injection Hstep as <-.
    destruct Hon as [H1 H2 H3 H4 H5 H6]. split; simpl.
    + done.
    + intros e0 r0 [[<- <-]|[_ Hr]]%lookup_insert_Some; eauto.
    + intros e0 e' r0 r' [[<- <-]|[Hne Hr]]%lookup_insert_Some
                         [[<- <-]|[Hne' Hr']]%lookup_insert_Some Heq; simpl in *; eauto.
    + intros l it e0 r0 Hin [[<- <-]|[_ Hr]]%lookup_insert_Some; simpl; eauto.
    + done.
    + intros e0 r0 [[<- <-]|[_ Hr]]%lookup_insert_Some; simpl; eauto.
  - destruct (running s !! e) as [r|] eqn:He; simpl in Hstep; [|done]. injection Hstep as <-.
    destruct Hon as [H1 H2 H3 H4 H5 H6].
    assert (Hbase : once_inv (set_running (delete e) s)).
    { split; simpl.
      - done.
      - intros e0 r0 [_ Hr]%lookup_delete_Some. eauto.
      - intros e0 e' r0 r' [_ Hr]%lookup_delete_Some [_ Hr']%lookup_delete_Some. eauto.
      - intros l it e0 r0 Hin [_ Hr]%lookup_delete_Some. eauto.
      - done.
      - intros e0 r0 [_ Hr]%lookup_delete_Some. eauto. }
    assert (Hcall : ∀ res, once_inv (observe (OCall (r_queue r) (r_item r) res)
                                       (set_running (delete e) s))).
    { intros res. split; simpl; [|apply Hbase|apply Hbase|apply Hbase| |].
      - apply NoDup_cons. split; [by eapply H6|done].
      - intros l it Hin [->|Hc]%elem_of_cons; [by eapply H4|by eapply H5].
      - intros e0 r0 [Hne Hr]%lookup_delete_Some [Heq|Hc]%elem_of_cons; [|by eapply H6].
        destruct Hne. by eapply H3. }
    unfold settle. destruct o; [destruct (retryState r)|]; [|apply Hcall..].
    once_same Hbase.
  - destruct (jobs s) as [|] eqn:Hj; [|done].
    destruct (timers s !! i) as [[due t]|] eqn:Ht; [|done].
    destruct (Qle_bool due (now s)) eqn:Hdue; [|done]. injection Hstep as <-.
    assert (Hon0 : once_inv (set_timers (delete i) s)) by once_same Hon.
    destruct t as [l0 c|last| |l0 it0]; unfold fire.
    + simpl objs. destruct (objs s !! l0) as [q|]; [|done].
      eapply once_inv_mono; [..|exact Hon0]; simpl; destruct (length (data q) =? 0)%nat;
        try done; lia.
    + once_same Hon0.
    + by apply once_inv_find.
    + simpl objs. destruct (objs s !! l0) as [q|]; [|done]. by apply once_inv_add.
  - destruct (Qle_bool (now s) t) eqn:E; [|done]. injection Hstep as <-.
    once_same Hon.
Qed.

Lemma once_inv_run evs s s' :
  loop_inv s → hist_inv s → once_inv s → run evs s = Some s' → once_inv s'.
Proof.
  revert s. induction evs as [|ev evs IH]; simpl; intros s Hinv Hh Hon Hrun.
  - by injection Hrun as <-.
  - destruct (step ev s) as [s1|] eqn:E; [|done]. simpl in Hrun.
    eapply (IH s1); [by eapply loop_inv_step|by eapply hist_inv_step| |done].
    by eapply once_inv_step.
Qed.

(** ** The configuration is not assigned *)

Lemma same_config_step ev s s' : step ev s = Some s' → same_config s s'.
Proof.
  intros Hstep.
  destruct ev as [fn cb k rn| |b|e d|e o|i|t]; simpl in Hstep.
  - injection Hstep as <-. apply add_frame.
  - injection Hstep as <-. by repeat split.
  - destruct (jobs s) as [|[l0|l0 it0] js] eqn:Hj; [done| |].
    + destruct (shift_resume_shifted l0 (set_jobs (λ _, js) s) _ Hstep); by repeat split.
    + injection Hstep as <-. destruct (execute_resume_frame l0 it0 b (set_jobs (λ _, js) s))
        as (_ & Ep & _ & _ & _ & Eh).
      by apply same_config_params.
  - destruct (running s !! e) as [r|]; simpl in Hstep; [|done]. injection Hstep as <-.
    by repeat split.
  - destruct (running s !! e) as [r|]; simpl in Hstep; [|done]. injection Hstep as <-.
    unfold settle. destruct o; [destruct (retryState r)|]; by repeat split.
  - destruct (jobs s) as [|] eqn:Hj; [|done].
    destruct (timers s !! i) as [[due t]|] eqn:Ht; [|done].
    destruct (Qle_bool due (now s)); [|done]. injection Hstep as <-.
    destruct t as [l0 c|last| |l0 it0]; unfold fire.
    + destruct (objs (set_timers (delete i) s) !! l0) as [q|]; [|by repeat split].
      simpl. destruct (length (data q) =? 0)%nat; by repeat split.
    + by repeat split.
    + destruct (findMostImportant_frame None (set_timers (delete i) s))
        as (_ & _ & _ & _ & Ep & _).
      apply same_config_params; [done|]. by rewrite heatPart_findMostImportant.
    + destruct (objs (set_timers (delete i) s) !! l0) as [q|]; [|by repeat split].
      apply (add_frame (item_request it0) (item_callback it0) (key q) (ruleName q)
               (set_timers (delete i) s)).
  - destruct (Qle_bool (now s) t); [|done]. injection Hstep as <-. by repeat split.
Qed.

Lemma same_config_run evs s s' : run evs s = Some s' → same_config s s'.
Proof.
  revert s. induction evs as [|ev evs IH]; simpl; intros s Hrun.
  - injection Hrun as <-. apply same_config_refl.
  - destruct (step ev s) as [s1|] eqn:E; [|done]. simpl in Hrun.
    eapply same_config_trans; [by eapply same_config_step|by apply IH].
Qed.

(** ** Completion callbacks *)

Lemma count_nil x : count x [] = 0%nat.
Proof. done. Qed.

Lemma count_cons x y l :
  count x (y :: l) = ((if decide (x = y) then 1 else 0) + count x l)%nat.
Proof. unfold count. rewrite filter_cons. by destruct (decide (x = y)). Qed.

Lemma count_app x l1 l2 : count x (l1 ++ l2) = (count x l1 + count x l2)%nat.
Proof. unfold count. by rewrite filter_app, length_app. Qed.

Lemma count_perm x l1 l2 : l1 ≡ₚ l2 → count x l1 = count x l2.
Proof. unfold count. by intros ->. Qed.

Lemma count_NoDup l : NoDup l ↔ ∀ x, (count x l <= 1)%nat.
Proof.
  induction l as [|y l IH].
  - split; [intros _ x; unfold count; simpl; lia|constructor].
  - rewrite NoDup_cons, IH. split.
    + intros [Hnotin Hall] x. rewrite count_cons. destruct (decide (x = y)) as [->|]; [|apply Hall].
      assert (count y l = 0%nat); [|lia]. unfold count.
      destruct (filter (eq y) l) as [|z f] eqn:E; [done|].
      assert (z ∈ filter (eq y) l) as [<- Hin]%list_elem_of_filter by (rewrite E; left). done.
    + intros Hall. split.
      * intros Hin. specialize (Hall y). rewrite count_cons, decide_True in Hall by done.
        assert (y ∈ filter (eq y) l) as Hf by (by apply list_elem_of_filter).
        unfold count in Hall. destruct (filter (eq y) l); [by apply elem_of_nil in Hf|].
        simpl in Hall. lia.
      * intros x. specialize (Hall x). rewrite count_cons in Hall. lia.
Qed.

Lemma sinks_map_insert {A} (f : A → list nat) x e a (m : gmap nat A) :
  count x (sinks_map f (<[e := a]> m)) =
  (count x (f a) + count x (sinks_map f (delete e m)))%nat.
Proof.
  unfold sinks_map. rewrite <- insert_delete_eq.
  rewrite (count_perm x _ _ (bind_Permutation _ _ _
             (map_to_list_insert (delete e m) e a (lookup_delete_eq m e)))).
  simpl. by rewrite count_app.
Qed.

Lemma sinks_map_delete {A} (f : A → list nat) x e a (m : gmap nat A) :
  m !! e = Some a →
  count x (sinks_map f m) = (count x (f a) + count x (sinks_map f (delete e m)))%nat.
Proof.
  intros H. unfold sinks_map.
  rewrite <- (count_perm x _ _ (bind_Permutation _ _ _ (map_to_list_delete m e a H))).
  simpl. by rewrite count_app.
Qed.

Lemma sinks_map_delete_le {A} (f : A → list nat) x e (m : gmap nat A) :
  (count x (sinks_map f (delete e m)) <= count x (sinks_map f m))%nat.
Proof.
  destruct (m !! e) as [a|] eqn:E.
  - rewrite (sinks_map_delete f x e a m E). lia.
  - by rewrite delete_id.
Qed.

Lemma sinks_timers_delete x ts i dt :
  ts !! i = Some dt →
  count x (sinks_timers ts) =
  (count x (sinks_timers [dt]) + count x (sinks_timers (delete i ts)))%nat.
Proof.
  intros H. unfold sinks_timers.
  rewrite (count_perm x _ _ (bind_Permutation _ _ _ (delete_Permutation ts i dt H))).
  simpl. by rewrite app_nil_r, count_app.
Qed.

Lemma weight_eq x s s' :
  history s' = history s → jobs s' = jobs s → running s' = running s →
  timers s' = timers s → objs s' = objs s → weight x s' = weight x s.
Proof. unfold weight. by intros -> -> -> -> ->. Qed.

Lemma sinks_jobs_snoc js j : sinks_jobs (js ++ [j]) = sinks_jobs js ++ sinks_jobs [j].
Proof. unfold sinks_jobs. by rewrite bind_app. Qed.

Lemma sinks_timers_snoc ts dt : sinks_timers (ts ++ [dt]) = sinks_timers ts ++ sinks_timers [dt].
Proof. unfold sinks_timers. by rewrite bind_app. Qed.

Lemma weight_find x o s : weight x (findMostImportant o s) = weight x s.
Proof.
  destruct o as [l|].
  - unfold weight. simpl. rewrite sinks_jobs_snoc, count_app. unfold count. simpl. lia.
  - destruct (findMostImportant_selection s) as [|d| |l i p _]; unfold weight; simpl.
    + done.
    + rewrite sinks_timers_snoc, count_app. unfold count. simpl. lia.
    + done.
    + rewrite sinks_jobs_snoc, count_app. unfold count. simpl. lia.
Qed.

Lemma weight_heat x s : weight x (heat s) = weight x s.
Proof.
  unfold heat. destruct (ignoreOverallOverheat (params s)); [done|].
  unfold weight. simpl. rewrite sinks_timers_snoc, count_app. unfold count. simpl. lia.
Qed.

Lemma weight_created x k request callback rn s l s1 :
  created k request callback rn s l s1 →
  (weight x s1 <= count x [callback] + weight x s)%nat.
Proof.
  intros [l0 q Hget Hq|Hnone]; unfold weight; simpl.
  - rewrite sinks_map_insert, (sinks_map_delete sinks_queued x l0 q (objs s) Hq).
    unfold sinks_queued. simpl. rewrite fmap_app, count_app. simpl. lia.
  - destruct (getRule_frame rn s) as (_ & -> & _ & _ & _ & -> & -> & -> & _ & -> & _).
    rewrite sinks_map_insert.
    pose proof (sinks_map_delete_le sinks_queued x l0 (objs s)).
    unfold sinks_queued at 1. simpl. lia.
Qed.

Lemma weight_add x request callback k rn s :
  (weight x (add request callback k rn s) <= count x [callback] + weight x s)%nat.
Proof.
  unfold add.
  pose proof (createQueue_created k request callback rn s) as Hcr.
  destruct (createQueue k request callback rn s) as [l s1]. simpl in Hcr.
  apply (weight_created x) in Hcr.
  destruct (pending s1); [done|]. unfold execute. rewrite weight_find. done.
Qed.

Lemma weight_step x ev s s' :
  step ev s = Some s' → (weight x s' <= count x (submitted [ev]) + weight x s)%nat.
Proof.
  intros Hstep.
  destruct ev as [fn cb k rn| |b|e d|e o|i|t]; simpl in Hstep.
  - injection Hstep as <-. apply weight_add.
  - injection Hstep as <-. simpl. by rewrite (weight_eq x s (clear s)).
  - destruct (jobs s) as [|[l0|l0 it0] js] eqn:Hj; [done| |].
    + destruct (shift_resume_shifted l0 (set_jobs (λ _, js) s) _ Hstep) as [|q r item rest Hq Hd Hr].
      * unfold weight. simpl. rewrite Hj. simpl. lia.
      * unfold weight. simpl in *. rewrite Hj. simpl.
        rewrite sinks_jobs_snoc, sinks_timers_snoc, !count_app, sinks_map_insert.
        rewrite (sinks_map_delete sinks_queued x l0 q (objs s) Hq).
        change (sinks_queued q') with (item_callback <$> rest).
        change (sinks_queued q) with (item_callback <$> data q). rewrite Hd.
        simpl. rewrite !count_cons, !count_nil.
        change (list_fmap _ _ item_callback rest) with (item_callback <$> rest). lia.
    + injection Hstep as <-. unfold execute_resume. destruct (sync_throw b) as [err|].
      * unfold weight. simpl. rewrite Hj. simpl. rewrite ?count_app, ?count_cons, ?count_nil. lia.
      * unfold execute. rewrite weight_find.
        match goal with |- context [heat ?a] =>
          rewrite (weight_eq x (heat a) (set_pending true (heat a))) by done;
          rewrite (weight_heat x a) end.
        unfold weight. simpl. rewrite Hj. simpl. rewrite sinks_map_insert.
        pose proof (sinks_map_delete_le sinks_running x (fresh s) (running s)).
        unfold sinks_running at 1. simpl. rewrite ?count_app, ?count_cons, ?count_nil.
        lia.
  - destruct (running s !! e) as [r|] eqn:He; simpl in Hstep; [|done]. injection Hstep as <-.
    unfold weight. simpl. rewrite sinks_map_insert.
    rewrite (sinks_map_delete sinks_running x e r (running s) He).
    unfold sinks_running at 1 3. simpl. lia.
  - destruct (running s !! e) as [r|] eqn:He; simpl in Hstep; [|done]. injection Hstep as <-.
    unfold settle. destruct o; [destruct (retryState r)|]; unfold weight; simpl;
      rewrite (sinks_map_delete sinks_running x e r (running s) He);
      rewrite ?sinks_timers_snoc; unfold sinks_running at 2, sinks_timers, sinks_called; simpl;
      rewrite ?count_app, ?count_cons, ?count_nil; lia.
  - destruct (jobs s) as [|] eqn:Hj; [|done].
    destruct (timers s !! i) as [[due t]|] eqn:Ht; [|done].
    destruct (Qle_bool due (now s)); [|done]. injection Hstep as <-.
    assert (Hw0 : weight x s = (count x (sinks_timers [(due, t)]) +
                                weight x (set_timers (delete i) s))%nat).
    { rewrite (Nat.add_comm _ (weight x (set_timers (delete i) s))).
      remember (sinks_timers [(due, t)]) as T. unfold weight. simpl.
      rewrite (sinks_timers_delete x _ _ _ Ht). subst T. lia. }
    rewrite Hw0. simpl submitted.
    destruct t as [l0 c|last| |l0 it0]; unfold fire.
    + simpl objs. destruct (objs s !! l0) as [q|] eqn:Hq; [|lia].
      assert (∀ s2, history s2 = history s → jobs s2 = jobs s → running s2 = running s →
                timers s2 = delete i (timers s) →
                objs s2 = <[l0 := with_cooldown (now s + Math_max (cooldown q - c) 0) q]> (objs s) →
                weight x s2 = weight x (set_timers (delete i) s)) as Hsame.
      { intros s2 E1 E2 E3 E4 E5. unfold weight. rewrite E1, E2, E3, E4, E5. simpl.
        rewrite sinks_map_insert, (sinks_map_delete sinks_queued x l0 q (objs s) Hq).
        done. }
      simpl. destruct (length (data q) =? 0)%nat; rewrite Hsame by done; lia.
    + rewrite (weight_eq x (set_timers (delete i) s)) by done. lia.
    + rewrite weight_find. lia.
    + simpl objs. destruct (objs s !! l0) as [q|] eqn:Hq.
      * pose proof (weight_add x (item_request it0) (item_callback it0) (key q) (ruleName q)
                      (set_timers (delete i) s)).
        unfold sinks_timers. simpl. lia.
      * lia.
  - destruct (Qle_bool (now s) t); [|done]. injection Hstep as <-.
    simpl. by rewrite (weight_eq x s (set_now t s)).
Qed.

Lemma weight_run x evs s s' :
  run evs s = Some s' → (weight x s' <= count x (submitted evs) + weight x s)%nat.
Proof.
  revert s. induction evs as [|ev evs IH]; intros s Hrun; simpl in Hrun.
  - injection Hrun as <-. lia.
  - destruct (step ev s) as [s1|] eqn:E; [|done]. simpl in Hrun.
    specialize (IH _ Hrun). pose proof (weight_step x _ _ _ E) as H1.
    assert (submitted (ev :: evs) = submitted [ev] ++ submitted evs) as ->.
    { unfold submitted. simpl. by rewrite app_nil_r. }
    rewrite count_app. lia.
Qed.

Lemma sinks_called_called h : sinks_called h = item_callback <$> called h.
Proof.
  induction h as [|[l it|t l it w|l it r] h IH]; [done|done|done|].
  change (item_callback it :: sinks_called h = item_callback it :: (item_callback <$> called h)).
  by rewrite IH.
Qed.

(** ** Schedulers sharing a [rules] object *)

Lemma add_new_key_rules request callback k rn s :
  Map_get k (queue s) = None → rules_get rn s = None →
  rules (params (add request callback k rn s)) =
  <[rn := rules_get (default_rule (params s)) s]> (rules (params s)).
Proof.
  intros Hget Hrn. unfold add.
  pose proof (createQueue_created k request callback rn s) as Hcr.
  destruct (createQueue k request callback rn s) as [l s1]. simpl in Hcr.
  assert (rules (params s1) = <[rn := rules_get (default_rule (params s)) s]> (rules (params s)))
    as <-.
  { destruct Hcr as [l q Hget' Hq|Hnone]; [congruence|]. simpl.
    unfold getRule. by rewrite Hrn. }
  destruct (pending s1); [done|]. unfold execute.
  by destruct (findMostImportant_frame (Some l) (set_pending true s1))
    as (_ & _ & _ & _ & -> & _).
Qed.

(** ** Empty partitions *)

Lemma swept_mono s s' :
  queue s' = queue s → objs s' = objs s → (∀ x, x ∈ timers s → x ∈ timers s') →
  swept s → swept s'.
Proof.
  intros Eq Eo Ht H k l q Hin Hq Hd. rewrite Eq in Hin. rewrite Eo in Hq.
  destruct (H k l q Hin Hq Hd) as (due & c & Hx). eauto.
Qed.

Lemma swept_find o s : swept s → swept (findMostImportant o s).
Proof.
  intros H. destruct (findMostImportant_frame o s) as (Eo & _ & _ & Eq & _).
  eapply swept_mono; [done|done| |done].
  destruct o as [l|]; [done|].
  destruct (timers_findMostImportant s) as [->|[d ->]]; [done|].
  intros x Hx. apply elem_of_app. by left.
Qed.

Lemma swept_add request callback k rn s :
  store_wf s → swept s → swept (add request callback k rn s).
Proof.
  intros Hwf H. unfold add.
  pose proof (createQueue_created k request callback rn s) as Hcr.
  destruct (createQueue k request callback rn s) as [l s1]. simpl in Hcr.
  assert (swept s1) as H1.
  { destruct (created_frame _ _ _ _ _ _ _ Hcr) as (_ & Et & _).
    destruct (created_data _ _ _ _ _ _ _ Hwf Hcr) as [(q1 & it & Hq1 & _ & _ & _ & Hd1) Hother].
    intros k' l' q' Hin Hq' Hd'. rewrite Et.
    destruct (decide (l' = l)) as [->|Hne].
    { rewrite Hq1 in Hq'. injection Hq' as <-. rewrite Hd1 in Hd'. by destruct (data_of s l). }
    rewrite Hother in Hq' by done. apply (H k' l' q'); [|done..].
    destruct Hcr as [l q Hget Hq|Hnone]; simpl in Hin.
    - by rewrite (Map_set_present _ _ _ Hget) in Hin.
    - destruct (getRule_frame rn s) as (Eq & _). rewrite Eq in Hin.
      assert (Map_get k (queue s) = None) as Hget.
      { destruct (Map_get k (queue s)) as [l1|] eqn:E; [|done]. simpl in Hnone.
        destruct (wf_objs _ Hwf k l1 (Map_get_Some _ _ _ E)) as (q1' & Hq1' & _).
        by rewrite Hq1' in Hnone. }
      rewrite (Map_set_absent _ _ _ Hget) in Hin.
      apply elem_of_app in Hin as [?|[= _ ?]%list_elem_of_singleton]; done. }
  destruct (pending s1); [done|]. by apply swept_find.
Qed.

Lemma elem_of_delete_other {A} (l : list A) i x y :
  l !! i = Some y → x ∈ l → x ≠ y → x ∈ delete i l.
Proof.
  intros Hi Hx Hne. apply (delete_Permutation l i y) in Hi.
  rewrite Hi in Hx. by apply elem_of_cons in Hx as [?|?].
Qed.

Lemma swept_step ev s s' : loop_inv s → swept s → step ev s = Some s' → swept s'.
Proof.
  intros Hinv Hsw Hstep. pose proof (li_store _ Hinv) as Hwf.
  destruct ev as [fn cb k rn| |b|e d|e o|i|t]; simpl in Hstep.
  - injection Hstep as <-. by apply swept_add.
  - injection Hstep as <-. by intros k l q ?%elem_of_nil.
  - destruct (jobs s) as [|[l0|l0 it0] js] eqn:Hj; [done| |].
    + destruct (shift_resume_shifted l0 (set_jobs (λ _, js) s) _ Hstep) as [|q r item rest Hq Hd Hr].
      * by eapply swept_mono.
      * intros k l q1 Hin Hq1 Hd1. simpl in *.
        destruct (decide (l = l0)) as [->|Hne].
        -- eexists _, _. apply elem_of_app. right. left.
        -- rewrite lookup_insert_ne in Hq1 by done.
           destruct (Hsw k l q1 Hin Hq1 Hd1) as (due & c & Hx).
           exists due, c. apply elem_of_app. by left.
    + injection Hstep as <-. destruct (execute_resume_frame l0 it0 b (set_jobs (λ _, js) s)) as (Eo & _ & Eq & _).
      eapply swept_mono; [done|done| |done].
      unfold execute_resume. destruct (sync_throw b); [done|]. unfold execute.
      intros x Hx.
      match goal with |- context [findMostImportant None ?a] =>
        assert (x ∈ timers a) as Hx1; [|
          destruct (timers_findMostImportant a) as [->|[d0 ->]];
            [done|apply elem_of_app; by left]] end.
      unfold heat. simpl. destruct (ignoreOverallOverheat (params s)); [done|].
      simpl. apply elem_of_app. by left.
  - destruct (running s !! e) as [r|]; simpl in Hstep; [|done]. injection Hstep as <-.
    by eapply swept_mono.
  - destruct (running s !! e) as [r|]; simpl in Hstep; [|done]. injection Hstep as <-.
    eapply swept_mono; [| | |done]; unfold settle;
      destruct o; [destruct (retryState r)| |destruct (retryState r)| |destruct (retryState r)|];
      try done.
    simpl. intros x Hx. apply elem_of_app. by left.
  - destruct (jobs s) as [|] eqn:Hj; [|done].
    destruct (timers s !! i) as [[due t]|] eqn:Ht; [|done].
    destruct (Qle_bool due (now s)) eqn:Hdue; [|done]. injection Hstep as <-.
    destruct t as [l0 c|last| |l0 it0]; unfold fire.
    + simpl objs. destruct (objs s !! l0) as [q0|] eqn:Hq0.
      * assert (Hothers : ∀ k l q, (k, l) ∈ queue s → l ≠ l0 → objs s !! l = Some q →
                  data q = [] → ∃ due' c', (due', CooldownT l c') ∈ delete i (timers s)).
        { intros k l q Hin Hne Hq Hd. destruct (Hsw k l q Hin Hq Hd) as (due' & c' & Hx).
          exists due', c'. eapply elem_of_delete_other; [done|done|congruence]. }
        simpl. destruct (length (data q0) =? 0)%nat eqn:Hlen; simpl.
        -- intros k l q [Hin Hk]%Map_delete_elem Hq Hd. simpl in *.
           destruct (decide (l = l0)) as [->|Hne].
           ++ destruct (wf_objs _ Hwf _ _ Hin) as (q1 & Hq1 & Hkey).
              rewrite Hq0 in Hq1. injection Hq1 as <-. done.
           ++ rewrite lookup_insert_ne in Hq by done. by eapply Hothers.
        -- intros k l q Hin Hq Hd. simpl in *.
           destruct (decide (l = l0)) as [->|Hne].
           ++ rewrite lookup_insert_eq in Hq. injection Hq as <-. simpl in Hd.
              rewrite Hd in Hlen. done.
           ++ rewrite lookup_insert_ne in Hq by done. by eapply Hothers.
      * intros k l q Hin Hq Hd. simpl in *.
        destruct (Hsw k l q Hin Hq Hd) as (due' & c' & Hx).
        exists due', c'. eapply elem_of_delete_other; [done|done|].
        intros [= _ -> _]. congruence.
    + intros k l q Hin Hq Hd. simpl in *.
      destruct (Hsw k l q Hin Hq Hd) as (due' & c' & Hx).
      exists due', c'. by eapply elem_of_delete_other.
    + apply swept_find. intros k l q Hin Hq Hd. simpl in *.
      destruct (Hsw k l q Hin Hq Hd) as (due' & c' & Hx).
      exists due', c'. by eapply elem_of_delete_other.
    + assert (swept (set_timers (delete i) s)) as Hsw0.
      { intros k l q Hin Hq Hd. simpl in *.
        destruct (Hsw k l q Hin Hq Hd) as (due' & c' & Hx).
        exists due', c'. by eapply elem_of_delete_other. }
      simpl objs. destruct (objs s !! l0) as [q0|]; [|done].
      apply swept_add; [|done]. by eapply (store_wf_eq s).
  - destruct (Qle_bool (now s) t); [|done]. injection Hstep as <-. by eapply swept_mono.
Qed.

Lemma swept_run evs s s' : loop_inv s → swept s → run evs s = Some s' → swept s'.
Proof.
  revert s. induction evs as [|ev evs IH]; simpl; intros s Hinv Hsw Hrun.
  - by injection Hrun as <-.
  - destruct (step ev s) as [s1|] eqn:E; [|done]. simpl in Hrun.
    eapply (IH s1); [by eapply loop_inv_step| |done]. by eapply swept_step.
Qed.

(** ** Retries and [clear] *)

(** What [add] does to an empty store: it makes a partition holding the
    new item alone. *)
Lemma add_to_empty_store request callback k rn s :
  store_wf s → queue s = [] →
  ∃ it q,
    history (add request callback k rn s) = OEnqueue (fresh s) it :: history s ∧
    item_request it = request ∧ item_callback it = callback ∧
    queue (add request callback k rn s) = [(k, fresh s)] ∧
    objs (add request callback k rn s) !! fresh s = Some q ∧
    key q = k ∧ ruleName q = rn ∧ data q = [it] ∧ cooldown q = now s.
Proof.
  intros Hwf Hq. unfold add.
  pose proof (createQueue_created k request callback rn s) as Hcr.
  destruct (createQueue k request callback rn s) as [l s1]. simpl in Hcr.
  assert (∃ it q, l = fresh s ∧ history s1 = OEnqueue (fresh s) it :: history s ∧
            item_request it = request ∧ item_callback it = callback ∧
            queue s1 = [(k, fresh s)] ∧ objs s1 !! fresh s = Some q ∧
            key q = k ∧ ruleName q = rn ∧ data q = [it] ∧ cooldown q = now s)
    as (it & q & -> & Hh & H1 & H2 & H3 & H4 & H5 & H6 & H7 & H8).
  { destruct Hcr as [l q Hget Hq'|Hnone]; [by rewrite Hq in Hget|].
    destruct (getRule_frame rn s) as (Eq & Eo & Ef & _ & _ & _ & _ & Eh & _).
    eexists item, q. simpl. rewrite Eh, Eq, Hq, lookup_insert_eq. by split_and!. }
  exists it, q.
  destruct (pending s1); [by split_and!|]. unfold execute.
  destruct (findMostImportant_frame (Some (fresh s)) (set_pending true s1))
    as (-> & _ & _ & -> & _).
  rewrite findMostImportant_history. by split_and!.
Qed.

(** ** How long the overheat lasts *)

Lemma lasting_mono H T s s' :
  ignoreOverallOverheat (params s') = ignoreOverallOverheat (params s) →
  heatPart s' = heatPart s → overheat s' = overheat s → now s <= now s' →
  (∀ x, x ∈ timers s' → x ∈ timers s ∨
        ∃ due, x = (due, FindT) ∨ (∃ l c, x = (due, CooldownT l c)) ∨
               ∃ l it, x = (due, RetryT l it)) →
  lasting H T s → lasting H T s'.
Proof.
  intros Ei Eh Eo Hn Ht [H1 H2 H3 H4 H5]. split.
  - congruence.
  - congruence.
  - by rewrite Eo.
  - lra.
  - intros due last Hin.
    destruct (Ht _ Hin) as [?|(d & [?|[(l & c & ?)|(l & it & ?)]])]; [eauto|done..].
Qed.

Ltac lasting_same Hl :=
  eapply lasting_mono; [..|exact Hl]; simpl; try done; try apply Qle_refl;
  try (intros ? ?; by left).

Lemma lasting_find H T s : lasting H T s → lasting H T (findMostImportant None s).
Proof.
  intros Hl. destruct (findMostImportant_frame None s) as (_&_&_&_&Ep&_&En&Eo&_).
  eapply lasting_mono; [by rewrite Ep|apply heatPart_findMostImportant|done|
                        rewrite En; apply Qle_refl| |done].
  intros x Hx. destruct (timers_findMostImportant s) as [E|[d E]]; rewrite E in Hx; [by left|].
  apply elem_of_app in Hx as [Hx|Hx%list_elem_of_singleton]; [by left|]. right. eauto.
Qed.

Lemma lasting_add H T request callback k rn s :
  lasting H T s → lasting H T (add request callback k rn s).
Proof.
  intros Hl.
  destruct (add_frame request callback k rn s) as ((_&_&_&_&Ei&Eh) & Eo & En & Et & _).
  eapply lasting_mono; [done|done|done|rewrite En; apply Qle_refl| |done].
  intros x Hx. rewrite Et in Hx. by left.
Qed.

Lemma lasting_heat H T s : lasting H T s → lasting H T (heat s).
Proof.
  intros [H1 H2 H3 H4 H5]. unfold heat. rewrite H1. split; simpl; try done.
  - by rewrite H2.
  - intros due last [?|[= <- <-]%list_elem_of_singleton]%elem_of_app; [eauto|apply Qle_refl].
Qed.

Lemma lasting_step H T ev s s' : lasting H T s → step ev s = Some s' → lasting H T s'.
Proof.
  intros Hl Hstep.
  destruct ev as [fn cb k rn| |b|e d|e o|i|t]; simpl in Hstep.
  - injection Hstep as <-. by apply lasting_add.
  - injection Hstep as <-. lasting_same Hl.
  - destruct (jobs s) as [|[l0|l0 it0] js] eqn:Hj; [done| |].
    + destruct (shift_resume_shifted l0 (set_jobs (λ _, js) s) _ Hstep) as [|q r item rest Hq Hd Hr].
      * lasting_same Hl.
      * eapply lasting_mono; [..|exact Hl]; try done; [apply Qle_refl|].
        simpl. intros x [Hx|Hx%list_elem_of_singleton]%elem_of_app; [by left|].
        right. eexists. right. left. eauto.
    + injection Hstep as <-. unfold execute_resume. destruct (sync_throw b); [lasting_same Hl|].
      unfold execute. set (a := set_running _ _).
      assert (lasting H T a) as Hla by lasting_same Hl.
      apply lasting_heat in Hla. apply lasting_find. lasting_same Hla.
  - destruct (running s !! e) as [r|]; simpl in Hstep; [|done]. injection Hstep as <-.
    lasting_same Hl.
  - destruct (running s !! e) as [r|]; simpl in Hstep; [|done]. injection Hstep as <-.
    unfold settle. destruct o; [destruct (retryState r)|]; [|lasting_same Hl..].
    eapply lasting_mono; [..|exact Hl]; try done; [apply Qle_refl|].
    simpl. intros x [Hx|Hx%list_elem_of_singleton]%elem_of_app; [by left|].
    right. eexists. right. right. eauto.
  - destruct (jobs s) as [|] eqn:Hj; [|done].
    destruct (timers s !! i) as [[due t]|] eqn:Ht; [|done].
    destruct (Qle_bool due (now s)) eqn:Hdue; [|done]. injection Hstep as <-.
    apply Qle_bool_iff in Hdue.
    assert (Hl0 : lasting H T (set_timers (delete i) s)).
    { eapply lasting_mono; [..|exact Hl]; try done; [apply Qle_refl|].
      simpl. intros x Hx%elem_of_delete_timer. by left. }
    destruct t as [l0 c|last| |l0 it0]; unfold fire.
    + destruct (objs (set_timers (delete i) s) !! l0) as [q|]; [|done].
      simpl. destruct (length (data q) =? 0)%nat; lasting_same Hl0.
    + destruct Hl0 as [H1 H2 H3 H4 H5]. split; simpl in *; try done.
      apply Qle_trans with (overheat s); [done|].
      apply Math_max_shift. apply Qle_trans with due; [|done].
      apply (la_timers _ _ _ Hl due last). by eapply list_elem_of_lookup_2.
    + by apply lasting_find.
    + destruct (objs (set_timers (delete i) s) !! l0) as [q|]; [|done].
      by apply lasting_add.
  - destruct (Qle_bool (now s) t) eqn:E; [|done]. injection Hstep as <-.
    apply Qle_bool_iff in E. destruct Hl as [H1 H2 H3 H4 H5].
    split; simpl; try done. lra.
Qed.

Lemma lasting_run H T evs s s' : lasting H T s → run evs s = Some s' → lasting H T s'.
Proof.
  revert s. induction evs as [|ev evs IH]; simpl; intros s Hl Hrun; [by injection Hrun as <-|].
  destruct (step ev s) as [s1|] eqn:E; [|done]. simpl in Hrun.
  eapply IH; [|done]. by eapply lasting_step.
Qed.

(** ** Names inherited from [Object.prototype] *)

(** An inherited name that is no own property of [rules] stands for the
    inherited value. *)
Lemma rules_get_inherited name s :
  name ∈ Object_prototype → rules (params s) !! name = None →
  rules_get name s = Some (Proto name).
Proof. intros Hin Hn. unfold rules_get. by rewrite Hn, bool_decide_eq_true_2. Qed.

(** No step makes it an own property. *)
Lemma inherited_step name ev s s' :
  name ∈ Object_prototype → rules (params s) !! name = None →
  step ev s = Some s' → rules (params s') !! name = None.
Proof.
  intros Hin Hn Hstep.
  destruct (step_objs_effect _ _ _ Hstep)
    as [Eo Ep|l0 q0 q0' Hq0 Eo Ep H1 H2 H3 H4 Hl|k rq cb rn s0 l1 s1 Eo0 Ep0 Ef _ Er0 Hcr Eo Ep];
    rewrite Ep; [done|done|].
  assert (Hn0 : rules (params s0) !! name = None) by (by rewrite Ep0).
  destruct Hcr as [l q Hget Hq|Hnone]; [done|]. simpl.
  unfold getRule. destruct (rules_get rn s0) as [v|] eqn:E; [done|]. simpl.
  rewrite lookup_insert_ne; [done|]. intros ->.
  by rewrite (rules_get_inherited name s0) in E.
Qed.

Lemma inherited_run name evs s s' :
  name ∈ Object_prototype → rules (params s) !! name = None →
  run evs s = Some s' → rules (params s') !! name = None.
Proof.
  intros Hin. revert s. induction evs as [|ev evs IH]; simpl; intros s Hn Hrun.
  - by injection Hrun as <-.
  - destruct (step ev s) as [s1|] eqn:E; [|done]. simpl in Hrun.
    eapply IH; [|done]. by eapply inherited_step.
Qed.

(** ** The run time left alone *)










































(** * The claims *)









(** C6 at the failing input: a rule name that is a property of
    [Object.prototype], such as [toString], is not registered in the
    default configuration, yet [getRule] neither registers it nor returns
    the default rule: [this.params.rules[name]] finds the inherited
    function, which is truthy, so that value is returned and nothing is
    assigned, in this and in every later state; a novel name such as [lol]
    is registered with the default rule.  The inherited value is no rule
    object: a partition made under that name is bound to it, and the window
    [setCooldown] computes for it is [NaN]. *)
Lemma getRule_inherited_name :
  (∀ name s, name ∈ Object_prototype → rules (params s) !! name = None →
     getRule name s = (Some (Proto name), s) ∧
     rule_objs s !! Proto name = None ∧
     ∀ evs s', run evs s = Some s' →
       rules (params s') !! name = None ∧ getRule name s' = (Some (Proto name), s')) ∧
  "toString"%string ∈ Object_prototype ∧
  rules defaultParams !! "toString"%string = None ∧
  rules_get (default_rule defaultParams) (constructor defaultParams defaultRules 0)
  = Some (Ref 0) ∧
  getRule "lol" (constructor defaultParams defaultRules 0)
  = (Some (Ref 0),
     set_rules (<["lol"%string := Some (Ref 0)]>) (constructor defaultParams defaultRules 0)) ∧
  ∃ s q,
    run [ERequest 1 1 None (Some "toString"%string);
         ERequest 2 2 None (Some "toString"%string)]
      (constructor defaultParams defaultRules 0) = Some s ∧
    rules (params s) !! "toString"%string = None ∧
    objs s !! 0%nat = Some q ∧ rule q = Some (Proto "toString") ∧
    length (data q) = 2%nat ∧ jobs s = [ShiftK 0] ∧
    setCooldown 0 s = NotANumber.
Proof.
  split_and!.
  - intros name s Hin Hn. split_and!.
    + unfold getRule. by rewrite rules_get_inherited.
    + done.
    + intros evs s' Hrun. pose proof (inherited_run _ _ _ _ Hin Hn Hrun) as Hn'.
      split; [done|]. unfold getRule. by rewrite rules_get_inherited.
  - apply (bool_decide_unpack _). vm_compute. reflexivity.
  - reflexivity.
  - reflexivity.
  - reflexivity.
  - eexists _, _. split_and!; [vm_compute; reflexivity|reflexivity..].
Qed.

(** C7, as stated, fails in the test "should clear queues": the first
    item is still queued when [clear()] is called, yet the shift started by
    its submission pops it afterwards and its completion is invoked. *)
Lemma clear_in_flight_counterexample :
  ∃ s s2 it,
    run two_requests (constructor q1Params q1Rules 0) = Some s ∧
    totalLength s = 2%nat ∧ ("1"%string, O) ∈ queue s ∧ it ∈ data_of s 0 ∧
    totalLength (clear s) = 0%nat ∧
    run [ERunJob returns; ERunJob returns; ESettle 4 (Resolved 7)] (clear s) = Some s2 ∧
    OCall 0 it (Resolved 7) ∈ history s2.
Proof.
  eexists _, _, _. split_and!.
  - vm_compute. reflexivity.
  - reflexivity.
  - left.
  - left.
  - reflexivity.
  - vm_compute. reflexivity.
  - left.
Qed.

(** C7, amended: [clear()] empties the store at once, so [totalLength] is
    0 right after the call.  An item that was still queued is never popped
    and its completion callback is never invoked afterwards, unless it is
    the head of the partition that a resumed [shift] already holds: that
    one item is popped when the shift resumes. *)
Theorem clear_drops_queued p ro t0 evs s :
  (∀ i r, ro !! i = Some r → rule_ok r) →
  run evs (constructor p ro t0) = Some s →
  totalLength (clear s) = 0%nat ∧
  (∀ evs' s2 k l it,
     run evs' (clear s) = Some s2 →
     (k, l) ∈ queue s → it ∈ data_of s l →
     ¬ (ShiftK l ∈ jobs s ∧ head (data_of s l) = Some it) →
     (∀ t l' w, ODispatch t l' it w ∉ history s2) ∧
     (∀ l' r, OCall l' it r ∉ history s2)) ∧
  (∀ l js b q it rest r,
     jobs s = ShiftK l :: js → objs s !! l = Some q → data q = it :: rest →
     rules_get (ruleName q) s ≫= (rule_objs s !!.) = Some r →
     ∃ s', step (ERunJob b) (clear s) = Some s' ∧
           history s' = ODispatch (now s) l it (limit r * 1000 / rate r) :: history s).
Proof.
  intros Hro Hrun.
  pose proof (loop_inv_run _ _ _ (loop_inv_constructor p ro t0 Hro) Hrun) as Hinv.
  pose proof (hist_inv_run _ _ _ (hist_inv_constructor p ro t0) Hrun) as Hhist.
  assert (Hinv1 : loop_inv (clear s)) by (by apply (loop_inv_step EClear s)).
  assert (Hhist1 : hist_inv (clear s)) by (by apply (hist_inv_step EClear s)).
  split_and!; [done| |].
  - intros evs' s2 k l it Hrun' Hin Hit Hnot.
    pose proof (loop_inv_run _ _ _ Hinv1 Hrun') as Hinv2.
    pose proof (hist_inv_run _ _ _ Hhist1 Hrun') as Hhist2.
    assert (Hsc : since_clear l s s2).
    { eapply since_clear_run; [exact Hinv1| |exact Hrun'].
      split.
      - split; [|by intros k' ?%elem_of_nil].
        destruct (wf_objs _ (li_store _ Hinv) k l Hin) as (q & Hq & _).
        apply (wf_fresh _ (li_store _ Hinv)) in Hq. done.
      - left. by split_and!. }
    assert (Hnd : NoDup (enqueued l (history s))) by apply enqueued_NoDup, Hhist.
    rewrite (hi_fifo _ Hhist l) in Hnd. apply NoDup_app in Hnd as (_ & Hdisj & _).
    assert (Hnp : it ∉ popped l (history s)) by (intros H; by apply (Hdisj it)).
    assert (Hfacts : (it ∉ popped l (history s2)) ∧ it ∈ enqueued l (history s2)).
    { rewrite (hi_fifo _ Hhist2 l).
      destruct Hsc as [_ [(H1 & H2 & _)|(H1 & _ & it0 & H3 & H4)]].
      - rewrite H1, H2. split; [done|]. apply elem_of_app. by right.
      - rewrite H4. rewrite H3 in Hit.
        assert (Hne : it ≠ it0).
        { intros ->. apply Hnot. split; [done|]. by rewrite H3. }
        split.
        + intros [Hx|Hx%list_elem_of_singleton]%elem_of_app; done.
        + apply elem_of_cons in Hit as [->|Hit]; [done|].
          apply elem_of_app. by right. }
    destruct Hfacts as [Hnp2 Henq].
    assert (Hany : ∀ l', it ∉ popped l' (history s2)).
    { intros l' H. assert (it ∈ enqueued l' (history s2)) as Henq'.
      { rewrite (hi_fifo _ Hhist2 l'). apply elem_of_app. by left. }
      assert (l = l') as <- by (eapply enqueued_partition; [apply Hhist2|done..]).
      done. }
    split.
    + intros t l' w H. apply (Hany l'). by eapply popped_dispatch.
    + intros l' r H. apply (Hany l'). by eapply hi_calls.
  - intros l js b q it rest r Hj Hq Hd Hr. simpl. rewrite Hj.
    destruct (rules_get (ruleName q) s) as [v|] eqn:Ev; [|done]. simpl in Hr.
    rewrite (shift_resume_pop l _ q v r it rest) by done.
    eexists. split; [done|]. done.
Qed.

Lemma clear_drops_queued_witness :
  ∃ s, run two_requests (constructor q1Params q1Rules 0) = Some s ∧
    totalLength (clear s) = 0%nat ∧
    (∀ evs' s2 k l it,
       run evs' (clear s) = Some s2 →
       (k, l) ∈ queue s → it ∈ data_of s l →
       ¬ (ShiftK l ∈ jobs s ∧ head (data_of s l) = Some it) →
       (∀ t l' w, ODispatch t l' it w ∉ history s2) ∧
       (∀ l' r, OCall l' it r ∉ history s2)) ∧
    (∀ l js b q it rest r,
       jobs s = ShiftK l :: js → objs s !! l = Some q → data q = it :: rest →
       rules_get (ruleName q) s ≫= (rule_objs s !!.) = Some r →
       ∃ s', step (ERunJob b) (clear s) = Some s' ∧
             history s' = ODispatch (now s) l it (limit r * 1000 / rate r) :: history s).
Proof.
  eexists. split; [vm_compute; reflexivity|].
  apply (clear_drops_queued q1Params q1Rules 0 two_requests).
  - exact q1Rules_ok.
  - vm_compute. reflexivity.
Defined.

(** C8 at the failing input: with the overall overheat in force, an
    operation that throws before returning its promise has been popped and
    has its completion invoked, but [heat] is not reached, the overheat
    timestamp stays as it was and the scheduler is not overheated; when
    the same operation returns, the timestamp is [now + 100]. *)
Lemma heat_skipped_on_sync_throw :
  ∃ s it,
    run [ERequest 1 1 None None; ERunJob returns]
      (constructor heatParams defaultRules 0) = Some s ∧
    jobs s = [ExecK 0 it] ∧ ignoreOverallOverheat (params s) = false ∧
    (∃ t w, history s = [ODispatch t 0 it w; OEnqueue 0 it]) ∧
    (∃ s', step (ERunJob (throws 9)) s = Some s' ∧
           history s' = OCall 0 it (Rejected 9) :: history s ∧
           overheat s' = overheat s ∧ isOverheated s' = false ∧
           timers s' = timers s ∧ jobs s' = [] ∧ pending s' = true) ∧
    (∃ s', step (ERunJob returns) s = Some s' ∧
           overheat s' == now s + limit (overall heatParams) / rate (overall heatParams) * 1000 ∧
           isOverheated s' = true).
Proof.
  eexists _, _. split_and!.
  - vm_compute. reflexivity.
  - vm_compute. reflexivity.
  - reflexivity.
  - eexists _, _. vm_compute. reflexivity.
  - eexists. split_and!; [vm_compute; reflexivity|reflexivity..].
  - eexists. split_and!; [vm_compute; reflexivity|reflexivity..].
Qed.




(** * Further properties *)

(** X1: at most one iteration of the dispatch loop is live in any state
    reached from a new scheduler, and none while [pending] is false; then no
    item is queued either. *)
Theorem single_dispatch_loop p ro t0 evs s :
  (∀ i r, ro !! i = Some r → rule_ok r) →
  run evs (constructor p ro t0) = Some s →
  (chain_count s <= 1)%nat ∧
  (pending s = false → chain_count s = 0%nat ∧ totalLength s = 0%nat).
Proof.
  intros Hro Hrun.
  pose proof (loop_inv_run _ _ _ (loop_inv_constructor p ro t0 Hro) Hrun) as Hinv.
  split; [apply Hinv|]. intros Hp. destruct (li_idle _ Hinv Hp) as [Hc Hidle].
  split; [done|]. unfold totalLength.
  assert (H : ∀ m acc, (∀ kv, kv ∈ m → queue_length s kv = 0%nat) →
            fold_left (λ len kv, (len + queue_length s kv)%nat) m acc = acc).
  { induction m as [|kv m IH]; simpl; intros acc Hall; [done|].
    rewrite IH; [|intros kv' Hin; apply Hall; by right].
    rewrite (Hall kv) by left. lia. }
  apply H. intros [k l] Hin. unfold queue_length. simpl.
  destruct (objs s !! l) as [q|] eqn:Eq; [|done].
  destruct (Hidle k l q Hin Eq) as [_ ->]. done.
Qed.

Lemma single_dispatch_loop_witness :
  ∃ s, run two_dispatches (constructor defaultParams defaultRules 0) = Some s ∧
       (chain_count s <= 1)%nat ∧
       (pending s = false → chain_count s = 0%nat ∧ totalLength s = 0%nat).
Proof.
  eexists. split; [vm_compute; reflexivity|].
  apply (single_dispatch_loop defaultParams defaultRules 0 two_dispatches).
  - exact defaultRules_ok.
  - vm_compute. reflexivity.
Defined.

(** X2: once an operation has thrown before returning its promise, the
    loop is not continued: whatever happens next, no item is ever popped
    again. *)
Theorem sync_throw_stops_the_loop p ro t0 evs s l it js b e s1 evs' s2 :
  (∀ i r, ro !! i = Some r → rule_ok r) →
  run evs (constructor p ro t0) = Some s →
  jobs s = ExecK l it :: js → sync_throw b = Some e →
  step (ERunJob b) s = Some s1 → run evs' s1 = Some s2 →
  pending s2 = true ∧
  ∀ t l' it' w, ODispatch t l' it' w ∈ history s2 → ODispatch t l' it' w ∈ history s.
Proof.
  intros Hro Hrun Hj Hthrow Hstep Hrun'.
  pose proof (loop_inv_run _ _ _ (loop_inv_constructor p ro t0 Hro) Hrun) as Hinv.
  destruct (loop_inv_pop_job _ _ _ Hinv Hj) as (_ & Hc0 & Hp & ->).
  simpl in Hstep. rewrite Hj in Hstep. injection Hstep as <-.
  unfold execute_resume in Hrun'. rewrite Hthrow in Hrun'.
  assert (Hst : stalled (observe (OCall l it (Rejected e)) (set_jobs (λ _, []) s))).
  { split; [done|]. exact Hc0. }
  destruct (stalled_run _ _ _ Hst Hrun') as [[Hp2 _] Hd]. split; [done|].
  intros t l' it' w Hin. apply Hd in Hin. simpl in Hin.
  by apply elem_of_cons in Hin as [?|?].
Qed.

Lemma sync_throw_stops_the_loop_witness :
  ∃ s s1 s2,
    run [ERequest 1 1 None None; ERunJob returns]
      (constructor defaultParams defaultRules 0) = Some s ∧
    step (ERunJob (throws 9)) s = Some s1 ∧ run after_throw s1 = Some s2 ∧
    totalLength s2 = 1%nat ∧ pending s2 = true ∧
    ∀ t l' it' w, ODispatch t l' it' w ∈ history s2 → ODispatch t l' it' w ∈ history s.
Proof.
  eexists _, _, _. split_and!.
  - vm_compute. reflexivity.
  - vm_compute. reflexivity.
  - vm_compute. reflexivity.
  - reflexivity.
  - reflexivity.
  - refine (proj2 (sync_throw_stops_the_loop defaultParams defaultRules 0
       [ERequest 1 1 None None; ERunJob returns] _ O (mkItem 1 1 1) [] (throws 9) 9 _
       after_throw _ defaultRules_ok _ _ _ _ _)).
    + vm_compute. reflexivity.
    + reflexivity.
    + reflexivity.
    + vm_compute. reflexivity.
    + vm_compute. reflexivity.
Defined.

(** X3: the callback of [setCooldown]'s timer removes whatever the store
    holds under the key of its partition when that partition's own FIFO is
    empty.  After [clear()] this drops the partition created since under
    the same key together with its pending items: in the run above the two
    items submitted after the clear are pushed but never popped, nothing is
    left that could pop them, and the scheduler reports itself drained. *)
Lemma stale_cooldown_timer_drops_new_partition :
  (∀ s l c q, objs s !! l = Some q → data q = [] →
     queue (fire (CooldownT l c) s) = Map_delete (key q) (queue s)) ∧
  ∃ s, run stale_timer_run (constructor q1Params q1Rules 0) = Some s ∧
       enqueued 3 (history s) = [mkItem 4 2 2; mkItem 5 3 3] ∧
       data_of s 3 = [mkItem 4 2 2; mkItem 5 3 3] ∧
       queue s = [] ∧ jobs s = [] ∧ timers s = [] ∧
       pending s = false ∧ totalLength s = 0%nat.
Proof.
  split.
  - intros s l c q Hq Hd. simpl. rewrite Hq. simpl. by rewrite Hd.
  - eexists. split_and!; [vm_compute; reflexivity|reflexivity..].
Qed.

(** X4: [totalLength] counts the items pushed and not yet popped of the
    partitions in the store.  In every state reached from a new scheduler,
    a step that pushes an item (a [request], or the re-submission of a
    retry) raises it by one; a step that pops an item lowers it by one when
    the partition is in the store, and leaves it as it is when the
    partition has left the store; [clear()] sets it to 0. *)
Theorem totalLength_counts p ro t0 evs s ev s' :
  (∀ i r, ro !! i = Some r → rule_ok r) →
  run evs (constructor p ro t0) = Some s →
  step ev s = Some s' →
  (∀ l it, history s' = OEnqueue l it :: history s → totalLength s' = S (totalLength s)) ∧
  (∀ t l it w, history s' = ODispatch t l it w :: history s →
     ((∃ k, (k, l) ∈ queue s) → totalLength s = S (totalLength s')) ∧
     ((∀ k, (k, l) ∉ queue s) → totalLength s' = totalLength s)) ∧
  (ev = EClear → totalLength s' = 0%nat).
Proof.
  intros Hro Hrun Hstep.
  pose proof (loop_inv_run _ _ _ (loop_inv_constructor p ro t0 Hro) Hrun) as Hinv.
  pose proof (li_store _ Hinv) as Hwf.
  split_and!.
  - intros l it Hh.
    destruct (step_push _ _ _ _ _ Hstep Hh) as (s0 & rq & cb & k & rn & -> & Eq & Eo & Ef & _).
    rewrite add_total; [|by eapply (store_wf_eq s)].
    f_equal. by apply totalLength_eq.
  - intros t l it w Hh.
    destruct (step_pop _ _ _ _ _ _ _ Hstep Hh) as (q & q' & Hq & Hd & Eq & Eo).
    split.
    + intros [k Hin].
      pose proof (total_insert s s' k l q q' Hwf Hin Hq Eq Eo) as H.
      rewrite Hd in H. simpl in H. lia.
    + intros Hout. by eapply total_insert_out.
  - intros ->. by injection Hstep as <-.
Qed.

Lemma totalLength_counts_witness :
  totalLength (request 2 2 None None
                 (request 1 1 None None (constructor defaultParams defaultRules 0))) =
  S (totalLength (request 1 1 None None (constructor defaultParams defaultRules 0))).
Proof.
  refine (proj1 (totalLength_counts defaultParams defaultRules 0 [ERequest 1 1 None None] _
            (ERequest 2 2 None None) _ defaultRules_ok _ _) 0%nat (mkItem 2 2 2) _).
  - reflexivity.
  - reflexivity.
  - vm_compute. reflexivity.
Defined.

(** X5: when [ignoreOverallOverheat] is set, [heat] does nothing: in
    every state reached from a new scheduler [this.overheat] still holds
    the time of construction and [isOverheated] is false. *)
Theorem isOverheated_ignored p ro t0 evs s :
  ignoreOverallOverheat p = true →
  run evs (constructor p ro t0) = Some s →
  isOverheated s = false ∧ overheat s = t0.
Proof.
  intros Hi Hrun.
  assert (H : never_heated t0 (constructor p ro t0)).
  { split_and!; [done|done|apply Qle_refl|]. intros due last []%elem_of_nil. }
  destruct (never_heated_run _ _ _ _ H Hrun) as (_ & Ho & Hle & _).
  split; [|done]. unfold isOverheated. apply Qltb_false. by rewrite Ho.
Qed.

Lemma isOverheated_ignored_witness :
  ∃ s, run two_dispatches (constructor defaultParams defaultRules 0) = Some s ∧
       isOverheated s = false ∧ overheat s = 0.
Proof.
  eexists. split; [vm_compute; reflexivity|].
  apply (isOverheated_ignored defaultParams defaultRules 0 two_dispatches).
  - reflexivity.
  - vm_compute. reflexivity.
Defined.

(** X6: the rule of a partition is what [this.params.rules] holds under
    its rule name, so the priority read by [findMostImportant] and the
    window read by [setCooldown] belong to one rule; and a partition object
    keeps its id, key, rule and rule name for ever, while its cooldown-until
    timestamp never goes back, whether [setCooldown], the callback of its
    timer or [createQueue] touches it. *)
Theorem partition_binding_fixed p ro t0 evs s evs' s' l q :
  (∀ i r, ro !! i = Some r → rule_ok r) →
  run evs (constructor p ro t0) = Some s →
  objs s !! l = Some q →
  run evs' s = Some s' →
  rule q = rules_get (ruleName q) s ∧
  ∃ q', objs s' !! l = Some q' ∧
        q_id q' = q_id q ∧ key q' = key q ∧ rule q' = rule q ∧ ruleName q' = ruleName q ∧
        cooldown q <= cooldown q'.
Proof.
  intros Hro Hrun Hq Hrun'.
  pose proof (loop_inv_run _ _ _ (loop_inv_constructor p ro t0 Hro) Hrun) as Hinv.
  split.
  - assert (Hb : bound (constructor p ro t0)) by (by intros l0 q0 Hq0).
    by apply (bound_run _ _ _ Hb Hrun l q).
  - destruct (later_run _ _ _ _ _ Hinv Hrun' Hq) as (q' & Hq' & Hl). by exists q'.
Qed.

Lemma partition_binding_fixed_witness :
  ∃ s q s', run [ERequest 1 1 None None] (constructor defaultParams defaultRules 0) = Some s ∧
    objs s !! O = Some q ∧
    run [ERunJob returns; ERunJob returns; ETick 50; ETimer 0] s = Some s' ∧
    rule q = rules_get (ruleName q) s ∧
    ∃ q', objs s' !! O = Some q' ∧
          q_id q' = q_id q ∧ key q' = key q ∧ rule q' = rule q ∧ ruleName q' = ruleName q ∧
          cooldown q <= cooldown q'.
Proof.
  eexists _, _, _. split_and!.
  - vm_compute. reflexivity.
  - vm_compute. reflexivity.
  - vm_compute. reflexivity.
  - reflexivity.
  - refine (proj2 (partition_binding_fixed defaultParams defaultRules 0
              [ERequest 1 1 None None] _ [ERunJob returns; ERunJob returns; ETick 50; ETimer 0] _ O _
              defaultRules_ok _ _ _)).
    + vm_compute. reflexivity.
    + vm_compute. reflexivity.
    + vm_compute. reflexivity.
Defined.

(** X7: submitting to a key that is in the store ignores the rule name
    given: [createQueue] does not call [getRule], so the configuration is
    as it was (an unknown name is not registered), the store is as it was,
    the partition keeps its rule, rule name and cooldown, and the item
    joins the tail of its FIFO. *)
Theorem request_known_key_keeps_binding p ro t0 evs s k l fn cb rn :
  (∀ i r, ro !! i = Some r → rule_ok r) →
  run evs (constructor p ro t0) = Some s →
  (k, l) ∈ queue s →
  params (request fn cb (Some k) rn s) = params s ∧
  queue (request fn cb (Some k) rn s) = queue s ∧
  ∃ q q' it,
    objs s !! l = Some q ∧ objs (request fn cb (Some k) rn s) !! l = Some q' ∧
    rule q' = rule q ∧ ruleName q' = ruleName q ∧ cooldown q' = cooldown q ∧
    data q' = data q ++ [it] ∧ item_request it = fn ∧ item_callback it = cb.
Proof.
  intros Hro Hrun Hin.
  pose proof (loop_inv_run _ _ _ (loop_inv_constructor p ro t0 Hro) Hrun) as Hinv.
  pose proof (li_store _ Hinv) as Hwf.
  destruct (wf_objs _ Hwf _ _ Hin) as (q & Hq & Hk).
  pose proof (Map_get_elem _ _ _ (wf_keys _ Hwf) Hin) as Hget.
  unfold request, add. simpl.
  pose proof (createQueue_created k fn cb (default (default_rule (params s)) rn) s) as Hcr.
  destruct (createQueue k fn cb (default (default_rule (params s)) rn) s) as [l1 s1].
  simpl in Hcr.
  assert (H : ∀ s2, params s2 = params s1 → queue s2 = queue s1 → objs s2 = objs s1 →
            params s2 = params s ∧ queue s2 = queue s ∧
            ∃ q0 q' it0, objs s !! l = Some q0 ∧ objs s2 !! l = Some q' ∧
              rule q' = rule q0 ∧ ruleName q' = ruleName q0 ∧ cooldown q' = cooldown q0 ∧
              data q' = data q0 ++ [it0] ∧ item_request it0 = fn ∧ item_callback it0 = cb).
  { intros s2 -> -> ->. destruct Hcr as [l1 q1 Hget1 Hq1|Hnone].
    - rewrite Hget in Hget1. injection Hget1 as <-. rewrite Hq in Hq1. injection Hq1 as <-.
      split_and!; [done|by apply Map_set_present|].
      exists q, (push_item item q), item. split_and!; try done.
      simpl. by rewrite lookup_insert_eq.
    - rewrite Hget in Hnone. simpl in Hnone. by rewrite Hq in Hnone. }
  destruct (pending s1); [by apply H|]. unfold execute.
  destruct (findMostImportant_frame (Some l1) (set_pending true s1))
    as (E1 & _ & _ & E2 & E3 & _).
  by apply H.
Qed.

Lemma request_known_key_keeps_binding_witness :
  ∃ s, run [ERequest 1 1 (Some "k"%string) (Some "q1"%string)]
         (constructor q1Params q1Rules 0) = Some s ∧
    params (request 2 2 (Some "k"%string) (Some "other"%string) s) = params s ∧
    queue (request 2 2 (Some "k"%string) (Some "other"%string) s) = queue s ∧
    ∃ q q' it,
      objs s !! O = Some q ∧
      objs (request 2 2 (Some "k"%string) (Some "other"%string) s) !! O = Some q' ∧
      rule q' = rule q ∧ ruleName q' = ruleName q ∧ cooldown q' = cooldown q ∧
      data q' = data q ++ [it] ∧ item_request it = 2%nat ∧ item_callback it = 2%nat.
Proof.
  eexists. split; [vm_compute; reflexivity|].
  apply (request_known_key_keeps_binding q1Params q1Rules 0
           [ERequest 1 1 (Some "k"%string) (Some "q1"%string)]).
  - exact q1Rules_ok.
  - vm_compute. reflexivity.
  - left.
Defined.

(** X8: when no partition of the store is both non-empty and eligible
    but some partition is cooling, [findMostImportant()] calls [delay] with
    the time left until the soonest cooldown-until timestamp lying in the
    future among all the partitions of the store, empty ones included, and
    whatever the overall overheat. *)
Theorem findMostImportant_sleeps_until_earliest s :
  (∀ kv, kv ∈ queue s → ∃ q r, objs s !! kv.2 = Some q ∧ rule q ≫= (rule_objs s !!.) = Some r) →
  (∀ kv p, kv ∈ queue s → ¬ eligible s (now s) kv.2 p) →
  (∃ kv q, kv ∈ queue s ∧ objs s !! kv.2 = Some q ∧ now s < cooldown q) →
  ∃ c, findMostImportant None s = setTimeout FindT (c - now s) s ∧
       earliest_cooling s (now s) (queue s) c.
Proof.
  intros [[[mp sel] mc] Hscan]%scan_defined Hnone (kv & q & Hin & Hq & Hlt).
  unfold findMostImportant. rewrite Hscan.
  pose proof (scan_fold_min _ _ _ _ Hscan) as Hmin.
  apply scan_spec_now in Hscan as (_ & _ & _ & Hsel). simpl in *.
  destruct sel as [l|].
  { destruct Hsel as (i & p & _ & (k & Hi) & Hel & _). destruct (Hnone (k, l) p); [|done].
    by eapply list_elem_of_lookup_2. }
  destruct mc as [c|]; simpl in Hmin.
  - exists c. split; [|done]. destruct Hmin as [(_ & _ & _ & _ & _ & Hc) _].
    assert (Qltb 0 (c - now s) = true) as -> by (apply Qltb_true; lra). done.
  - specialize (Hmin _ _ Hin Hq). lra.
Qed.

Lemma findMostImportant_sleeps_until_earliest_witness :
  ∃ s, run [ERequest 1 1 None None; ERunJob returns]
         (constructor defaultParams defaultRules 0) = Some s ∧
    ∃ c, findMostImportant None s = setTimeout FindT (c - now s) s ∧
         earliest_cooling s (now s) (queue s) c.
Proof.
  eexists. split; [vm_compute; reflexivity|].
  apply findMostImportant_sleeps_until_earliest.
  - intros kv [->|[]%elem_of_nil]%elem_of_cons. eexists _, _. split; reflexivity.
  - intros kv p [->|[]%elem_of_nil]%elem_of_cons (q & r & Hq & _ & _ & Hd & _).
    injection Hq as <-. done.
  - eexists _, _. split_and!; [left|reflexivity|reflexivity].
Defined.







(** X12: when the overall overheat is not ignored, the [overall] rule
    having a positive rate and limit, any two dispatches, from whatever
    partitions, are at least
    [heatPart = overall.limit * 1000 / overall.rate] ms apart. *)
Theorem overheat_spaces_dispatches p ro t0 evs s :
  (∀ i r, ro !! i = Some r → rule_ok r) →
  rule_ok (overall p) →
  ignoreOverallOverheat p = false →
  run evs (constructor p ro t0) = Some s →
  ∀ h2 h1 t1 t2 l1 l2 i1 i2 w1 w2,
    history s = h2 ++ ODispatch t2 l2 i2 w2 :: h1 →
    ODispatch t1 l1 i1 w1 ∈ h1 →
    t1 + limit (overall p) * 1000 / rate (overall p) <= t2.
Proof.
  intros Hro _ Hi Hrun h2 h1 t1 t2 l1 l2 i1 i2 w1 w2 Hh Hin.
  pose proof (loop_inv_constructor p ro t0 Hro) as Hinv0.
  assert (Hh0 : heat_inv (limit (overall p) * 1000 / rate (overall p)) (constructor p ro t0)).
  { split; simpl; try done.
    - intros t l it w []%elem_of_nil.
    - intros due last []%elem_of_nil.
    - intros _ t l it w []%elem_of_nil.
    - intros _ t l it w []%elem_of_nil.
    - intros _ t l it w []%elem_of_nil. }
  pose proof (hv_spaced _ _ (heat_inv_run _ _ _ _ Hinv0 Hh0 Hrun)) as Hsp.
  rewrite Hh in Hsp. by eapply gspaced_split.
Qed.

Lemma overheat_spaces_dispatches_witness :
  ∃ s, run heat_run (constructor heatParams defaultRules 0) = Some s ∧
    ∀ h2 h1 t1 t2 l1 l2 i1 i2 w1 w2,
      history s = h2 ++ ODispatch t2 l2 i2 w2 :: h1 →
      ODispatch t1 l1 i1 w1 ∈ h1 →
      t1 + limit (overall heatParams) * 1000 / rate (overall heatParams) <= t2.
Proof.
  eexists. split; [vm_compute; reflexivity|].
  apply (overheat_spaces_dispatches heatParams defaultRules 0 heat_run).
  - exact defaultRules_ok.
  - split; reflexivity.
  - reflexivity.
  - vm_compute. reflexivity.
Defined.

(** X13: the completion callback of an item is invoked at most once, and
    only after the item was popped; an item whose completion was invoked is
    not queued in any partition, not about to execute and not running. *)
Theorem completion_at_most_once p ro t0 evs s :
  (∀ i r, ro !! i = Some r → rule_ok r) →
  run evs (constructor p ro t0) = Some s →
  NoDup (called (history s)) ∧
  ∀ l it r, OCall l it r ∈ history s →
    it ∈ popped l (history s) ∧ (∀ l', it ∉ data_of s l') ∧
    (∀ l', ExecK l' it ∉ jobs s) ∧
    ∀ e r', running s !! e = Some r' → r_item r' ≠ it.
Proof.
  intros Hro Hrun.
  pose proof (loop_inv_constructor p ro t0 Hro) as Hinv0.
  pose proof (hist_inv_constructor p ro t0) as Hh0.
  assert (Hon0 : once_inv (constructor p ro t0)).
  { split; simpl; [constructor|done|done|by intros ???? ?%elem_of_nil|
                   by intros ?? ?%elem_of_nil|done]. }
  pose proof (once_inv_run _ _ _ Hinv0 Hh0 Hon0 Hrun) as [H1 H2 H3 H4 H5 H6].
  pose proof (hist_inv_run _ _ _ Hh0 Hrun) as Hh.
  split; [done|]. intros l it r Hc.
  assert (Hcalled : it ∈ called (history s)) by (apply called_elem; eauto).
  pose proof (hi_calls _ Hh _ _ _ Hc) as Hp.
  split_and!.
  - done.
  - intros l' Hd. unfold data_of in Hd.
    destruct (objs s !! l') as [q|] eqn:Hq; [|by apply elem_of_nil in Hd].
    assert (He' : it ∈ enqueued l' (history s)).
    { rewrite (hi_fifo _ Hh l'). unfold data_of. rewrite Hq. apply elem_of_app. by right. }
    assert (He : it ∈ enqueued l (history s)).
    { rewrite (hi_fifo _ Hh l). apply elem_of_app. by left. }
    assert (l = l') as <- by (eapply enqueued_partition; [apply Hh|done..]).
    pose proof (enqueued_NoDup l _ (hi_nodup _ Hh)) as Hnd.
    rewrite (hi_fifo _ Hh l) in Hnd. apply NoDup_app in Hnd as (_ & Hdisj & _).
    apply (Hdisj it Hp). unfold data_of. by rewrite Hq.
  - intros l' Hin. by apply (H5 l' it).
  - intros e r' Hr Heq. apply (H6 e r' Hr). by rewrite Heq.
Qed.

Lemma completion_at_most_once_witness :
  ∃ s, run [ERequest 1 1 None None; ERunJob returns; ERunJob returns; ESettle 2 (Resolved 7)]
         (constructor defaultParams defaultRules 0) = Some s ∧
    NoDup (called (history s)) ∧
    ∀ l it r, OCall l it r ∈ history s →
      it ∈ popped l (history s) ∧ (∀ l', it ∉ data_of s l') ∧
      (∀ l', ExecK l' it ∉ jobs s) ∧
      ∀ e r', running s !! e = Some r' → r_item r' ≠ it.
Proof.
  eexists. split; [vm_compute; reflexivity|].
  apply (completion_at_most_once defaultParams defaultRules 0
           [ERequest 1 1 None None; ERunJob returns; ERunJob returns; ESettle 2 (Resolved 7)]).
  - exact defaultRules_ok.
  - vm_compute. reflexivity.
Defined.

(** X14: nothing assigns the configuration after construction, apart from
    the registration of rule names by [getRule]: the default rule name and
    key, [overall], [retryTime], [ignoreOverallOverheat] and [heatPart],
    computed once from [overall], keep their values, no rule object is
    changed, and a name that stands for a rule stands for that rule in
    every later state. *)
Theorem configuration_is_fixed p ro t0 evs s :
  run evs (constructor p ro t0) = Some s →
  default_rule (params s) = default_rule p ∧ default_key (params s) = default_key p ∧
  overall (params s) = overall p ∧ retryTime (params s) = retryTime p ∧
  ignoreOverallOverheat (params s) = ignoreOverallOverheat p ∧
  heatPart s = limit (overall p) * 1000 / rate (overall p) ∧
  rule_objs s = ro ∧
  ∀ n ref, mjoin (rules p !! n) = Some ref → rules_get n s = Some ref.
Proof.
  intros Hrun.
  destruct (same_config_run _ _ _ Hrun) as (H1 & H2 & H3 & H4 & H5 & H6).
  destruct (rules_kept_run _ _ _ Hrun) as (Hro & _ & Hk).
  split_and!; try done.
  intros n ref Hn. apply Hk. unfold rules_get. simpl.
  by destruct (rules p !! n) as [v|].
Qed.

Lemma configuration_is_fixed_witness :
  ∃ s, run two_dispatches (constructor defaultParams defaultRules 0) = Some s ∧
    default_rule (params s) = default_rule defaultParams ∧
    default_key (params s) = default_key defaultParams ∧
    overall (params s) = overall defaultParams ∧
    retryTime (params s) = retryTime defaultParams ∧
    ignoreOverallOverheat (params s) = ignoreOverallOverheat defaultParams ∧
    heatPart s = limit (overall defaultParams) * 1000 / rate (overall defaultParams) ∧
    rule_objs s = defaultRules ∧
    ∀ n ref, mjoin (rules defaultParams !! n) = Some ref → rules_get n s = Some ref.
Proof.
  eexists. split; [vm_compute; reflexivity|].
  apply (configuration_is_fixed defaultParams defaultRules 0 two_dispatches).
  vm_compute. reflexivity.
Defined.

(** X15: the store holds at most one partition under a key, the partition
    found under a key carries that key, and a partition is stored under
    one key only; so [this.queue.get(key)] finds exactly the partitions of
    the store. *)
Theorem store_is_keyed p ro t0 evs s :
  (∀ i r, ro !! i = Some r → rule_ok r) →
  run evs (constructor p ro t0) = Some s →
  NoDup (queue s).*1 ∧ NoDup (queue s).*2 ∧
  ∀ k l, Map_get k (queue s) = Some l ↔
         (k, l) ∈ queue s ∧ ∃ q, objs s !! l = Some q ∧ key q = k.
Proof.
  intros Hro Hrun.
  pose proof (loop_inv_run _ _ _ (loop_inv_constructor p ro t0 Hro) Hrun) as Hinv.
  pose proof (li_store _ Hinv) as Hwf. destruct Hwf as [Hnd Hobj Hfr].
  split_and!.
  - done.
  - assert (Hloc : ∀ k k' l, (k, l) ∈ queue s → (k', l) ∈ queue s → k' = k).
    { intros k k' l H1 H2. by eapply (store_wf_loc s). }
    revert Hnd Hloc. generalize (queue s) as m.
    induction m as [|[k l] m IH]; simpl; intros Hnd Hloc; [constructor|].
    apply NoDup_cons in Hnd as [Hnotin Hnd]. apply NoDup_cons. split.
    + intros ([k' l'] & -> & Hin)%list_elem_of_fmap. simpl in *.
      apply Hnotin. apply list_elem_of_fmap. exists (k', l'). split; [|done]. simpl.
      apply (Hloc k' k l'); [by right|left].
    + apply IH; [done|]. intros k0 k' l0 H1 H2. apply (Hloc k0 k' l0); by right.
  - intros k l. split.
    + intros Hget%Map_get_Some. split; [done|]. by apply Hobj.
    + intros [Hin _]. by apply Map_get_elem.
Qed.

Lemma store_is_keyed_witness :
  ∃ s, run two_requests (constructor q1Params q1Rules 0) = Some s ∧
    NoDup (queue s).*1 ∧ NoDup (queue s).*2 ∧
    ∀ k l, Map_get k (queue s) = Some l ↔
           (k, l) ∈ queue s ∧ ∃ q, objs s !! l = Some q ∧ key q = k.
Proof.
  eexists. split; [vm_compute; reflexivity|].
  apply (store_is_keyed q1Params q1Rules 0 two_requests).
  - exact q1Rules_ok.
  - vm_compute. reflexivity.
Defined.

(** X16: a completion callback is invoked at most once, whatever retries
    are made, provided [request] is given a new one at each call, as it is
    by the promise it makes. *)
Theorem completion_callback_at_most_once p ro t0 evs s :
  NoDup (submitted evs) →
  run evs (constructor p ro t0) = Some s →
  NoDup (item_callback <$> called (history s)).
Proof.
  intros Hnd Hrun. rewrite <- sinks_called_called. apply count_NoDup. intros x.
  pose proof (weight_run x _ _ _ Hrun) as H.
  apply count_NoDup with (x := x) in Hnd.
  assert (weight x (constructor p ro t0) = 0%nat) as H0.
  { unfold weight, sinks_map. simpl. by rewrite !map_to_list_empty. }
  unfold weight in H at 1. lia.
Qed.

Lemma completion_callback_at_most_once_witness :
  ∃ s, run retry_run (constructor defaultParams defaultRules 0) = Some s ∧
    NoDup (item_callback <$> called (history s)).
Proof.
  eexists. split; [vm_compute; reflexivity|].
  apply (completion_callback_at_most_once defaultParams defaultRules 0 retry_run).
  - apply (bool_decide_unpack _). vm_compute. reflexivity.
  - vm_compute. reflexivity.
Defined.

(** X17: two schedulers made without [rules] hold the same object,
    [defaultParams.rules]; a rule name that stands for nothing there (it
    names no own property holding a value and no property of
    [Object.prototype]) and that one of them registers on submitting to a
    new key is from then on registered for the other, with what the
    default rule name of the first stands for.  A scheduler holding
    another [rules] object sees nothing of it. *)
Theorem default_rules_are_shared h i1 i2 rs fn cb k n h' i1' :
  h !! rules_ref i1 = Some rs →
  rules_get n (enter h i1) = None →
  Map_get (default (default_key (params (this i1))) k) (queue (this i1)) = None →
  step_in (ERequest fn cb k (Some n)) i1 h = Some (h', i1') →
  (∀ p1 p2 ro1 ro2 t1 t2,
     rules_ref (new_in None p1 ro1 t1) = rules_ref (new_in None p2 ro2 t2)) ∧
  (rules_ref i2 = rules_ref i1 →
   rules (params (enter h' i2)) =
     <[n := rules_get (default_rule (params (this i1))) (enter h i1)]> rs ∧
   rules_get n (enter h' i2) = rules_get (default_rule (params (this i1))) (enter h i1)) ∧
  (rules_ref i2 ≠ rules_ref i1 → enter h' i2 = enter h i2).
Proof.
  intros Hh Hn Hget Hstep. unfold step_in in Hstep. simpl in Hstep.
  injection Hstep as <- <-.
  unfold request. simpl.
  rewrite add_new_key_rules; [|done|done].
  set (d := rules_get _ (enter h i1)).
  assert (Hrs : rules (params (enter h i1)) = rs) by (unfold enter; simpl; by rewrite Hh).
  rewrite Hrs. unfold rules_get, enter. simpl.
  split_and!.
  - done.
  - intros ->. rewrite lookup_insert_eq. simpl. split; [done|]. by rewrite lookup_insert_eq.
  - intros Hne. by rewrite lookup_insert_ne.
Qed.

(** The test "should create new rule if nothing found", with a second
    scheduler looking on. *)
Lemma default_rules_are_shared_witness :
  ∃ h' i1',
    step_in (ERequest 1 1 (Some "1"%string) (Some "lol"%string))
      (new_in None (mkPartial None None None None None) defaultRules 0) module_rules
    = Some (h', i1') ∧
    rules_get "lol" (enter module_rules
                       (new_in None (mkPartial None None None None None) defaultRules 5)) = None ∧
    rules_get "lol" (enter h'
                       (new_in None (mkPartial None None None None None) defaultRules 5))
    = Some (Ref O).
Proof.
  eexists _, _. split_and!; [reflexivity|reflexivity|].
  refine (proj2 (proj1 (proj2 (default_rules_are_shared module_rules
    (new_in None (mkPartial None None None None None) defaultRules 0)
    (new_in None (mkPartial None None None None None) defaultRules 5)
    (rules defaultParams) 1 1 (Some "1"%string) "lol" _ _ _ _ _ _)) _)).
  - reflexivity.
  - reflexivity.
  - reflexivity.
  - reflexivity.
  - reflexivity.
Defined.

(** X18: no empty partition is left behind.  In every state reached from
    a new scheduler, an empty partition of the store has a cooldown timer
    pending, and when the callback of that timer runs it removes the
    partition's key from the store. *)
Theorem empty_partition_is_removed p ro t0 evs s k l q :
  (∀ i r, ro !! i = Some r → rule_ok r) →
  run evs (constructor p ro t0) = Some s →
  (k, l) ∈ queue s → objs s !! l = Some q → data q = [] →
  ∃ i due c, timers s !! i = Some (due, CooldownT l c) ∧
    (jobs s = [] → due <= now s →
     ∃ s', step (ETimer i) s = Some s' ∧ ∀ l', (k, l') ∉ queue s').
Proof.
  intros Hro Hrun Hin Hq Hd.
  pose proof (loop_inv_constructor p ro t0 Hro) as Hinv0.
  pose proof (loop_inv_run _ _ _ Hinv0 Hrun) as Hinv.
  assert (Hsw0 : swept (constructor p ro t0)) by (by intros ??? ?%elem_of_nil).
  destruct (swept_run _ _ _ Hinv0 Hsw0 Hrun k l q Hin Hq Hd) as (due & c & Hx).
  apply list_elem_of_lookup in Hx as [i Hi]. exists i, due, c. split; [done|].
  intros Hj Hdue. apply Qle_bool_iff in Hdue. simpl. rewrite Hj, Hi, Hdue.
  eexists. split; [done|]. simpl. rewrite Hq. simpl. rewrite Hd. simpl.
  intros l' [_ Hk]%Map_delete_elem. simpl in Hk.
  destruct (wf_objs _ (li_store _ Hinv) _ _ Hin) as (q1 & Hq1 & Hkey).
  rewrite Hq in Hq1. injection Hq1 as <-. done.
Qed.

Lemma empty_partition_is_removed_witness :
  ∃ s q, run [ERequest 1 1 None None; ERunJob returns; ERunJob returns; ETick 50]
           (constructor defaultParams defaultRules 0) = Some s ∧
    objs s !! O = Some q ∧ data q = [] ∧
    ∃ i due c, timers s !! i = Some (due, CooldownT 0 c) ∧
      (jobs s = [] → due <= now s →
       ∃ s', step (ETimer i) s = Some s' ∧ ∀ l', ("common"%string, l') ∉ queue s').
Proof.
  eexists _, _. split_and!.
  - vm_compute. reflexivity.
  - vm_compute. reflexivity.
  - reflexivity.
  - refine (empty_partition_is_removed defaultParams defaultRules 0
      [ERequest 1 1 None None; ERunJob returns; ERunJob returns; ETick 50] _
      "common" O _ defaultRules_ok _ _ _ _).
    + vm_compute. reflexivity.
    + left.
    + vm_compute. reflexivity.
    + reflexivity.
Defined.

(** X19: [clear()] does not cancel a retry.  An item waiting for its retry
    delay when [clear()] is called is submitted again when the delay has
    elapsed: it is then the only queued item, in a new partition under the
    key of the partition it was popped from. *)
Theorem clear_keeps_pending_retries p ro t0 evs s i due l it q :
  (∀ i r, ro !! i = Some r → rule_ok r) →
  run evs (constructor p ro t0) = Some s →
  timers s !! i = Some (due, RetryT l it) → objs s !! l = Some q →
  jobs s = [] → due <= now s →
  ∃ s' it' q',
    step (ETimer i) (clear s) = Some s' ∧
    history s' = OEnqueue (fresh s) it' :: history s ∧
    item_request it' = item_request it ∧ item_callback it' = item_callback it ∧
    queue s' = [(key q, fresh s)] ∧ totalLength s' = 1%nat ∧
    objs s' !! fresh s = Some q' ∧ ruleName q' = ruleName q ∧ data q' = [it'].
Proof.
  intros Hro Hrun Ht Hq Hj Hdue.
  pose proof (loop_inv_run _ _ _ (loop_inv_constructor p ro t0 Hro) Hrun) as Hinv.
  pose proof (li_store _ Hinv) as Hwf.
  apply Qle_bool_iff in Hdue. simpl. rewrite Hj, Ht, Hdue. simpl. rewrite Hq.
  set (s0 := set_timers (delete i) (clear s)).
  assert (Hwf0 : store_wf s0).
  { destruct Hwf as [_ _ Hfr]. split; simpl; [constructor|by intros ?? ?%elem_of_nil|done]. }
  destruct (add_to_empty_store (item_request it) (item_callback it) (key q) (ruleName q)
              s0 Hwf0 eq_refl) as (it' & q' & Hh & H1 & H2 & H3 & H4 & H5 & H6 & H7 & _).
  exists (add (item_request it) (item_callback it) (key q) (ruleName q) s0), it', q'.
  split_and!; try done.
  rewrite add_total by done. done.
Qed.

Lemma clear_keeps_pending_retries_witness :
  ∃ s q, run retry_pending (constructor defaultParams defaultRules 0) = Some s ∧
    objs s !! O = Some q ∧
    ∃ s' it' q',
      step (ETimer 0) (clear s) = Some s' ∧
      history s' = OEnqueue (fresh s) it' :: history s ∧
      item_request it' = 1%nat ∧ item_callback it' = 1%nat ∧
      queue s' = [(key q, fresh s)] ∧ totalLength s' = 1%nat ∧
      objs s' !! fresh s = Some q' ∧ ruleName q' = ruleName q ∧ data q' = [it'].
Proof.
  eexists _, _. split; [vm_compute; reflexivity|]. split; [vm_compute; reflexivity|].
  refine (clear_keeps_pending_retries defaultParams defaultRules 0 retry_pending _
            0%nat 1000 O (mkItem 1 1 1) _ defaultRules_ok _ _ _ _ _).
  - vm_compute. reflexivity.
  - vm_compute. reflexivity.
  - vm_compute. reflexivity.
  - reflexivity.
  - apply Qle_refl.
Defined.

(** X20: when the overall overheat is not ignored, the scheduler is
    overheated from the start of an operation until [heatPart] ms later at
    least: [heat] sets [this.overheat] to [now + heatPart], and neither a
    later [heat] nor the callback of a timer of [heat], however late,
    brings it below that. *)
Theorem overheat_lasts p ro t0 evs s l it js b s1 evs' s2 :
  (∀ i r, ro !! i = Some r → rule_ok r) →
  ignoreOverallOverheat p = false →
  run evs (constructor p ro t0) = Some s →
  jobs s = ExecK l it :: js → sync_throw b = None →
  step (ERunJob b) s = Some s1 → run evs' s1 = Some s2 →
  overheat s1 = now s + heatPart s ∧
  now s + heatPart s <= overheat s2 ∧
  (now s2 < now s + heatPart s → isOverheated s2 = true).
Proof.
  intros Hro Hi Hrun Hj Hnt Hstep Hrun'.
  pose proof (loop_inv_constructor p ro t0 Hro) as Hinv0.
  assert (Hh0 : heat_inv (limit (overall p) * 1000 / rate (overall p)) (constructor p ro t0)).
  { split; simpl; try done.
    - intros t ? ? ? []%elem_of_nil.
    - intros due last []%elem_of_nil.
    - intros _ t ? ? ? []%elem_of_nil.
    - intros _ t ? ? ? []%elem_of_nil.
    - intros _ t ? ? ? []%elem_of_nil. }
  pose proof (heat_inv_run _ _ _ _ Hinv0 Hh0 Hrun) as [H1 H2 _ _ H5 _ _ _].
  simpl in Hstep. rewrite Hj in Hstep. injection Hstep as <-.
  unfold execute_resume in *. rewrite Hnt in *. unfold execute in *.
  set (a := set_running _ _) in *.
  assert (Ho : overheat (heat a) = now s + heatPart s).
  { unfold heat. simpl. by rewrite H1. }
  assert (Hl1 : lasting (heatPart s) (now s + heatPart s)
                  (findMostImportant None (set_pending true (heat a)))).
  { apply lasting_find. split; simpl.
    - by destruct (heat_frame a) as (-> & _).
    - unfold heat. simpl. by rewrite H1.
    - rewrite Ho. apply Qle_refl.
    - destruct (heat_frame a) as (_ & _ & _ & _ & ->). simpl. apply Qle_refl.
    - unfold heat. simpl. rewrite H1. simpl.
      intros due last [?|[= <- <-]%list_elem_of_singleton]%elem_of_app; [eauto|apply Qle_refl]. }
  destruct (lasting_run _ _ _ _ _ Hl1 Hrun') as [_ _ H3' _ _].
  split_and!.
  - destruct (findMostImportant_frame None (set_pending true (heat a)))
      as (_&_&_&_&_&_&_&->&_).
    done.
  - done.
  - intros Hlt. unfold isOverheated. apply Qltb_true. lra.
Qed.

Lemma overheat_lasts_witness :
  ∃ s s1 s2,
    run [ERequest 1 1 None None; ERunJob returns] (constructor heatParams defaultRules 0)
      = Some s ∧
    step (ERunJob returns) s = Some s1 ∧
    run [ETick 100; ETimer 1; ETick 120] s1 = Some s2 ∧
    overheat s1 = now s + heatPart s ∧
    now s + heatPart s <= overheat s2 ∧
    (now s2 < now s + heatPart s → isOverheated s2 = true).
Proof.
  eexists _, _, _. do 3 (split; [vm_compute; reflexivity|]).
  refine (overheat_lasts heatParams defaultRules 0 [ERequest 1 1 None None; ERunJob returns] _
            O (mkItem 1 1 1) [] returns _ [ETick 100; ETimer 1; ETick 120] _
            defaultRules_ok _ _ _ _ _ _).
  - reflexivity.
  - vm_compute. reflexivity.
  - reflexivity.
  - reflexivity.
  - vm_compute. reflexivity.
  - vm_compute. reflexivity.
Defined.



(** X22: [getRule] returns what the rule name stands for when it stands
    for a value, an own property of [rules] or a property inherited from
    [Object.prototype], and changes nothing.  A name that stands for
    nothing is registered with the very value the default rule name stands
    for, which is also what is returned.  From then on, in every later
    state, the name resolves to that same value, the rule object it refers
    to is unchanged, and so is what the default rule name stands for. *)
Theorem getRule_resolves name s :
  (∀ ref, rules_get name s = Some ref →
          getRule name s = (Some ref, s)) ∧
  (rules_get name s = None →
   (getRule name s).1 = rules_get (default_rule (params s)) s ∧
   rules (params (getRule name s).2) =
     <[name := rules_get (default_rule (params s)) s]> (rules (params s)) ∧
   rule_objs (getRule name s).2 = rule_objs s) ∧
  rules_get name (getRule name s).2 = (getRule name s).1 ∧
  (∀ evs s' ref,
     (getRule name s).1 = Some ref → run evs (getRule name s).2 = Some s' →
     getRule name s' = (Some ref, s') ∧
     rule_objs s' !! ref = rule_objs s !! ref ∧
     (rules_get name s = None →
      rules_get (default_rule (params s')) s' = Some ref)).
Proof.
  split_and!.
  - intros ref H. unfold getRule. by rewrite H.
  - intros H. unfold getRule. rewrite H. done.
  - unfold getRule. destruct (rules_get name s) as [r|] eqn:E; simpl; [done|].
    unfold rules_get. simpl. by rewrite lookup_insert_eq.
  - intros evs s' ref Hr Hrun.
    pose proof (rules_kept_getRule name s) as (Ho & Ed & Hk).
    pose proof (rules_kept_run _ _ _ Hrun) as (Ho' & Ed' & Hk').
    assert (Hreg : rules_get name (getRule name s).2 = Some ref).
    { rewrite <- Hr. unfold getRule. destruct (rules_get name s) as [r|] eqn:E; simpl; [done|].
      unfold rules_get. simpl. by rewrite lookup_insert_eq. }
    split_and!.
    + unfold getRule. by rewrite (Hk' _ _ Hreg).
    + by rewrite Ho', Ho.
    + intros Hnone. rewrite Ed', Ed. apply Hk', Hk.
      unfold getRule in Hr. rewrite Hnone in Hr. done.
Qed.
